(** * Pipeline topology: from task descriptors to a node/edge graph

    A shallow embedding of
    [pipelines-plugin/src/components/pipelines/pipeline-topology/utils.ts]
    and of the finally-node construction of the pipeline builder hooks
    ([useConnectFinally]), with the properties of the transformation. *)

From Stdlib Require Import List String Ascii ZArith Lia Bool Arith PeanoNat.
From Stdlib Require Import Numbers.DecimalString Sorting.Sorted.
Import ListNotations.

Set Implicit Arguments.

Local Open Scope string_scope.
Local Open Scope list_scope.

(** ** The JavaScript and lodash operations the source relies on *)

Module Js.

(** Errors a JavaScript expression can throw.  The only one the source can
    raise is the [TypeError] of reading a property of [undefined]. *)
Inductive error := TypeError.

(** The outcome of a call: a returned value or a thrown error. *)
Inductive result (A : Type) :=
| Returned (a : A)
| Threw (e : error).
Arguments Threw {A} e.

Definition bind {A B} (r : result A) (k : A -> result B) : result B :=
  match r with
  | Returned a => k a
  | Threw e => Threw e
  end.

(** [o?.p] where [p] is itself an optional property. *)
Definition optChain {O P} (o : option O) (p : O -> option P) : option P :=
  match o with
  | Some obj => p obj
  | None => None
  end.

(** [a ?? b] *)
Definition nullish {A} (a : option A) (b : A) : A :=
  match a with
  | Some v => v
  | None => b
  end.

(** [Array.prototype.reduce(f, init)] with the element index passed to the
    callback, starting at [idx]. *)
Fixpoint reduceFrom {A B} (f : B -> A -> nat -> B) (l : list A) (idx : nat)
         (acc : B) : B :=
  match l with
  | [] => acc
  | x :: l' => reduceFrom f l' (S idx) (f acc x idx)
  end.

Definition reduce {A B} (f : B -> A -> nat -> B) (init : B) (l : list A) : B :=
  reduceFrom f l 0 init.

(** [Array.prototype.join(sep)] on an array of strings. *)
Fixpoint join (sep : string) (l : list string) : string :=
  match l with
  | [] => ""
  | [x] => x
  | x :: l' => x ++ sep ++ join sep l'
  end.

(** [Array.prototype.sort(cmp)]: the sort is stable, so for a consistent
    comparator its result is the one of a stable insertion sort.  [cmp a b]
    is negative, zero or positive. *)
Section Sort.
Variable A : Type.
Variable cmp : A -> A -> Z.

Fixpoint insert (x : A) (l : list A) : list A :=
  match l with
  | [] => [x]
  | y :: l' => if (cmp x y <=? 0)%Z then x :: y :: l' else y :: insert x l'
  end.

Fixpoint sort (l : list A) : list A :=
  match l with
  | [] => []
  | x :: l' => insert x (sort l')
  end.
End Sort.

Definition includes (x : string) (l : list string) : bool :=
  existsb (String.eqb x) l.

(** [_.uniq]: keeps the first occurrence of every value. *)
Fixpoint uniqFrom (seen l : list string) : list string :=
  match l with
  | [] => []
  | x :: l' =>
      if includes x seen then uniqFrom seen l' else x :: uniqFrom (x :: seen) l'
  end.

Definition uniq (l : list string) : list string := uniqFrom [] l.

(** [_.difference(array, values)]: the elements of [array], in order and
    with their repetitions, that do not occur in [values]. *)
Definition difference (array values : list string) : list string :=
  filter (fun x => negb (includes x values)) array.

(** [_.flatten] flattens one level: an array element is replaced by its
    elements, any other element ([null] here) stays where it is. *)
Fixpoint flattenNullable {A} (l : list (option (list A))) : list (option A) :=
  match l with
  | [] => []
  | Some xs :: l' => map Some xs ++ flattenNullable l'
  | None :: l' => None :: flattenNullable l'
  end.

(** [_.flatten] on an array whose elements are all arrays. *)
Definition flatten {A} (l : list (list A)) : list A := List.concat l.

(** [arr.forEach(x => { ... })] with the variables the callback mutates
    passed along as a state. *)
Definition forEach {A S} (body : S -> A -> S) (l : list A) (st : S) : S :=
  fold_left body l st.

(** A non-negative integer in a template string. *)
Definition numberToString (n : nat) : string :=
  NilEmpty.string_of_uint (Nat.to_uint n).

(** [.filter(x => !!x)] on an array of objects and [null]s. *)
Fixpoint filterTruthy {A} (l : list (option A)) : list A :=
  match l with
  | [] => []
  | Some x :: l' => x :: filterTruthy l'
  | None :: l' => filterTruthy l'
  end.

(** The names of the members every plain object inherits from
    [Object.prototype].  A read [o[k]] of a plain object that has no own
    property [k] finds the inherited member when [k] is one of these names,
    and [undefined] otherwise. *)
Definition objectPrototypeNames : list string :=
  [ "constructor"; "hasOwnProperty"; "isPrototypeOf"; "propertyIsEnumerable";
    "toLocaleString"; "toString"; "valueOf"; "__proto__";
    "__defineGetter__"; "__defineSetter__"; "__lookupGetter__";
    "__lookupSetter__" ].

Definition inherited (k : string) : bool := includes k objectPrototypeNames.

(** A plain object used as a dictionary from strings to arrays.  Own string
    keys are enumerated in insertion order, so the object is an association
    list; the keys the source uses are never array indices.  [get] reads the
    own properties: it is the read [m[k]] of the source for every key that
    is an own key or for which [inherited] is [false].  A write to the key
    ['__proto__'], which would replace the prototype of the object, is not
    represented. *)
Definition dict (V : Type) := list (string * list V).

Fixpoint get {V} (m : dict V) (k : string) : option (list V) :=
  match m with
  | [] => None
  | (k', v) :: m' => if String.eqb k k' then Some v else get m' k
  end.

(** [if (!Array.isArray(m[k])) m[k] = []; m[k].push(v);] *)
Fixpoint push {V} (m : dict V) (k : string) (v : V) : dict V :=
  match m with
  | [] => [(k, [v])]
  | (k', vs) :: m' =>
      if String.eqb k k' then (k', vs ++ [v]) :: m' else (k', vs) :: push m' k v
  end.

(** [m[k]], read as the empty array when the key is absent. *)
Definition lookup {V} (m : dict V) (k : string) : list V := nullish (get m k) [].

(** [Object.values] *)
Definition values {V} (m : dict V) : list (list V) := map snd m.

End Js.

Import Js.

(** ** The data model ([const.ts], [types.ts]) *)

Inductive NodeType :=
| TASK_NODE
| SPACER_NODE
| TASK_LIST_NODE
| INVALID_TASK_LIST_NODE
| BUILDER_NODE
| FINALLY_NODE
| BUILDER_FINALLY_NODE.

Definition NodeType_eqb (a b : NodeType) : bool :=
  match a, b with
  | TASK_NODE, TASK_NODE
  | SPACER_NODE, SPACER_NODE
  | TASK_LIST_NODE, TASK_LIST_NODE
  | INVALID_TASK_LIST_NODE, INVALID_TASK_LIST_NODE
  | BUILDER_NODE, BUILDER_NODE
  | FINALLY_NODE, FINALLY_NODE
  | BUILDER_FINALLY_NODE, BUILDER_FINALLY_NODE => true
  | _, _ => false
  end.

(** A name without the character ['-']. *)
Definition hyphenFree (s : string) : Prop :=
  ~ In "-"%char (list_ascii_of_string s).

(** A name without the character ['|'], the separator of the grouping
    key. *)
Definition pipeFree (s : string) : Prop :=
  ~ In "|"%char (list_ascii_of_string s).

(** The constants of [const.ts]. *)
Class Const := {
  NODE_HEIGHT : Z;
  NODE_WIDTH : Z;
  FINALLY_NODE_PADDING : Z;
  FINALLY_NODE_VERTICAL_SPACING : Z;
}.

(** [String.prototype.localeCompare] of the host: negative, zero or
    positive. *)
Class Locale := {
  localeCompare : string -> string -> Z;
}.

Section Model.

(** The properties of task descriptors and node payloads that the
    transformation carries along without reading them (task references,
    parameters, run status, builder callbacks, error tags, ...). *)
Variable Extra : Type.

(** A pipeline run, an opaque read-only snapshot. *)
Variable PipelineRunKind : Type.

(** [PipelineTask] / [PipelineVisualizationTaskItem]: a task descriptor. *)
Record PipelineTask := {
  pt_name : string;
  pt_runAfter : option (list string);
  pt_rest : Extra;
}.

Record PipelineSpec := {
  tasks : list PipelineTask;
  finally : option (list PipelineTask);
}.

Record PipelineKind := {
  spec : option PipelineSpec;
  metadata : Extra;
}.

(** A finally task as displayed inside the aggregate node:
    [{...ft, disableTooltip}]. *)
Record FinallyTaskItem := {
  ft_task : PipelineTask;
  disableTooltip : bool;
}.

(** The [task] object of a node payload: a task descriptor, or the
    synthetic stand-in of a spacer or finally node.  Absent properties are
    [None], [false] or [[]]. *)
Record NodeTask := {
  name : string;
  runAfter : option (list string);
  isFinallyTask : bool;
  finallyTasks : list FinallyTaskItem;
  finallyListTasks : list PipelineTask;
  rest : option Extra;
}.

(** The [data] object of a node.  The properties that only the builder
    sets (callbacks, error, selection, task catalog) are gathered in
    [builder]. *)
Record NodeData := {
  task : NodeTask;
  pipeline : option PipelineKind;
  pipelineRun : option PipelineRunKind;
  dataIsFinallyTask : bool;
  builder : option Extra;
}.

(** [PipelineMixedNodeModel] *)
Record Node := {
  id : string;
  data : NodeData;
  height : Z;
  width : Z;
  type : NodeType;
}.

(** [PipelineEdgeModel] *)
Record Edge := {
  e_id : string;
  e_type : string;
  source : string;
  target : string;
}.

(** [PipelineBuilderTaskGroup], the part [useConnectFinally] reads. *)
Record PipelineBuilderTaskGroup := {
  tg_finallyTasks : list PipelineTask;
  tg_finallyListTasks : list PipelineTask;
}.

(** The helpers of [utils/pipeline-utils] the transformation calls. *)
Class PipelineUtils := {
  getPipelineTasks :
    PipelineKind -> option PipelineRunKind -> list (list PipelineTask);
  getFinallyTasksWithStatus :
    PipelineKind -> PipelineRunKind -> list PipelineTask;
}.

Context {C : Const} {L : Locale} {U : PipelineUtils}.

(** A task descriptor seen as the [task] of a node payload. *)
Definition taskOf (t : PipelineTask) : NodeTask :=
  {| name := pt_name t; runAfter := pt_runAfter t; isFinallyTask := false;
     finallyTasks := []; finallyListTasks := []; rest := Some (pt_rest t) |}.

(** [{ task: { name, runAfter } }] *)
Definition plainData (nm : string) (ra : option (list string)) : NodeData :=
  {| task := {| name := nm; runAfter := ra; isFinallyTask := false;
                finallyTasks := []; finallyListTasks := []; rest := None |};
     pipeline := None; pipelineRun := None; dataIsFinallyTask := false;
     builder := None |}.

(** [{ ...data, task: { ...task, runAfter } }] *)
Definition withRunAfter (d : NodeData) (ra : list string) : NodeData :=
  {| task := {| name := name (task d); runAfter := Some ra;
                isFinallyTask := isFinallyTask (task d);
                finallyTasks := finallyTasks (task d);
                finallyListTasks := finallyListTasks (task d);
                rest := rest (task d) |};
     pipeline := pipeline d; pipelineRun := pipelineRun d;
     dataIsFinallyTask := dataIsFinallyTask d; builder := builder d |}.

Definition nodeRunAfter (n : Node) : option (list string) :=
  runAfter (task (data n)).

(** *** Node creators *)

Definition NodeCreator := string -> NodeData -> Node.

Definition createGenericNode (ty : NodeType) (w h : option Z) : NodeCreator :=
  fun nm d =>
    {| id := nm; data := d; height := nullish h NODE_HEIGHT;
       width := nullish w NODE_WIDTH; type := ty |}.

Definition createTaskNode : NodeCreator :=
  createGenericNode TASK_NODE None None.
Definition createSpacerNode : NodeCreator :=
  createGenericNode SPACER_NODE (Some 0%Z) None.
Definition createTaskListNode : NodeCreator :=
  createGenericNode TASK_LIST_NODE None None.
Definition createInvalidTaskListNode : NodeCreator :=
  createGenericNode INVALID_TASK_LIST_NODE None None.
Definition createBuilderNode : NodeCreator :=
  createGenericNode BUILDER_NODE None None.

Definition createFinallyNode (h : Z) : NodeCreator :=
  createGenericNode FINALLY_NODE
    (Some (NODE_WIDTH + FINALLY_NODE_PADDING * 2)%Z) (Some h).
Definition createBuilderFinallyNode (h : Z) : NodeCreator :=
  createGenericNode BUILDER_FINALLY_NODE
    (Some (NODE_WIDTH + FINALLY_NODE_PADDING * 2)%Z) (Some h).

Definition getNodeCreator (ty : NodeType) : NodeCreator :=
  match ty with
  | TASK_LIST_NODE => createTaskListNode
  | BUILDER_NODE => createBuilderNode
  | SPACER_NODE => createSpacerNode
  | _ => createTaskNode
  end.

(** *** Parallel-to-parallel normalization *)

Record ParallelNodeReference := {
  node : Node;
  ref_runAfter : list string;
  atIndex : nat;
}.

(** [[...runAfter].sort((a, b) => a.localeCompare(b))
       .reduce((str, ref) => `${str}|${ref}`)].
    The reduce has no initial value; the empty branch is not reached, since
    the caller checks [runAfter.length > 1] and sorting keeps the length
    (lemma [sort_length]). *)
Definition runAfterKey (ra : list string) : string :=
  match sort localeCompare ra with
  | [] => ""
  | x :: l => fold_left (fun str ref => (str ++ "|" ++ ref)%string) l x
  end.

(** The callback of the reduce that collects the multiple run-afters. *)
Definition collect (acc : dict ParallelNodeReference) (n : Node) (idx : nat)
  : dict ParallelNodeReference :=
  match nodeRunAfter n with
  | Some ra =>
      if (1 <? List.length ra)%nat
      then push acc (runAfterKey ra)
                {| node := n; ref_runAfter := ra; atIndex := idx |}
      else acc
  | None => acc
  end.

Definition multipleRunBeforeMap (nodes : list Node) : dict ParallelNodeReference :=
  reduce collect [] nodes.

Definition multiParallelToParallelList (nodes : list Node)
  : list (list ParallelNodeReference) :=
  filter (fun d => (1 <? List.length d)%nat) (values (multipleRunBeforeMap nodes)).

Definition p2pNames (p2p : list ParallelNodeReference) : list string :=
  map (fun p2pData => id (node p2pData)) p2p.

Definition parallelSpacerName (p2p : list ParallelNodeReference) : string :=
  ("parallel-" ++ join "-" (p2pNames p2p))%string.

(** [const { runAfter } = p2p[0]]; every group of the list has more than
    one element (lemma [p2p_length]), so the empty branch is not reached. *)
Definition p2pRunAfter (p2p : list ParallelNodeReference) : list string :=
  match p2p with
  | r :: _ => ref_runAfter r
  | [] => []
  end.

(** The body of [multiParallelToParallelList.forEach]; the state is
    [(newNodes, newRunAfterNodeMap)]. *)
Definition insertSpacer (st : list Node * dict string)
           (p2p : list ParallelNodeReference) : list Node * dict string :=
  let runAfter := p2pRunAfter p2p in
  let names := p2pNames p2p in
  let parallelSpacerName := parallelSpacerName p2p in
  let newRunAfterNodeMap :=
    forEach (fun m p2pNodeId => push m p2pNodeId parallelSpacerName)
            names (snd st) in
  (fst st ++ [createSpacerNode parallelSpacerName
                (plainData parallelSpacerName (Some runAfter))],
   newRunAfterNodeMap).

(** What the second [nodes.forEach] pushes for one node.  The read
    [newRunAfterNodeMap[node.id]] is the one of the own keys ([get]); for a
    node outside every group whose id names a member of [Object.prototype]
    the source finds that member instead of [undefined], a case that is not
    represented: the properties that depend on this read are stated for
    node ids for which [inherited] is [false]. *)
Definition updateNode (newRunAfterNodeMap : dict string) (n : Node) : Node :=
  match get newRunAfterNodeMap (id n) with
  | Some newRunAfters =>
      if (0 <? List.length newRunAfters)%nat
      then getNodeCreator (type n) (id n) (withRunAfter (data n) newRunAfters)
      else n
  | None => n
  end.

Definition handleParallelToParallelNodes (nodes : list Node) : list Node :=
  let multiParallelToParallelList := multiParallelToParallelList nodes in
  if (List.length multiParallelToParallelList =? 0)%nat then nodes
  else
    let '(newNodes, newRunAfterNodeMap) :=
      forEach insertSpacer multiParallelToParallelList ([], []) in
    forEach (fun newNodes n => newNodes ++ [updateNode newRunAfterNodeMap n])
            nodes newNodes.

Definition tasksToNodes (taskList : list PipelineTask)
           (pipeline : option PipelineKind)
           (pipelineRun : option PipelineRunKind) : list Node :=
  let nodeList :=
    map (fun t =>
           createTaskNode (pt_name t)
             {| task := taskOf t; pipeline := pipeline;
                pipelineRun := pipelineRun; dataIsFinallyTask := false;
                builder := None |})
        taskList in
  handleParallelToParallelNodes nodeList.

(** *** Edge derivation *)

Definition getEdgesFromNodes (nodes : list Node) : list Edge :=
  filterTruthy
    (flattenNullable
       (map (fun n =>
               let target := name (task (data n)) in
               let runAfter := nullish (runAfter (task (data n))) [] in
               if (List.length runAfter =? 0)%nat then None
               else Some (map (fun source =>
                                 {| e_id := (source ++ "~to~" ++ target)%string;
                                    e_type := "edge";
                                    source := source;
                                    target := target |})
                              runAfter))
            nodes)).

(** *** Finally-task aggregation *)

Definition getFinallyTaskHeight (allTasksLength : Z) (disableBuilder : bool) : Z :=
  (allTasksLength * NODE_HEIGHT
   + (allTasksLength - 1) * FINALLY_NODE_VERTICAL_SPACING
   + (if negb disableBuilder then NODE_HEIGHT else 0)
   + FINALLY_NODE_PADDING * 2)%Z.

Definition getLastRegularTasks (regularTasks : list Node) : list string :=
  let runAfters :=
    uniq (reduce (fun acc n (_ : nat) =>
                    match nodeRunAfter n with
                    | Some ra => acc ++ ra
                    | None => acc
                    end)
                 [] regularTasks) in
  difference (map id regularTasks) runAfters.

(** [pipeline] is an optional parameter; [pipeline.spec] is read without a
    guard, [.spec?.finally] with one.  An array, even an empty one, is
    truthy. *)
Definition connectFinallyTasksToNodes (nodes : list Node)
           (pipeline : option PipelineKind)
           (pipelineRun : option PipelineRunKind) : result (list Node) :=
  match pipeline with
  | None => Threw TypeError
  | Some p =>
      match optChain (spec p) finally with
      | None => Returned nodes
      | Some specFinally =>
          let finallyTasks :=
            match pipelineRun with
            | Some run => getFinallyTasksWithStatus p run
            | None => specFinally
            end in
          let regularRunAfters := getLastRegularTasks nodes in
          let name := "finally-node" in
          let finallyGroupNode :=
            createFinallyNode
              (getFinallyTaskHeight (Z.of_nat (List.length finallyTasks)) true)
              name
              {| dataIsFinallyTask := true;
                 pipeline := pipeline;
                 pipelineRun := pipelineRun;
                 task := {| isFinallyTask := true;
                            name := name;
                            runAfter := Some regularRunAfters;
                            finallyTasks :=
                              map (fun ft => {| ft_task := ft;
                                                disableTooltip := false |})
                                  finallyTasks;
                            finallyListTasks := [];
                            rest := None |};
                 builder := None |} in
          Returned (nodes ++ [finallyGroupNode])
      end
  end.

Definition getTopologyNodesEdges (pipeline : PipelineKind)
           (pipelineRun : option PipelineRunKind)
  : result (list Node * list Edge) :=
  let taskList := flatten (getPipelineTasks pipeline pipelineRun) in
  let taskNodes := tasksToNodes taskList (Some pipeline) pipelineRun in
  bind (connectFinallyTasksToNodes taskNodes (Some pipeline) pipelineRun)
       (fun nodes =>
          let edges := getEdgesFromNodes nodes in
          Returned (nodes, edges)).

(** *** The finally node of the builder ([useConnectFinally]) *)

(** The node [useConnectFinally] returns.  [builderProps] stands for the
    properties built from the hook's other arguments (namespace, task
    catalog, callbacks); the per-task callbacks and error tags are not
    represented. *)
Definition useConnectFinally (builderProps : Extra) (nodes : list Node)
           (taskGroup : PipelineBuilderTaskGroup) : Node :=
  let allTasksLength :=
    (Z.of_nat (List.length (tg_finallyTasks taskGroup))
     + Z.of_nat (List.length (tg_finallyListTasks taskGroup)))%Z in
  let finallyNodeName :=
    ("finally-node-"
       ++ numberToString (List.length (tg_finallyTasks taskGroup)) ++ "-"
       ++ numberToString (List.length (tg_finallyListTasks taskGroup)))%string in
  let regularRunAfters := getLastRegularTasks nodes in
  createBuilderFinallyNode (getFinallyTaskHeight allTasksLength false)
    finallyNodeName
    {| dataIsFinallyTask := true;
       pipeline := None;
       pipelineRun := None;
       task := {| isFinallyTask := true;
                  name := finallyNodeName;
                  runAfter := Some regularRunAfters;
                  finallyTasks :=
                    map (fun ft => {| ft_task := ft; disableTooltip := true |})
                        (tg_finallyTasks taskGroup);
                  finallyListTasks := tg_finallyListTasks taskGroup;
                  rest := None |};
       builder := Some builderProps |}.

(** *** Notions used to state the properties *)

(** The grouping key of a node: defined when its [runAfter] has more than
    one element. *)
Definition keyOf (n : Node) : option string :=
  match nodeRunAfter n with
  | Some ra => if (1 <? List.length ra)%nat then Some (runAfterKey ra) else None
  | None => None
  end.

Definition hasKey (k : string) (n : Node) : bool :=
  match keyOf n with
  | Some k' => String.eqb k' k
  | None => false
  end.

(** The reference the reduce records for the node at index [idx]. *)
Definition refOf (n : Node) (idx : nat) : ParallelNodeReference :=
  {| node := n; ref_runAfter := nullish (nodeRunAfter n) []; atIndex := idx |}.

(** The references to the nodes of [l] with key [k], [l] starting at index
    [idx]. *)
Fixpoint refsOf (k : string) (l : list Node) (idx : nat)
  : list ParallelNodeReference :=
  match l with
  | [] => []
  | n :: l' =>
      if hasKey k n then refOf n idx :: refsOf k l' (S idx)
      else refsOf k l' (S idx)
  end.

(** The spacer node inserted for a group. *)
Definition spacerNode (p2p : list ParallelNodeReference) : Node :=
  createSpacerNode (parallelSpacerName p2p)
                   (plainData (parallelSpacerName p2p) (Some (p2pRunAfter p2p))).

(** A node recreated with a new [runAfter]. *)
Definition recreate (n : Node) (newRunAfters : list string) : Node :=
  getNodeCreator (type n) (id n) (withRunAfter (data n) newRunAfters).

(** [newRunAfterNodeMap] once the groups have been visited. *)
Definition newRunAfterNodeMap (groups : list (list ParallelNodeReference))
  : dict string :=
  snd (forEach insertSpacer groups ([], [])).

Definition isSpacer (n : Node) : bool := NodeType_eqb (type n) SPACER_NODE.

(** [n.data.task.runAfter] is the array [ra]. *)
Definition runsAfter (ra : list string) (n : Node) : bool :=
  match nodeRunAfter n with
  | Some ra' => if list_eq_dec string_dec ra' ra then true else false
  | None => false
  end.

(** The pipeline has a finally-task list and the list is empty. *)
Definition finally_is_empty (p : PipelineKind) : bool :=
  match optChain (spec p) finally with
  | Some [] => true
  | _ => false
  end.

(** The [nodeList] of [tasksToNodes]: the task nodes before the
    normalization. *)
Definition taskNodeList (taskList : list PipelineTask)
           (pipeline : option PipelineKind)
           (pipelineRun : option PipelineRunKind) : list Node :=
  map (fun t =>
         createTaskNode (pt_name t)
           {| task := taskOf t; pipeline := pipeline;
              pipelineRun := pipelineRun; dataIsFinallyTask := false;
              builder := None |})
      taskList.

(** The node kinds [getNodeCreator] has a case for. *)
Definition recreatedAsIs (ty : NodeType) : bool :=
  match ty with
  | TASK_NODE | TASK_LIST_NODE | BUILDER_NODE | SPACER_NODE => true
  | _ => false
  end.

(** What the ids and the edges of a graph are made of: the name and the
    [runAfter] of a task descriptor; the id, the kind, the task name and the
    [runAfter] of a node. *)
Definition taskShape (t : PipelineTask) : string * option (list string) :=
  (pt_name t, pt_runAfter t).

Definition nodeShape (n : Node)
  : string * NodeType * string * option (list string) :=
  (id n, type n, name (task (data n)), nodeRunAfter n).

(** The node reduced to its shape: payload and dimensions erased. *)
Definition strip (n : Node) : Node :=
  {| id := id n; data := plainData (name (task (data n))) (nodeRunAfter n);
     height := 0; width := 0; type := type n |}.

Definition stripRef (r : ParallelNodeReference) : ParallelNodeReference :=
  {| node := strip (node r); ref_runAfter := ref_runAfter r;
     atIndex := atIndex r |}.

(** A node with the dimensions its creator gives it. *)
Definition defaultSized (n : Node) : Prop :=
  height n = NODE_HEIGHT
  /\ width n = match type n with SPACER_NODE => 0%Z | _ => NODE_WIDTH end.

End Model.

Arguments plainData {Extra PipelineRunKind} nm ra.
Arguments collect {Extra PipelineRunKind L} acc n idx.
Arguments insertSpacer {Extra PipelineRunKind C} st p2p.
Arguments spacerNode {Extra PipelineRunKind C} p2p.
Arguments updateNode {Extra PipelineRunKind C} newRunAfterNodeMap n.
Arguments parallelSpacerName {Extra PipelineRunKind} p2p.
Arguments hasKey {Extra PipelineRunKind L} k n.
Arguments id {Extra PipelineRunKind} n.
Arguments node {Extra PipelineRunKind} p.
Arguments isSpacer {Extra PipelineRunKind} n.
Arguments runsAfter {Extra PipelineRunKind} ra n.
Arguments keyOf {Extra PipelineRunKind L} n.
Arguments finally {Extra} p.
Arguments taskShape {Extra} t.
Arguments nodeShape {Extra PipelineRunKind} n.
Arguments strip {Extra PipelineRunKind} n.
Arguments stripRef {Extra PipelineRunKind} r.

(** ** Sample environment and inputs

    Concrete values used to evaluate the transformation: the constants, a
    comparison that orders strings by code point (it agrees with
    [localeCompare] on the lower-case names used below), and stand-ins for
    the task extraction helpers. *)

Definition sampleConst : Const :=
  {| NODE_HEIGHT := 30; NODE_WIDTH := 120;
     FINALLY_NODE_PADDING := 30; FINALLY_NODE_VERTICAL_SPACING := 20 |}.

Definition codePointLocale : Locale :=
  {| localeCompare := fun a b =>
       match String.compare a b with
       | Lt => (-1)%Z
       | Eq => 0%Z
       | Gt => 1%Z
       end |}.

(** One stage holding the declared tasks; the finally tasks as declared. *)
Definition sampleUtils : @PipelineUtils unit unit :=
  {| getPipelineTasks := fun p _ =>
       match spec p with
       | Some s => [tasks s]
       | None => []
       end;
     getFinallyTasksWithStatus := fun p _ => nullish (optChain (spec p) finally) [] |}.

Definition sampleTask (nm : string) (ra : option (list string)) : PipelineTask unit :=
  {| pt_name := nm; pt_runAfter := ra; pt_rest := tt |}.

Definition samplePipeline (ts : list (PipelineTask unit))
           (fin : option (list (PipelineTask unit))) : PipelineKind unit :=
  {| spec := Some {| tasks := ts; finally := fin |}; metadata := tt |}.

(** A node of the given kind, as its creator builds it. *)
Definition sampleNode (ty : NodeType) (nm : string) (ra : option (list string))
  : Node unit unit :=
  @createGenericNode unit unit sampleConst ty None None nm
    {| task := taskOf (sampleTask nm ra); pipeline := None; pipelineRun := None;
       dataIsFinallyTask := false; builder := None |}.

Definition taskX := sampleNode TASK_NODE "x" None.
Definition taskY := sampleNode TASK_NODE "y" None.
Definition taskA := sampleNode TASK_NODE "a" (Some ["x"; "y"]).
Definition taskB := sampleNode TASK_NODE "b" (Some ["x"; "y"]).
Definition taskC := sampleNode TASK_NODE "c" (Some ["x"]).

(** [b] with its two predecessors in the other order. *)
Definition taskBSwapped := sampleNode TASK_NODE "b" (Some ["y"; "x"]).

(** Two placeholders of the builder for unresolved task references. *)
Definition invalidA := sampleNode INVALID_TASK_LIST_NODE "a" (Some ["x"; "y"]).
Definition invalidB := sampleNode INVALID_TASK_LIST_NODE "b" (Some ["x"; "y"]).

Definition sampleTasks : list (PipelineTask unit) :=
  [ sampleTask "x" None; sampleTask "y" None;
    sampleTask "a" (Some ["x"; "y"]); sampleTask "b" (Some ["x"; "y"]);
    sampleTask "c" (Some ["x"]) ].

Definition cleanup := sampleTask "cleanup" None.

Definition pipelineWithFinally := samplePipeline sampleTasks (Some [cleanup]).
Definition pipelineWithoutFinally := samplePipeline sampleTasks None.
Definition pipelineEmptyFinally := samplePipeline sampleTasks (Some []).

(** The sample tasks with two finally tasks. *)
Definition pipelineTwoFinally :=
  samplePipeline sampleTasks (Some [cleanup; sampleTask "notify" None]).

(** A pipeline with a task that bears the name of the aggregate node. *)
Definition pipelineClash :=
  samplePipeline [sampleTask "finally-node" None] (Some [cleanup]).

(** A pipeline whose two groups, [a, b-c] and [a-b, c], join to the same
    spacer name. *)
Definition pipelineSpacerClash :=
  samplePipeline
    [ sampleTask "x" None; sampleTask "y" None; sampleTask "z" None;
      sampleTask "a" (Some ["x"; "y"]); sampleTask "b-c" (Some ["x"; "y"]);
      sampleTask "a-b" (Some ["x"; "z"]); sampleTask "c" (Some ["x"; "z"]) ]
    None.

(** A pipeline with a task that bears the name of the spacer of [a] and
    [b]. *)
Definition pipelineTaskSpacerClash :=
  samplePipeline
    [ sampleTask "x" None; sampleTask "y" None;
      sampleTask "a" (Some ["x"; "y"]); sampleTask "b" (Some ["x"; "y"]);
      sampleTask "parallel-a-b" None ]
    None.

(** ** The pipeline builder hooks

    [useTasks], [useNodes] (with [tasksToBuilderNodes] of [utils.ts]) and the
    effect of [useResourceValidation].  A hook is embedded as the function
    from what it reads (the watched resources, the task group, the previous
    error ids) to what it returns or emits. *)

Module JsObject.

(** A plain object used as a dictionary: its own properties, in the order
    of their insertion. *)
Definition object (V : Type) := list (string * V).

(** The own property [k] of [o], [None] when [o] has no such own property:
    the read [o[k]] for an own key [k] and for every [k] for which
    [inherited] is [false]. *)
Fixpoint prop {V} (o : object V) (k : string) : option V :=
  match o with
  | [] => None
  | (k', v) :: o' => if String.eqb k k' then Some v else prop o' k
  end.

(** [{ ...o, [k]: v }]: an existing key keeps its place. *)
Fixpoint set {V} (o : object V) (k : string) (v : V) : object V :=
  match o with
  | [] => [(k, v)]
  | (k', v') :: o' =>
      if String.eqb k k' then (k', v) :: o' else (k', v') :: set o' k v
  end.

(** [!!x] for [x] an object, [null] or [undefined]. *)
Definition defined {A} (x : option A) : bool :=
  match x with
  | Some _ => true
  | None => false
  end.

(** The array index a property key denotes, if any: the key is then the
    canonical decimal numeral of an integer from [0] to [2^32 - 2]. *)
Definition arrayIndex (k : string) : option N :=
  match NilEmpty.uint_of_string k with
  | Some u =>
      let n := N.of_uint u in
      if String.eqb (NilEmpty.string_of_uint (N.to_uint n)) k
         && (n <=? 4294967294)%N
      then Some n
      else None
  | None => None
  end.

Definition isArrayIndex (k : string) : bool := defined (arrayIndex k).

(** The order of two keys by the index they denote. *)
Definition compareIndex (a b : string) : Z :=
  (Z.of_N (nullish (arrayIndex a) 0%N) - Z.of_N (nullish (arrayIndex b) 0%N))%Z.

(** [Object.keys]: the own keys that are array indices, in ascending order
    of the index, followed by the other own keys in the order of their
    insertion. *)
Definition keys {V} (o : object V) : list string :=
  sort compareIndex (filter isArrayIndex (map fst o))
  ++ filter (fun k => negb (isArrayIndex k)) (map fst o).

(** [_.isEmpty] *)
Definition isEmpty {V} (o : object V) : bool :=
  match o with
  | [] => true
  | _ => false
  end.

End JsObject.

Import JsObject.

(** The constants the hooks import: the kind of [ClusterTaskModel] and the
    two members of [TaskErrorType] the validation uses. *)
Class BuilderConst := {
  ClusterTaskModel_kind : string;
  TaskErrorType : Type;
  MISSING_RESOURCES : TaskErrorType;
  MISSING_WORKSPACES : TaskErrorType;
}.

(** [PipelineTaskRef] *)
Record PipelineTaskRef := {
  ref_kind : option string;
  ref_name : string;
}.

(** [TaskKind], of which the hooks read [metadata.name]. *)
Record TaskKind := {
  tk_name : string;
}.

(** An entry of [task.resources.inputs] or [.outputs]. *)
Record PipelineTaskResource := {
  res_name : string;
  res_resource : string;
}.

Record PipelineTaskResources := {
  inputs : option (list PipelineTaskResource);
  outputs : option (list PipelineTaskResource);
}.

(** An entry of [task.workspaces]. *)
Record PipelineTaskWorkspace := {
  ws_name : string;
  ws_workspace : string;
}.

(** [TektonResource] and [PipelineWorkspace], of which the validation reads
    [name]. *)
Record TektonResource := {
  tr_name : string;
}.

Record PipelineWorkspace := {
  pw_name : string;
}.

(** The properties the builder adds to the data model: the further
    properties of a [PipelineTask], and the payloads of the builder's nodes.
    The callbacks of the payloads are closures over the hook's arguments and
    are not represented; [removable] is [false] when [onRemoveTask] is
    [null]. *)
Inductive BuilderExtra :=
| TaskProps (taskRef : option PipelineTaskRef)
            (resources : option PipelineTaskResources)
            (workspaces : option (list PipelineTaskWorkspace))
| BuilderNodeProps (error : option string) (selected : bool)
| TaskListNodeProps (namespaceTaskList clusterTaskList : option (list TaskKind))
                    (removable : bool)
| FinallyNodeProps (namespace : string)
                   (namespaceTaskList clusterTaskList : option (list TaskKind)).

Definition taskRef (t : PipelineTask BuilderExtra) : option PipelineTaskRef :=
  match pt_rest t with
  | TaskProps r _ _ => r
  | _ => None
  end.

Definition taskResources (t : PipelineTask BuilderExtra) : option PipelineTaskResources :=
  match pt_rest t with
  | TaskProps _ r _ => r
  | _ => None
  end.

Definition taskWorkspaces (t : PipelineTask BuilderExtra)
  : option (list PipelineTaskWorkspace) :=
  match pt_rest t with
  | TaskProps _ _ w => w
  | _ => None
  end.

(** What [useK8sWatchResources] returns for one resource; [wl_loadError] is
    [None] when [loadError] is falsy. *)
Record WatchedList := {
  wl_data : list TaskKind;
  wl_loaded : bool;
  wl_loadError : option string;
}.

Record UseTasks := {
  namespacedTasks : option (list TaskKind);
  clusterTasks : option (list TaskKind);
  errorMsg : option string;
}.

(** [PipelineBuilderListTask] *)
Record PipelineBuilderListTask := {
  lt_name : string;
  lt_runAfter : option (list string);
}.

(** [PipelineBuilderTaskGroup], whole: the part [useConnectFinally] reads
    is [tg_finally]. *)
Record TaskGroup := {
  tg_tasks : list (PipelineTask BuilderExtra);
  tg_listTasks : list PipelineBuilderListTask;
  tg_highlightedIds : list string;
  tg_finally : PipelineBuilderTaskGroup BuilderExtra;
}.

Record UseNodes := {
  un_nodes : list (Node BuilderExtra unit);
  tasksCount : nat;
  tasksLoaded : bool;
  loadingTasksError : option string;
}.

(** What one run of the effect of [useResourceValidation] does: the
    argument of [onError] when it is called, and [previousErrorIds]
    afterwards. *)
Record ValidationEffect (E : Type) := {
  onErrorCall : option (object (option (list E)));
  newPreviousErrorIds : list string;
}.

Section Builder.

Context {C : Const} {L : Locale} {B : BuilderConst}.

Local Abbreviation Node := (Node BuilderExtra unit).
Local Abbreviation PipelineTask := (PipelineTask BuilderExtra).

(** [TaskErrorMap]: the errors of a task name, or [null]. *)
Definition TaskErrorMap := object (option (list TaskErrorType)).

(** The object has an own property [k] that holds an array of errors. *)
Definition hasErrors (o : TaskErrorMap) (k : string) : bool :=
  match prop o k with
  | Some (Some _) => true
  | _ => false
  end.

(** [!!o[k]]: an own array is truthy, an own [null] is not; without an own
    property [k] the read finds the member of that name inherited from
    [Object.prototype], which is truthy, or [undefined]. *)
Definition truthy (o : TaskErrorMap) (k : string) : bool :=
  match prop o k with
  | Some (Some _) => true
  | Some None => false
  | None => inherited k
  end.

(** Every value of the map is an array. *)
Definition tagged (errors : TaskErrorMap) : Prop :=
  forall k v, In (k, v) errors -> exists taskErrors, v = Some taskErrors.

(** [useTasks]; [t] is the translation function, applied to a message key
    and the value interpolated in it. *)
Definition useTasks (t : string -> string -> string)
           (tasks clusterTasks : WatchedList) : UseTasks :=
  let errorMsg : option string := None in
  let errorMsg :=
    match wl_loadError tasks with
    | Some tasksLoadError =>
        Some (t "pipelines-plugin~Failed to load namespace Tasks. {{tasksLoadError}}"
                tasksLoadError)
    | None => errorMsg
    end in
  let errorMsg :=
    match wl_loadError clusterTasks with
    | Some clusterTasksLoadError =>
        Some (t "pipelines-plugin~Failed to load ClusterTasks. {{clusterTasksLoadError}}"
                clusterTasksLoadError)
    | None => errorMsg
    end in
  {| namespacedTasks :=
       if wl_loaded tasks && negb (defined (wl_loadError tasks))
       then Some (wl_data tasks) else None;
     clusterTasks :=
       if wl_loaded clusterTasks && negb (defined (wl_loadError clusterTasks))
       then Some (wl_data clusterTasks) else None;
     errorMsg := errorMsg |}.

(** [getTask]: the task a reference resolves to in the catalog. *)
Definition getTask (namespacedTasks clusterTasks : option (list TaskKind))
           (taskRef : option PipelineTaskRef) : option TaskKind :=
  let named (task : TaskKind) :=
    match taskRef with
    | Some r => String.eqb (tk_name task) (ref_name r)
    | None => false
    end in
  if match optChain taskRef ref_kind with
     | Some k => String.eqb k ClusterTaskModel_kind
     | None => false
     end
  then match clusterTasks with
       | Some l => find named l
       | None => None
       end
  else match namespacedTasks with
       | Some l => find named l
       | None => None
       end.

(** [tasksToBuilderNodes] of [utils.ts]. *)
Definition tasksToBuilderNodes (taskList : list PipelineTask)
           (getError : string -> option string) (selectedIds : list string)
  : list Node :=
  map (fun task =>
         createBuilderNode (pt_name task)
           {| task := taskOf task; pipeline := None; pipelineRun := None;
              dataIsFinallyTask := false;
              builder := Some (BuilderNodeProps (getError (pt_name task))
                                                (includes (pt_name task) selectedIds)) |})
      taskList.

(** [newListNode]; [runAfter || []]. *)
Definition newListNode (namespacedTasks clusterTasks : option (list TaskKind))
           (nm : string) (ra : option (list string)) (firstTask : bool) : Node :=
  createTaskListNode nm
    {| task := {| name := nm; runAfter := Some (nullish ra []);
                  isFinallyTask := false; finallyTasks := [];
                  finallyListTasks := []; rest := None |};
       pipeline := None; pipelineRun := None; dataIsFinallyTask := false;
       builder := Some (TaskListNodeProps namespacedTasks clusterTasks
                                          (negb firstTask)) |}.

(** [soloTask]; the name defaults to ['initial-node']. *)
Definition soloTask (namespacedTasks clusterTasks : option (list TaskKind))
           (nm : option string) : Node :=
  newListNode namespacedTasks clusterTasks (nullish nm "initial-node") None true.

Definition newInvalidListNode (namespacedTasks clusterTasks : option (list TaskKind))
           (nm : string) (ra : option (list string)) : Node :=
  createInvalidTaskListNode nm
    {| task := {| name := nm; runAfter := Some (nullish ra []);
                  isFinallyTask := false; finallyTasks := [];
                  finallyListTasks := []; rest := None |};
       pipeline := None; pipelineRun := None; dataIsFinallyTask := false;
       builder := Some (TaskListNodeProps namespacedTasks clusterTasks true) |}.

(** [!!getTask(task.taskRef)] *)
Definition resolves (namespacedTasks clusterTasks : option (list TaskKind))
           (task : PipelineTask) : bool :=
  defined (getTask namespacedTasks clusterTasks (taskRef task)).

(** The list [useNodes] passes to [handleParallelToParallelNodes]:
    [[...taskNodes, ...taskListNodes, ...invalidTaskListNodes]]. *)
Definition builderNodeList (namespacedTasks clusterTasks : option (list TaskKind))
           (getError : string -> option string) (taskGroup : TaskGroup) : list Node :=
  let invalidTaskList :=
    filter (fun task => negb (resolves namespacedTasks clusterTasks task))
           (tg_tasks taskGroup) in
  let validTaskList :=
    filter (resolves namespacedTasks clusterTasks) (tg_tasks taskGroup) in
  let invalidTaskListNodes :=
    map (fun task =>
           newInvalidListNode namespacedTasks clusterTasks (pt_name task)
                              (pt_runAfter task))
        invalidTaskList in
  let taskNodes :=
    if (0 <? List.length validTaskList)%nat
    then tasksToBuilderNodes validTaskList getError (tg_highlightedIds taskGroup)
    else [] in
  let taskListNodes :=
    if (List.length (tg_tasks taskGroup) =? 0)%nat
       && (List.length (tg_listTasks taskGroup) <=? 1)%nat
    then [soloTask namespacedTasks clusterTasks
                   (option_map lt_name (List.hd_error (tg_listTasks taskGroup)))]
    else map (fun listTask =>
                newListNode namespacedTasks clusterTasks (lt_name listTask)
                            (lt_runAfter listTask) false)
             (tg_listTasks taskGroup) in
  taskNodes ++ taskListNodes ++ invalidTaskListNodes.

(** [useNodes]; [getError] is [getErrorMessage(nodeTaskErrors, tasksInError)]. *)
Definition useNodes (t : string -> string -> string)
           (watchedTasks watchedClusterTasks : WatchedList)
           (namespace : string) (getError : string -> option string)
           (taskGroup : TaskGroup) : UseNodes :=
  let loaded := useTasks t watchedTasks watchedClusterTasks in
  let nodes :=
    handleParallelToParallelNodes
      (builderNodeList (namespacedTasks loaded) (clusterTasks loaded)
                       getError taskGroup) in
  let localTaskCount :=
    match namespacedTasks loaded with
    | Some l => List.length l
    | None => 0
    end in
  let clusterTaskCount :=
    match clusterTasks loaded with
    | Some l => List.length l
    | None => 0
    end in
  let finallyNode :=
    useConnectFinally
      (FinallyNodeProps namespace (namespacedTasks loaded) (clusterTasks loaded))
      nodes (tg_finally taskGroup) in
  {| tasksCount := localTaskCount + clusterTaskCount;
     tasksLoaded := defined (namespacedTasks loaded)
                    && defined (clusterTasks loaded);
     loadingTasksError := errorMsg loaded;
     un_nodes := nodes ++ [finallyNode] |}.

(** *** [useResourceValidation] *)

(** [[...output, ...input].filter((r) => !resourceNames.includes(r.resource))] *)
Definition missingResources (resourceNames : list string) (task : PipelineTask)
  : list PipelineTaskResource :=
  let output := nullish (optChain (taskResources task) outputs) [] in
  let input := nullish (optChain (taskResources task) inputs) [] in
  filter (fun r => negb (includes (res_resource r) resourceNames)) (output ++ input).

(** [task.workspaces?.filter((w) => !workspaceNames.includes(w.workspace)) || []] *)
Definition missingWorkspaces (workspaceNames : list string) (task : PipelineTask)
  : list PipelineTaskWorkspace :=
  match taskWorkspaces task with
  | Some ws => filter (fun w => negb (includes (ws_workspace w) workspaceNames)) ws
  | None => []
  end.

(** The task names, among its output and input resources, one that is not
    an available resource, or binds a workspace that is not an available
    workspace. *)
Definition refersToMissing (resourceValues : list TektonResource)
           (workspaceValues : list PipelineWorkspace) (task : PipelineTask) : Prop :=
  (exists r,
      In r (nullish (optChain (taskResources task) outputs) []
            ++ nullish (optChain (taskResources task) inputs) [])
      /\ ~ In (res_resource r) (map tr_name resourceValues))
  \/ (exists ws w,
         taskWorkspaces task = Some ws /\ In w ws
         /\ ~ In (ws_workspace w) (map pw_name workspaceValues)).

(** The callback of the reduce over [[...tasks, ...finallyTasks]]. *)
Definition collectErrors (resourceValues : list TektonResource)
           (workspaceValues : list PipelineWorkspace)
           (acc : TaskErrorMap) (task : PipelineTask) (_ : nat) : TaskErrorMap :=
  let resourceNames := map tr_name resourceValues in
  let workspaceNames := map pw_name workspaceValues in
  let missingResources := missingResources resourceNames task in
  let missingWorkspaces := missingWorkspaces workspaceNames task in
  if (List.length missingResources =? 0)%nat
     && (List.length missingWorkspaces =? 0)%nat
  then acc
  else
    let taskErrors :=
      (if (0 <? List.length missingResources)%nat then [MISSING_RESOURCES] else [])
      ++ (if (0 <? List.length missingWorkspaces)%nat then [MISSING_WORKSPACES] else []) in
    set acc (pt_name task) (Some taskErrors).

(** The [errors] of the effect. *)
Definition validationErrors (finallyTasks tasks : list PipelineTask)
           (resourceValues : list TektonResource)
           (workspaceValues : list PipelineWorkspace) : TaskErrorMap :=
  reduce (collectErrors resourceValues workspaceValues) [] (tasks ++ finallyTasks).

(** The body of the effect of [useResourceValidation]. *)
Definition resourceValidationEffect (finallyTasks tasks : list PipelineTask)
           (resourceValues : list TektonResource)
           (workspaceValues : list PipelineWorkspace)
           (previousErrorIds : list string) : ValidationEffect TaskErrorType :=
  let errors := validationErrors finallyTasks tasks resourceValues workspaceValues in
  if negb (isEmpty errors) || (0 <? List.length previousErrorIds)%nat
  then
    let outputErrors :=
      reduce (fun acc id (_ : nat) => if truthy acc id then acc else set acc id None)
             errors previousErrorIds in
    let currentErrorIds :=
      filter (fun id => truthy outputErrors id) (keys outputErrors) in
    {| onErrorCall := Some outputErrors;
       newPreviousErrorIds :=
         if list_eq_dec string_dec currentErrorIds previousErrorIds
         then previousErrorIds else currentErrorIds |}
  else {| onErrorCall := None; newPreviousErrorIds := previousErrorIds |}.

End Builder.

(** *** Sample inputs of the builder *)

Definition sampleBuilderConst : BuilderConst :=
  {| ClusterTaskModel_kind := "ClusterTask";
     TaskErrorType := string;
     MISSING_RESOURCES := "missingResources";
     MISSING_WORKSPACES := "missingWorkspaces" |}.

(** A catalog with two namespaced tasks, loaded. *)
Definition sampleWatchedTasks : WatchedList :=
  {| wl_data := [ {| tk_name := "git-clone" |}; {| tk_name := "buildah" |} ];
     wl_loaded := true; wl_loadError := None |}.

Definition sampleWatchedClusterTasks : WatchedList :=
  {| wl_data := [ {| tk_name := "kn" |} ]; wl_loaded := true; wl_loadError := None |}.

(** The translation replaced by the message key followed by the value. *)
Definition sampleTranslate (key value : string) : string :=
  (key ++ " " ++ value)%string.

(** A group without task, whose only list task declares a predecessor. *)
Definition sampleEmptyGroup : TaskGroup :=
  {| tg_tasks := [];
     tg_listTasks := [ {| lt_name := "list-1"; lt_runAfter := Some ["x"] |} ];
     tg_highlightedIds := [];
     tg_finally := {| tg_finallyTasks := []; tg_finallyListTasks := [] |} |}.

Ltac names_without_pipe :=
  intros; simpl in *;
  repeat match goal with
         | H : _ \/ _ |- _ => destruct H
         | H : False |- _ => destruct H
         end;
  subst; simpl in *;
  repeat match goal with
         | H : _ \/ _ |- _ => destruct H
         | H : False |- _ => destruct H
         end;
  subst; unfold pipeFree; simpl; intuition discriminate.

Ltac distinct_strings :=
  repeat constructor; simpl; intuition discriminate.

(** ** Facts about the JavaScript operations *)

Module JsFacts.

Lemma includes_In (x : string) (l : list string) :
  includes x l = true <-> In x l.
Proof.
  unfold includes. rewrite existsb_exists. split.
  - intros [y [Hy Heq]]. apply String.eqb_eq in Heq. now subst.
  - intros H. exists x. split; [assumption | apply String.eqb_refl].
Qed.

Lemma includes_false (x : string) (l : list string) :
  includes x l = false <-> ~ In x l.
Proof.
  rewrite <- includes_In. destruct (includes x l); split; congruence.
Qed.

Lemma uniqFrom_In (l seen : list string) (x : string) :
  In x (uniqFrom seen l) <-> In x l /\ ~ In x seen.
Proof.
  revert seen. induction l as [|y l IH]; intros seen; simpl.
  - tauto.
  - destruct (includes y seen) eqn:E.
    + apply includes_In in E. rewrite IH. split.
      * intros [H1 H2]. auto.
      * intros [[->|H1] H2]; [contradiction | auto].
    + apply includes_false in E. simpl. rewrite IH. simpl. split.
      * intros [->|[H1 H2]]; [auto | split; [auto | tauto]].
      * intros [[->|H1] H2]; [auto |].
        destruct (string_dec y x) as [->|Hne]; [auto | right].
        split; [assumption | intros [?|?]; contradiction].
Qed.

Lemma uniq_In (l : list string) (x : string) : In x (uniq l) <-> In x l.
Proof. unfold uniq. rewrite uniqFrom_In. simpl. tauto. Qed.

Lemma uniqFrom_NoDup (l seen : list string) : NoDup (uniqFrom seen l).
Proof.
  revert seen. induction l as [|y l IH]; intros seen; simpl.
  - constructor.
  - destruct (includes y seen); [apply IH |].
    constructor; [| apply IH].
    rewrite uniqFrom_In. simpl. tauto.
Qed.

Lemma difference_In (a v : list string) (x : string) :
  In x (difference a v) <-> In x a /\ ~ In x v.
Proof.
  unfold difference. rewrite filter_In, negb_true_iff, includes_false. tauto.
Qed.

Lemma difference_NoDup (a v : list string) : NoDup a -> NoDup (difference a v).
Proof. apply NoDup_filter. Qed.

Lemma filterTruthy_app {A} (xs : list A) (l : list (option A)) :
  filterTruthy (map Some xs ++ l) = xs ++ filterTruthy l.
Proof. induction xs as [|x xs IH]; simpl; [reflexivity | now rewrite IH]. Qed.

Lemma reduceFrom_ignore_index {A B} (f : B -> A -> B) (l : list A) (i : nat) (acc : B) :
  reduceFrom (fun b a (_ : nat) => f b a) l i acc = fold_left f l acc.
Proof.
  revert i acc. induction l as [|x l IH]; intros i acc; simpl;
    [reflexivity | apply IH].
Qed.

Lemma forEach_push {A B} (f : A -> B) (l : list A) (acc : list B) :
  forEach (fun out x => out ++ [f x]) l acc = acc ++ map f l.
Proof.
  unfold forEach. revert acc. induction l as [|x l IH]; intros acc; simpl.
  - now rewrite app_nil_r.
  - rewrite IH, <- app_assoc. reflexivity.
Qed.

Lemma sort_insert_length {A} (cmp : A -> A -> Z) (x : A) (l : list A) :
  List.length (insert cmp x l) = S (List.length l).
Proof.
  induction l as [|y l IH]; simpl; [reflexivity |].
  destruct (cmp x y <=? 0)%Z; simpl; [reflexivity | now rewrite IH].
Qed.

(** Sorting keeps the length of the array. *)
Lemma sort_length {A} (cmp : A -> A -> Z) (l : list A) :
  List.length (sort cmp l) = List.length l.
Proof.
  induction l as [|x l IH]; simpl; [reflexivity |].
  now rewrite sort_insert_length, IH.
Qed.

Lemma lookup_push_eq {V} (m : dict V) (k : string) (v : V) :
  lookup (push m k v) k = lookup m k ++ [v].
Proof.
  unfold lookup. induction m as [|[k' vs] m IH]; simpl.
  - now rewrite String.eqb_refl.
  - destruct (String.eqb k k') eqn:E; simpl; rewrite E; [reflexivity | exact IH].
Qed.

Lemma get_push_neq {V} (m : dict V) (k k' : string) (v : V) :
  k' <> k -> get (push m k v) k' = get m k'.
Proof.
  intros Hne. induction m as [|[k0 vs] m IH]; simpl.
  - apply String.eqb_neq in Hne. now rewrite Hne.
  - destruct (String.eqb k k0) eqn:E; simpl.
    + apply String.eqb_eq in E. subst k0.
      apply String.eqb_neq in Hne. now rewrite Hne.
    + now rewrite IH.
Qed.

Lemma lookup_push_neq {V} (m : dict V) (k k' : string) (v : V) :
  k' <> k -> lookup (push m k v) k' = lookup m k'.
Proof. intros H. unfold lookup. now rewrite get_push_neq. Qed.

Lemma keys_push {V} (m : dict V) (k : string) (v : V) :
  map fst (push m k v)
  = if includes k (map fst m) then map fst m else map fst m ++ [k].
Proof.
  induction m as [|[k' vs] m IH]; simpl; [reflexivity |].
  unfold includes in *. simpl.
  destruct (String.eqb k k') eqn:E; simpl; [reflexivity |].
  rewrite IH. now destruct (existsb (String.eqb k) (map fst m)).
Qed.

Lemma keys_push_NoDup {V} (m : dict V) (k : string) (v : V) :
  NoDup (map fst m) -> NoDup (map fst (push m k v)).
Proof.
  intros H. rewrite keys_push. destruct (includes k (map fst m)) eqn:E.
  - assumption.
  - apply includes_false in E. apply NoDup_app; [assumption | repeat constructor; auto |].
    intros x Hx [<-|[]]. contradiction.
Qed.

Lemma get_In {V} (m : dict V) (k : string) (vs : list V) :
  get m k = Some vs -> In (k, vs) m.
Proof.
  induction m as [|[k' vs'] m IH]; simpl; [discriminate |].
  destruct (String.eqb k k') eqn:E.
  - apply String.eqb_eq in E. intros [= ->]. subst. now left.
  - intros H. right. auto.
Qed.

Lemma In_get {V} (m : dict V) (k : string) (vs : list V) :
  NoDup (map fst m) -> In (k, vs) m -> get m k = Some vs.
Proof.
  induction m as [|[k' vs'] m IH]; simpl; [contradiction |].
  intros Hnd [Heq|Hin].
  - injection Heq as -> ->. now rewrite String.eqb_refl.
  - inversion Hnd as [|? ? Hk Hnd']; subst.
    destruct (String.eqb k k') eqn:E.
    + apply String.eqb_eq in E. subst k'. exfalso. apply Hk.
      change k with (fst (k, vs)). now apply in_map.
    + auto.
Qed.

Lemma reduceFrom_app {A B} (f : B -> A -> nat -> B) (l1 l2 : list A) (i : nat) (acc : B) :
  reduceFrom f (l1 ++ l2) i acc
  = reduceFrom f l2 (i + List.length l1) (reduceFrom f l1 i acc).
Proof.
  revert i acc. induction l1 as [|x l1 IH]; intros i acc; simpl.
  - now rewrite Nat.add_0_r.
  - rewrite IH. f_equal. lia.
Qed.

Lemma NoDup_app_disjoint {A} (l1 l2 : list A) :
  NoDup (l1 ++ l2) -> forall a, In a l1 -> In a l2 -> False.
Proof.
  induction l1 as [|x l1 IH]; simpl; intros H a Ha Hb; [contradiction |].
  inversion H as [|? ? Hx Hnd]; subst. destruct Ha as [->|Ha].
  - apply Hx. apply in_or_app. now right.
  - now apply (IH Hnd a).
Qed.

Lemma flat_map_nil {A B} (f : A -> list B) (l : list A) :
  (forall z, In z l -> f z = []) -> flat_map f l = [].
Proof.
  induction l as [|a l IH]; simpl; [reflexivity |].
  intros H. rewrite (H a) by now left. simpl. apply IH. auto.
Qed.

(** Exactly one element of a duplicate-free list contributes. *)
Lemma flat_map_single {A B} (f : A -> list B) (l : list A) (x : A) (ys : list B) :
  NoDup l -> In x l -> f x = ys ->
  (forall z, In z l -> z <> x -> f z = []) ->
  flat_map f l = ys.
Proof.
  induction l as [|a l IH]; simpl; [contradiction |].
  intros Hnd Hin Hx Hz. inversion Hnd as [|? ? Ha Hnd']; subst.
  destruct Hin as [->|Hin].
  - rewrite flat_map_nil; [apply app_nil_r |].
    intros z Hin. apply Hz; [now right |]. intros ->. contradiction.
  - rewrite (Hz a); [| now left | intros ->; contradiction].
    simpl. apply IH; auto.
Qed.

Lemma hyphenFree_cons (c : ascii) (s : string) :
  hyphenFree (String c s) <-> c <> "-"%char /\ hyphenFree s.
Proof. unfold hyphenFree. simpl. tauto. Qed.

Lemma hyphen_append_not_free (b r : string) :
  ~ hyphenFree (b ++ String "-" r).
Proof.
  induction b as [|c b IH]; simpl.
  - intros H. apply H. now left.
  - rewrite hyphenFree_cons. tauto.
Qed.

Lemma append_hyphen_inj (a b r1 r2 : string) :
  hyphenFree a -> hyphenFree b ->
  (a ++ String "-" r1 = b ++ String "-" r2)%string ->
  a = b /\ r1 = r2.
Proof.
  revert b. induction a as [|c a IH]; intros [|d b] Ha Hb H; simpl in H.
  - injection H as ->. auto.
  - injection H as <- _. apply hyphenFree_cons in Hb. now destruct Hb.
  - injection H as -> _. apply hyphenFree_cons in Ha. now destruct Ha.
  - injection H as -> H. apply hyphenFree_cons in Ha, Hb.
    destruct (IH b) as [-> ->]; tauto.
Qed.

Lemma join_cons2 (sep a b : string) (l : list string) :
  join sep (a :: b :: l) = (a ++ sep ++ join sep (b :: l))%string.
Proof. reflexivity. Qed.

(** Joining hyphen-free names with ['-'] loses nothing. *)
Lemma join_hyphen_inj (l1 l2 : list string) :
  Forall hyphenFree l1 -> Forall hyphenFree l2 ->
  l1 <> [] -> l2 <> [] ->
  join "-" l1 = join "-" l2 -> l1 = l2.
Proof.
  revert l2. induction l1 as [|a l1 IH]; intros l2 H1 H2 N1 N2 E; [now elim N1 |].
  destruct l2 as [|b l2]; [now elim N2 |].
  inversion H1 as [|? ? Ha H1']; subst. inversion H2 as [|? ? Hb H2']; subst.
  destruct l1 as [|a' l1], l2 as [|b' l2].
  - simpl in E. now subst.
  - rewrite join_cons2 in E. change (join "-" [a]) with a in E. subst a.
    now apply (hyphen_append_not_free b (join "-" (b' :: l2))) in Ha.
  - rewrite join_cons2 in E. change (join "-" [b]) with b in E. subst b.
    now apply (hyphen_append_not_free a (join "-" (a' :: l1))) in Hb.
  - rewrite !join_cons2 in E.
    apply (@append_hyphen_inj a b (join "-" (a' :: l1)) (join "-" (b' :: l2))) in E;
      [| assumption | assumption].
    destruct E as [-> E]. f_equal. apply IH; try assumption; discriminate.
Qed.

Lemma NoDup_map_inj_on {A B} (f : A -> B) (l : list A) :
  NoDup l ->
  (forall a b, In a l -> In b l -> f a = f b -> a = b) ->
  NoDup (map f l).
Proof.
  induction l as [|a l IH]; simpl; intros Hnd Hinj; [constructor |].
  inversion Hnd as [|? ? Ha Hnd']; subst. constructor.
  - intros Hin. apply in_map_iff in Hin. destruct Hin as [b [Hb Hin]].
    apply Ha. rewrite (Hinj a b); auto.
  - apply IH; auto.
Qed.

End JsFacts.

Import JsFacts.

(** ** Properties of the transformation *)

Section Properties.

Context {Extra PipelineRunKind : Type}.
Context {C : Const} {L : Locale} {U : @PipelineUtils Extra PipelineRunKind}.

Local Abbreviation Node := (Node Extra PipelineRunKind).
Local Abbreviation PipelineKind := (PipelineKind Extra).

Implicit Types (nodes : list Node) (n : Node) (run : option PipelineRunKind).

(** *** Edge derivation *)

(** The edges one node contributes: one per predecessor. *)
Lemma getEdgesFromNodes_cons n nodes :
  getEdgesFromNodes (n :: nodes) =
  map (fun s => {| e_id := (s ++ "~to~" ++ name (task (data n)))%string;
                   e_type := "edge"; source := s;
                   target := name (task (data n)) |})
      (nullish (nodeRunAfter n) [])
  ++ getEdgesFromNodes nodes.
Proof.
  unfold getEdgesFromNodes, nodeRunAfter. simpl.
  destruct (runAfter (task (data n))) as [[|s ra]|]; simpl; try reflexivity.
  f_equal. apply filterTruthy_app.
Qed.

(** C6. [getEdgesFromNodes] returns one edge per (predecessor, node) pair:
    the edges are, node after node, those from each element of the node's
    [runAfter] to the node's task name, with id [<source>~to~<target>]; their
    number is the sum of the lengths of the [runAfter] lists; a node whose
    [runAfter] is empty or absent contributes no edge. *)
Theorem getEdgesFromNodes_one_edge_per_reference nodes :
  getEdgesFromNodes nodes =
  flat_map (fun n =>
              map (fun s => {| e_id := (s ++ "~to~" ++ name (task (data n)))%string;
                               e_type := "edge"; source := s;
                               target := name (task (data n)) |})
                  (nullish (nodeRunAfter n) []))
           nodes
  /\ List.length (getEdgesFromNodes nodes) =
     list_sum (map (fun n => List.length (nullish (nodeRunAfter n) [])) nodes)
  /\ (forall n pre post,
         nullish (nodeRunAfter n) [] = [] ->
         getEdgesFromNodes (pre ++ n :: post) = getEdgesFromNodes (pre ++ post)).
Proof.
  assert (Hflat : forall l,
    getEdgesFromNodes l =
    flat_map (fun n =>
                map (fun s => {| e_id := (s ++ "~to~" ++ name (task (data n)))%string;
                                 e_type := "edge"; source := s;
                                 target := name (task (data n)) |})
                    (nullish (nodeRunAfter n) []))
             l).
  { induction l as [|n l IH]; [reflexivity |].
    rewrite getEdgesFromNodes_cons, IH. reflexivity. }
  split; [apply Hflat |]. split.
  - induction nodes as [|n l IH]; [reflexivity |].
    rewrite getEdgesFromNodes_cons, length_app, length_map, IH. reflexivity.
  - intros n pre post Hn. rewrite !Hflat, !flat_map_app. simpl.
    rewrite Hn. reflexivity.
Qed.

(** *** Finally-task aggregation *)

Lemma getLastRegularTasks_filter nodes :
  getLastRegularTasks nodes =
  filter (fun i => negb (includes i (uniq (flat_map (fun n => nullish (nodeRunAfter n) []) nodes))))
         (map id nodes).
Proof.
  unfold getLastRegularTasks, difference, reduce.
  rewrite (reduceFrom_ignore_index
             (fun acc n => match nodeRunAfter n with
                           | Some ra => acc ++ ra
                           | None => acc
                           end)).
  assert (H : forall l acc,
             fold_left (fun acc n => match nodeRunAfter n with
                                     | Some ra => acc ++ ra
                                     | None => acc
                                     end) l acc
             = acc ++ flat_map (fun n => nullish (nodeRunAfter n) []) l).
  { induction l as [|n l IH]; intros acc; simpl.
    - now rewrite app_nil_r.
    - rewrite IH. destruct (nodeRunAfter n); simpl.
      + now rewrite app_assoc.
      + reflexivity. }
  rewrite H. reflexivity.
Qed.

(** The last regular tasks are the ids of the nodes that no node of the
    list runs after. *)
Lemma getLastRegularTasks_In nodes (x : string) :
  In x (getLastRegularTasks nodes) <->
  In x (map id nodes) /\
  ~ (exists n ra, In n nodes /\ nodeRunAfter n = Some ra /\ In x ra).
Proof.
  rewrite getLastRegularTasks_filter, filter_In, negb_true_iff, includes_false,
    uniq_In, in_flat_map.
  split; intros [H1 H2]; (split; [assumption |]).
  - intros [n [ra [Hn [Hra Hx]]]]. apply H2. exists n.
    split; [assumption |]. now rewrite Hra.
  - intros [n [Hn Hx]]. apply H2.
    destruct (nodeRunAfter n) as [ra|] eqn:E; simpl in Hx; [| contradiction].
    exists n, ra. auto.
Qed.

Lemma getLastRegularTasks_NoDup nodes :
  NoDup (map id nodes) -> NoDup (getLastRegularTasks nodes).
Proof. rewrite getLastRegularTasks_filter. apply NoDup_filter. Qed.

(** With a [finally] list present the aggregate node is appended. *)
Lemma connectFinallyTasksToNodes_present nodes (p : PipelineKind) run fin :
  optChain (spec p) finally = Some fin ->
  exists finallyGroupNode,
    connectFinallyTasksToNodes nodes (Some p) run
    = Returned (nodes ++ [finallyGroupNode])
    /\ id finallyGroupNode = "finally-node"
    /\ type finallyGroupNode = FINALLY_NODE
    /\ name (task (data finallyGroupNode)) = "finally-node"
    /\ nodeRunAfter finallyGroupNode = Some (getLastRegularTasks nodes)
    /\ height finallyGroupNode =
       getFinallyTaskHeight
         (Z.of_nat (List.length
                      match run with
                      | Some r => getFinallyTasksWithStatus p r
                      | None => fin
                      end)) true.
Proof.
  intros Hfin. unfold connectFinallyTasksToNodes. rewrite Hfin.
  eexists. split; [reflexivity |]. simpl. repeat split; reflexivity.
Qed.

(** C2. When the pipeline has a finally list, exactly one node, the
    aggregate ['finally-node'], is appended, and its [runAfter] is the list
    of the ids of the nodes that occur in no node's [runAfter]: the sinks of
    the main graph, in node order, without repetition when the node ids are
    distinct.  For [A] (no predecessor), [B] and [C] (both after [A]) it is
    [[B, C]]. *)
Theorem finally_node_runs_after_sinks nodes (p : PipelineKind) run fin :
  optChain (spec p) finally = Some fin ->
  fin <> [] ->
  (exists finallyGroupNode,
      connectFinallyTasksToNodes nodes (Some p) run
      = Returned (nodes ++ [finallyGroupNode])
      /\ id finallyGroupNode = "finally-node"
      /\ nodeRunAfter finallyGroupNode = Some (getLastRegularTasks nodes))
  /\ (forall x,
         In x (getLastRegularTasks nodes) <->
         In x (map id nodes) /\
         ~ (exists n ra, In n nodes /\ nodeRunAfter n = Some ra /\ In x ra))
  /\ (NoDup (map id nodes) -> NoDup (getLastRegularTasks nodes))
  /\ getLastRegularTasks
       [ createTaskNode "A" (plainData "A" (Some [])) : Node;
         createTaskNode "B" (plainData "B" (Some ["A"]));
         createTaskNode "C" (plainData "C" (Some ["A"])) ]
     = ["B"; "C"].
Proof.
  intros Hfin _. split; [| split; [| split]].
  - destruct (connectFinallyTasksToNodes_present nodes p run Hfin)
      as [f [H1 [H2 [_ [_ [H3 _]]]]]].
    exists f. auto.
  - apply getLastRegularTasks_In.
  - apply getLastRegularTasks_NoDup.
  - reflexivity.
Qed.

(** C4, as the code has it.  When the pipeline has no [finally] property
    (or no [spec]), [connectFinallyTasksToNodes] returns the node list it was
    given, and a topology returned for such a pipeline has the normalized
    task nodes alone, with the edges derived from their [runAfter] lists. *)
Theorem connectFinallyTasksToNodes_absent_finally nodes (p : PipelineKind) run :
  optChain (spec p) finally = None ->
  connectFinallyTasksToNodes nodes (Some p) run = Returned nodes
  /\ forall topologyNodes edges,
      getTopologyNodesEdges p run = Returned (topologyNodes, edges) ->
      topologyNodes = tasksToNodes (flatten (getPipelineTasks p run)) (Some p) run
      /\ edges = getEdgesFromNodes
                   (tasksToNodes (flatten (getPipelineTasks p run)) (Some p) run).
Proof.
  intros Hfin. split.
  - unfold connectFinallyTasksToNodes. now rewrite Hfin.
  - intros topologyNodes edges Hres.
    unfold getTopologyNodesEdges, connectFinallyTasksToNodes in Hres.
    rewrite Hfin in Hres. simpl in Hres. injection Hres as <- <-.
    split; reflexivity.
Qed.

(** C10. Called without a pipeline, [connectFinallyTasksToNodes] throws a
    [TypeError] (it reads [pipeline.spec] of [undefined]); it does not return
    the node list. *)
Theorem connectFinallyTasksToNodes_undefined_pipeline nodes run :
  connectFinallyTasksToNodes nodes None run = Threw TypeError
  /\ connectFinallyTasksToNodes nodes None run <> Returned nodes.
Proof. split; [reflexivity | discriminate]. Qed.

(** *** Height of the finally node *)

(** C9. For [n] finally tasks the height of the aggregate node is
    [n * NODE_HEIGHT + (n - 1) * FINALLY_NODE_VERTICAL_SPACING
     + 2 * FINALLY_NODE_PADDING], plus [NODE_HEIGHT] exactly when the builder
    row is shown.  The viewer's node ([connectFinallyTasksToNodes]) has the
    height without the builder row, the builder's node ([useConnectFinally])
    the height with it. *)
Theorem finally_node_height (n : nat) :
  (forall disableBuilder,
      getFinallyTaskHeight (Z.of_nat n) disableBuilder
      = (Z.of_nat n * NODE_HEIGHT
         + (Z.of_nat n - 1) * FINALLY_NODE_VERTICAL_SPACING
         + 2 * FINALLY_NODE_PADDING
         + (if disableBuilder then 0 else NODE_HEIGHT))%Z)
  /\ (forall nodes (p : PipelineKind) run fin,
         optChain (spec p) finally = Some fin ->
         List.length match run with
                     | Some r => getFinallyTasksWithStatus p r
                     | None => fin
                     end = n ->
         exists finallyGroupNode,
           connectFinallyTasksToNodes nodes (Some p) run
           = Returned (nodes ++ [finallyGroupNode])
           /\ height finallyGroupNode
              = (Z.of_nat n * NODE_HEIGHT
                 + (Z.of_nat n - 1) * FINALLY_NODE_VERTICAL_SPACING
                 + 2 * FINALLY_NODE_PADDING)%Z)
  /\ (forall builderProps nodes taskGroup,
         List.length (tg_finallyTasks taskGroup)
         + List.length (tg_finallyListTasks taskGroup) = n ->
         height (useConnectFinally builderProps nodes taskGroup)
         = (Z.of_nat n * NODE_HEIGHT
            + (Z.of_nat n - 1) * FINALLY_NODE_VERTICAL_SPACING
            + 2 * FINALLY_NODE_PADDING + NODE_HEIGHT)%Z).
Proof.
  assert (Hh : forall disableBuilder,
             getFinallyTaskHeight (Z.of_nat n) disableBuilder
             = (Z.of_nat n * NODE_HEIGHT
                + (Z.of_nat n - 1) * FINALLY_NODE_VERTICAL_SPACING
                + 2 * FINALLY_NODE_PADDING
                + (if disableBuilder then 0 else NODE_HEIGHT))%Z).
  { intros []; unfold getFinallyTaskHeight; cbn [negb]; lia. }
  split; [exact Hh |]. split.
  - intros nodes p run fin Hfin Hlen.
    destruct (connectFinallyTasksToNodes_present nodes p run Hfin)
      as [f [H1 [_ [_ [_ [_ H2]]]]]].
    exists f. split; [assumption |].
    rewrite H2, Hlen, Hh. lia.
  - intros b nodes tg Hlen. unfold useConnectFinally. cbn [height createBuilderFinallyNode createGenericNode nullish].
    rewrite <- Nat2Z.inj_add, Hlen, Hh. lia.
Qed.

(** *** Parallel-to-parallel normalization: the groups *)

Lemma collect_keyOf acc n idx :
  collect acc n idx
  = match keyOf n with
    | Some k => push acc k (refOf n idx)
    | None => acc
    end.
Proof.
  unfold collect, keyOf, refOf. destruct (nodeRunAfter n) as [ra|]; [| reflexivity].
  simpl. destruct (1 <? List.length ra)%nat; reflexivity.
Qed.

Lemma collect_lookup (l : list Node) idx acc k :
  lookup (reduceFrom collect l idx acc) k = lookup acc k ++ refsOf k l idx.
Proof.
  revert idx acc. induction l as [|n l IH]; intros idx acc; simpl.
  - now rewrite app_nil_r.
  - rewrite IH, collect_keyOf. unfold hasKey.
    destruct (keyOf n) as [k'|]; [| reflexivity].
    destruct (String.eqb k' k) eqn:E.
    + apply String.eqb_eq in E. subst k'.
      rewrite lookup_push_eq, <- app_assoc. reflexivity.
    + rewrite lookup_push_neq; [reflexivity |].
      intros ->. now rewrite String.eqb_refl in E.
Qed.

Lemma collect_keys_NoDup (l : list Node) idx acc :
  NoDup (map fst acc) -> NoDup (map fst (reduceFrom collect l idx acc)).
Proof.
  revert idx acc. induction l as [|n l IH]; intros idx acc H; simpl; [assumption |].
  apply IH. rewrite collect_keyOf.
  destruct (keyOf n); [now apply keys_push_NoDup | assumption].
Qed.

Lemma multipleRunBeforeMap_keys_NoDup nodes :
  NoDup (map fst (multipleRunBeforeMap nodes)).
Proof. apply collect_keys_NoDup. constructor. Qed.

(** The group recorded under a key holds the nodes with that key, in the
    order of the node list. *)
Lemma multipleRunBeforeMap_entry nodes k refs :
  In (k, refs) (multipleRunBeforeMap nodes) -> refs = refsOf k nodes 0.
Proof.
  intros Hin.
  apply In_get in Hin; [| apply multipleRunBeforeMap_keys_NoDup].
  pose proof (collect_lookup nodes 0 [] k) as H.
  fold (reduce collect [] nodes) in H. fold (multipleRunBeforeMap nodes) in H.
  unfold lookup at 1 in H. rewrite Hin in H. exact H.
Qed.

Lemma refsOf_nodes k (l : list Node) idx :
  map node (refsOf k l idx) = filter (hasKey k) l.
Proof.
  revert idx. induction l as [|n l IH]; intros idx; simpl; [reflexivity |].
  destruct (hasKey k n); simpl; now rewrite IH.
Qed.

Lemma refsOf_runAfter k (l : list Node) idx r :
  In r (refsOf k l idx) -> ref_runAfter r = nullish (nodeRunAfter (node r)) [].
Proof.
  revert idx. induction l as [|n l IH]; intros idx; simpl; [contradiction |].
  destruct (hasKey k n); [intros [<-|H]; [reflexivity | eauto] | eauto].
Qed.

Lemma hasKey_keyOf k n : hasKey k n = true <-> keyOf n = Some k.
Proof.
  unfold hasKey. destruct (keyOf n) as [k'|]; [| split; discriminate].
  rewrite String.eqb_eq. split; congruence.
Qed.

Lemma refsOf_In k (l : list Node) idx r :
  In r (refsOf k l idx) -> In (node r) l /\ keyOf (node r) = Some k.
Proof.
  intros H. apply (in_map node) in H.
  rewrite refsOf_nodes, filter_In, hasKey_keyOf in H. exact H.
Qed.

Lemma multiParallelToParallelList_In nodes p2p :
  In p2p (multiParallelToParallelList nodes) <->
  exists k, In (k, p2p) (multipleRunBeforeMap nodes) /\ 1 < List.length p2p.
Proof.
  unfold multiParallelToParallelList, values.
  rewrite filter_In, in_map_iff, Nat.ltb_lt. split.
  - intros [[[k v] [<- Hin]] Hlen]. exists k. auto.
  - intros [k [Hin Hlen]]. split; [| assumption]. exists (k, p2p). auto.
Qed.

(** Every group has more than one member: [p2p[0]] is defined. *)
Lemma p2p_length nodes p2p :
  In p2p (multiParallelToParallelList nodes) -> 1 < List.length p2p.
Proof. rewrite multiParallelToParallelList_In. intros [k [_ H]]. exact H. Qed.

(** The key of a node with more than one predecessor is computed on a
    non-empty sorted array: the reduce without initial value is defined. *)
Lemma runAfterKey_defined (ra : list string) :
  1 < List.length ra ->
  exists x l, sort localeCompare ra = x :: l
              /\ runAfterKey ra = fold_left (fun str ref => (str ++ "|" ++ ref)%string) l x.
Proof.
  intros H. unfold runAfterKey.
  pose proof (sort_length localeCompare ra) as Hlen.
  destruct (sort localeCompare ra) as [|x l]; simpl in Hlen; [lia |].
  exists x, l. auto.
Qed.

(** *** Parallel-to-parallel normalization: the rewriting *)

Lemma forEach_insertSpacer (groups : list (list (ParallelNodeReference Extra PipelineRunKind))) ns m :
  forEach insertSpacer groups (ns, m)
  = (ns ++ map spacerNode groups,
     fold_left (fun m p2p =>
                  forEach (fun m p2pNodeId => push m p2pNodeId (parallelSpacerName p2p))
                          (p2pNames p2p) m)
               groups m).
Proof.
  unfold forEach at 1. revert ns m.
  induction groups as [|g groups IH]; intros ns m; simpl.
  - now rewrite app_nil_r.
  - unfold insertSpacer at 2. simpl. rewrite IH, <- app_assoc. reflexivity.
Qed.

Lemma handleParallelToParallelNodes_unfold nodes :
  handleParallelToParallelNodes nodes
  = if (List.length (multiParallelToParallelList nodes) =? 0)%nat then nodes
    else map spacerNode (multiParallelToParallelList nodes)
         ++ map (updateNode (newRunAfterNodeMap (multiParallelToParallelList nodes)))
                nodes.
Proof.
  unfold handleParallelToParallelNodes, newRunAfterNodeMap.
  destruct (List.length (multiParallelToParallelList nodes) =? 0)%nat; [reflexivity |].
  rewrite forEach_insertSpacer. simpl. apply forEach_push.
Qed.

Lemma updateNode_lookup m n :
  updateNode m n
  = if (0 <? List.length (lookup m (id n)))%nat then recreate n (lookup m (id n))
    else n.
Proof.
  unfold updateNode, lookup, recreate. destruct (get m (id n)); reflexivity.
Qed.

Lemma lookup_push_names (names : list string) (sp nid : string) (m : dict string) :
  lookup (forEach (fun m p2pNodeId => push m p2pNodeId sp) names m) nid
  = lookup m nid ++ map (fun _ => sp) (filter (String.eqb nid) names).
Proof.
  unfold forEach. revert m. induction names as [|x names IH]; intros m; simpl.
  - now rewrite app_nil_r.
  - rewrite IH. destruct (String.eqb nid x) eqn:E.
    + apply String.eqb_eq in E. subst x.
      rewrite lookup_push_eq, <- app_assoc. reflexivity.
    + rewrite lookup_push_neq; [reflexivity |].
      intros ->. now rewrite String.eqb_refl in E.
Qed.

(** The new [runAfter] of a node id: the spacer names of the groups that
    list it. *)
Lemma lookup_newRunAfterNodeMap
      (groups : list (list (ParallelNodeReference Extra PipelineRunKind))) nid :
  lookup (newRunAfterNodeMap groups) nid
  = flat_map (fun p2p => map (fun _ => parallelSpacerName p2p)
                             (filter (String.eqb nid) (p2pNames p2p)))
             groups.
Proof.
  unfold newRunAfterNodeMap. rewrite forEach_insertSpacer. simpl.
  change (flat_map (fun p2p => map (fun _ => parallelSpacerName p2p)
                                   (filter (String.eqb nid) (p2pNames p2p))) groups)
    with (lookup (@nil (string * list string)) nid
          ++ flat_map (fun p2p => map (fun _ => parallelSpacerName p2p)
                                      (filter (String.eqb nid) (p2pNames p2p))) groups).
  generalize (@nil (string * list string)) as m.
  induction groups as [|g groups IH]; intros m; simpl.
  - now rewrite app_nil_r.
  - rewrite IH, lookup_push_names, <- app_assoc. reflexivity.
Qed.

Lemma id_recreate n ra : id (recreate n ra) = id n.
Proof. unfold recreate, getNodeCreator. now destruct (type n). Qed.

Lemma id_updateNode m n : id (updateNode m n) = id n.
Proof.
  rewrite updateNode_lookup.
  destruct (0 <? List.length (lookup m (id n)))%nat; [apply id_recreate | reflexivity].
Qed.

Lemma nodeRunAfter_recreate n ra : nodeRunAfter (recreate n ra) = Some ra.
Proof. unfold recreate, getNodeCreator. now destruct (type n). Qed.

Lemma isSpacer_recreate n ra : isSpacer (recreate n ra) = isSpacer n.
Proof. unfold isSpacer, recreate, getNodeCreator. now destruct (type n). Qed.

Lemma collect_skip (l : list Node) idx acc :
  Forall (fun n => keyOf n = None) l -> reduceFrom collect l idx acc = acc.
Proof.
  revert idx acc. induction l as [|n l IH]; intros idx acc H; simpl; [reflexivity |].
  inversion H as [|? ? Hn Hl]; subst. rewrite collect_keyOf, Hn. now apply IH.
Qed.

Lemma keyOf_short n :
  (forall ra, nodeRunAfter n = Some ra -> List.length ra <= 1) -> keyOf n = None.
Proof.
  intros H. unfold keyOf. destruct (nodeRunAfter n) as [ra|]; [| reflexivity].
  specialize (H ra eq_refl).
  destruct (Nat.ltb_spec 1 (List.length ra)); [lia | reflexivity].
Qed.

Lemma map_unchanged {A} (f : A -> A) (l : list A) :
  (forall a, In a l -> f a = a) -> map f l = l.
Proof.
  induction l as [|a l IH]; simpl; intros H; [reflexivity |].
  rewrite H by now left. f_equal. apply IH. auto.
Qed.

Lemma ids_apart {A} (f : A -> string) (l1 l2 : list A) (a : A) :
  NoDup (map f (l1 ++ a :: l2)) -> forall b, In b (l1 ++ l2) -> f b <> f a.
Proof.
  rewrite map_app. simpl. intros H b Hb Heq.
  apply NoDup_remove_2 in H. apply H. rewrite <- map_app, <- Heq.
  now apply in_map.
Qed.

Lemma filter_none {A} (f : A -> bool) (l : list A) :
  (forall a, In a l -> f a = false) -> filter f l = [].
Proof.
  induction l as [|a l IH]; simpl; intros H; [reflexivity |].
  rewrite H by now left. apply IH. auto.
Qed.

Lemma filter_cons_true {A} (f : A -> bool) (a : A) (l : list A) :
  f a = true -> filter f (a :: l) = a :: filter f l.
Proof. intros H. simpl. now rewrite H. Qed.

Lemma runsAfter_length ra n :
  runsAfter ra n = true -> exists ra', nodeRunAfter n = Some ra' /\ List.length ra' = List.length ra.
Proof.
  unfold runsAfter. destruct (nodeRunAfter n) as [ra'|]; [| discriminate].
  destruct (list_eq_dec string_dec ra' ra) as [->|]; [| discriminate].
  eauto.
Qed.

(** Two predecessors that [localeCompare] orders give the same key in
    either order. *)
Lemma runAfterKey_swap (x y : string) :
  (localeCompare x y <=? 0)%Z = negb (localeCompare y x <=? 0)%Z ->
  runAfterKey [y; x] = runAfterKey [x; y].
Proof.
  intros H. unfold runAfterKey. simpl. rewrite H.
  now destruct (localeCompare y x <=? 0)%Z.
Qed.

(** A pair of parallel nodes.  In a node list with distinct ids, none of
    which names a member of [Object.prototype], where [A] has
    [runAfter = [x, y]], a later node [B] has a [runAfter] with the same
    grouping key (the same two names in either order, when [localeCompare]
    orders them) and no other node has more than one predecessor, the result
    is the spacer ['parallel-<A>-<B>'], whose [runAfter] is [[x, y]],
    followed by the nodes in their order, with [A] and [B] recreated with
    [runAfter = [spacer id]] and every other node (one with
    [runAfter = [x]] among them) carried over as it is; the spacer is the
    only spacer node of the result that runs after [[x, y]], and the only
    spacer node at all when the input has none. *)
Theorem parallel_pair_gets_one_spacer (l1 l2 l3 : list Node) (A B : Node)
        (x y : string) (rb : list string) :
  NoDup (map id (l1 ++ A :: l2 ++ B :: l3)) ->
  (forall n, In n (l1 ++ A :: l2 ++ B :: l3) -> inherited (id n) = false) ->
  nodeRunAfter A = Some [x; y] ->
  nodeRunAfter B = Some rb ->
  1 < List.length rb ->
  runAfterKey rb = runAfterKey [x; y] ->
  (forall n ra, In n (l1 ++ l2 ++ l3) -> nodeRunAfter n = Some ra ->
                List.length ra <= 1) ->
  let sp := ("parallel-" ++ id A ++ "-" ++ id B)%string in
  let spacer := createSpacerNode sp (plainData sp (Some [x; y])) in
  let out := handleParallelToParallelNodes (l1 ++ A :: l2 ++ B :: l3) in
  out = spacer :: l1 ++ recreate A [sp] :: l2 ++ recreate B [sp] :: l3
  /\ type spacer = SPACER_NODE
  /\ id spacer = sp
  /\ nodeRunAfter spacer = Some [x; y]
  /\ filter (fun n => isSpacer n && runsAfter [x; y] n) out = [spacer]
  /\ id (recreate A [sp]) = id A
  /\ nodeRunAfter (recreate A [sp]) = Some [sp]
  /\ id (recreate B [sp]) = id B
  /\ nodeRunAfter (recreate B [sp]) = Some [sp]
  /\ (forall c, In c (l1 ++ l2 ++ l3) -> nodeRunAfter c = Some [x] -> In c out)
  /\ ((forall n, In n (l1 ++ A :: l2 ++ B :: l3) -> isSpacer n = false) ->
      filter isSpacer out = [spacer]).
Proof.
  intros Hnd _ HA HB HlenB HkeyB Hothers sp spacer out.
  assert (Hk : forall l, (forall n, In n l -> In n (l1 ++ l2 ++ l3)) ->
                         Forall (fun n => keyOf n = None) l).
  { intros l Hl. apply Forall_forall. intros n Hn. apply keyOf_short.
    intros ra Hra. apply (Hothers n ra); auto. }
  assert (H1 : Forall (fun n => keyOf n = None) l1).
  { apply Hk. intros n Hn. apply in_or_app. now left. }
  assert (H2 : Forall (fun n => keyOf n = None) l2).
  { apply Hk. intros n Hn. apply in_or_app. right. apply in_or_app. now left. }
  assert (H3 : Forall (fun n => keyOf n = None) l3).
  { apply Hk. intros n Hn. apply in_or_app. right. apply in_or_app. now right. }
  assert (KA : keyOf A = Some (runAfterKey [x; y])) by (unfold keyOf; now rewrite HA).
  assert (KB : keyOf B = Some (runAfterKey [x; y])).
  { unfold keyOf. rewrite HB. apply Nat.ltb_lt in HlenB. now rewrite HlenB, HkeyB. }
  (* the map of multiple run-afters has one entry, holding A then B *)
  assert (Hmap : exists i j,
             multipleRunBeforeMap (l1 ++ A :: l2 ++ B :: l3)
             = [(runAfterKey [x; y], [refOf A i; refOf B j])]).
  { unfold multipleRunBeforeMap, reduce.
    rewrite reduceFrom_app, (collect_skip _ _ H1). simpl.
    rewrite reduceFrom_app, collect_keyOf, KA. simpl.
    rewrite (collect_skip _ _ H2). simpl.
    rewrite collect_keyOf, KB. simpl. rewrite String.eqb_refl. simpl.
    rewrite (collect_skip _ _ H3). eauto. }
  destruct Hmap as [i [j Hmap]].
  assert (Hgroups : multiParallelToParallelList (l1 ++ A :: l2 ++ B :: l3)
                    = [[refOf A i; refOf B j]]).
  { unfold multiParallelToParallelList. rewrite Hmap. reflexivity. }
  assert (Hspacer : spacerNode [refOf A i; refOf B j] = spacer).
  { unfold spacerNode, parallelSpacerName, p2pRunAfter, p2pNames, refOf. simpl.
    rewrite HA. reflexivity. }
  (* ids *)
  assert (HAB : id A <> id B).
  { intros Heq. apply (ids_apart id l1 (l2 ++ B :: l3) A Hnd B); [| now symmetry].
    apply in_or_app. right. apply in_or_app. right. now left. }
  assert (HoA : forall n, In n (l1 ++ l2 ++ l3) -> id n <> id A).
  { intros n Hn. apply (ids_apart id l1 (l2 ++ B :: l3) A Hnd).
    apply in_app_or in Hn. destruct Hn as [Hn|Hn]; apply in_or_app; [now left | right].
    apply in_app_or in Hn. destruct Hn as [Hn|Hn]; apply in_or_app; [now left | right].
    now right. }
  assert (HoB : forall n, In n (l1 ++ l2 ++ l3) -> id n <> id B).
  { intros n Hn.
    assert (Hnd' : NoDup (map id ((l1 ++ A :: l2) ++ B :: l3))).
    { rewrite <- app_assoc. exact Hnd. }
    apply (ids_apart id (l1 ++ A :: l2) l3 B Hnd').
    apply in_app_or in Hn. destruct Hn as [Hn|Hn]; apply in_or_app.
    - left. apply in_or_app. now left.
    - apply in_app_or in Hn. destruct Hn as [Hn|Hn]; [left | now right].
      apply in_or_app. right. now right. }
  (* the new run-afters *)
  assert (Hlook : forall nid,
             lookup (newRunAfterNodeMap [[refOf A i; refOf B j]]) nid
             = map (fun _ => sp) (filter (String.eqb nid) [id A; id B])).
  { intros nid. rewrite lookup_newRunAfterNodeMap. simpl. now rewrite app_nil_r. }
  assert (HupA : updateNode (newRunAfterNodeMap [[refOf A i; refOf B j]]) A
                 = recreate A [sp]).
  { rewrite updateNode_lookup, Hlook. simpl. rewrite String.eqb_refl.
    apply String.eqb_neq in HAB. rewrite HAB. reflexivity. }
  assert (HupB : updateNode (newRunAfterNodeMap [[refOf A i; refOf B j]]) B
                 = recreate B [sp]).
  { rewrite updateNode_lookup, Hlook. simpl. rewrite String.eqb_refl.
    assert (HBA : id B <> id A) by congruence.
    apply String.eqb_neq in HBA. rewrite HBA. reflexivity. }
  assert (Hup : forall l, (forall n, In n l -> In n (l1 ++ l2 ++ l3)) ->
                          map (updateNode (newRunAfterNodeMap [[refOf A i; refOf B j]])) l = l).
  { intros l Hl. apply map_unchanged. intros n Hn.
    rewrite updateNode_lookup, Hlook. simpl.
    pose proof (HoA n (Hl n Hn)) as Ha. pose proof (HoB n (Hl n Hn)) as Hb.
    apply String.eqb_neq in Ha, Hb. rewrite Ha, Hb. reflexivity. }
  assert (Hout : out = spacer :: l1 ++ recreate A [sp] :: l2 ++ recreate B [sp] :: l3).
  { unfold out. rewrite handleParallelToParallelNodes_unfold, Hgroups. simpl.
    rewrite Hspacer. f_equal.
    rewrite map_app. simpl. rewrite map_app. simpl. rewrite HupA, HupB.
    rewrite !Hup; [reflexivity | | |]; intros n Hn; apply in_or_app.
    - right. apply in_or_app. now right.
    - right. apply in_or_app. now left.
    - now left. }
  split; [exact Hout |].
  split; [reflexivity |]. split; [reflexivity |]. split; [reflexivity |].
  split.
  { assert (Hsp : isSpacer spacer && runsAfter [x; y] spacer = true).
    { assert (Hra : nodeRunAfter spacer = Some [x; y]) by reflexivity.
      unfold runsAfter. rewrite Hra.
      destruct (list_eq_dec string_dec [x; y] [x; y]) as [_|Hne];
        [reflexivity | now elim Hne]. }
    rewrite Hout,
      (filter_cons_true (fun n => isSpacer n && runsAfter [x; y] n) spacer _ Hsp).
    f_equal.
    apply filter_none. intros n Hn. apply andb_false_iff. right.
    destruct (runsAfter [x; y] n) eqn:E; [| reflexivity].
    apply runsAfter_length in E. destruct E as [ra' [Hra Hlen]]. simpl in Hlen.
    apply in_app_or in Hn. destruct Hn as [Hn|[<-|Hn]].
    - assert (List.length ra' <= 1); [| lia].
      apply (Hothers n ra'); [apply in_or_app; now left | assumption].
    - rewrite nodeRunAfter_recreate in Hra. injection Hra as <-. discriminate.
    - apply in_app_or in Hn. destruct Hn as [Hn|[<-|Hn]].
      + assert (List.length ra' <= 1); [| lia].
        apply (Hothers n ra'); [| assumption].
        apply in_or_app. right. apply in_or_app. now left.
      + rewrite nodeRunAfter_recreate in Hra. injection Hra as <-. discriminate.
      + assert (List.length ra' <= 1); [| lia].
        apply (Hothers n ra'); [| assumption].
        apply in_or_app. right. apply in_or_app. now right. }
  split; [apply id_recreate |]. split; [apply nodeRunAfter_recreate |].
  split; [apply id_recreate |]. split; [apply nodeRunAfter_recreate |].
  split.
  { intros c Hc _. rewrite Hout. right.
    apply in_app_or in Hc. destruct Hc as [Hc|Hc]; apply in_or_app; [now left | right].
    right. apply in_app_or in Hc. destruct Hc as [Hc|Hc]; apply in_or_app; [now left |].
    right. now right. }
  intros Hno. rewrite Hout, (filter_cons_true isSpacer spacer _ eq_refl). f_equal.
  apply filter_none. intros n Hn.
  apply in_app_or in Hn. destruct Hn as [Hn|[<-|Hn]].
  - apply Hno. apply in_or_app. now left.
  - rewrite isSpacer_recreate. apply Hno. apply in_or_app. right. now left.
  - apply in_app_or in Hn. destruct Hn as [Hn|[<-|Hn]].
    + apply Hno. apply in_or_app. right. right. apply in_or_app. now left.
    + rewrite isSpacer_recreate. apply Hno. apply in_or_app. right. right.
      apply in_or_app. right. now left.
    + apply Hno. apply in_or_app. right. right. apply in_or_app. right. now right.
Qed.

(** *** The spacer of a group *)

Lemma multiParallelToParallelList_refsOf nodes p2p :
  In p2p (multiParallelToParallelList nodes) ->
  exists k, p2p = refsOf k nodes 0 /\ In (k, p2p) (multipleRunBeforeMap nodes).
Proof.
  rewrite multiParallelToParallelList_In. intros [k [Hin _]]. exists k.
  split; [now apply multipleRunBeforeMap_entry | assumption].
Qed.

Lemma In_spacerNode nodes p2p :
  In p2p (multiParallelToParallelList nodes) ->
  In (spacerNode p2p) (handleParallelToParallelNodes nodes).
Proof.
  intros Hin. rewrite handleParallelToParallelNodes_unfold.
  destruct (multiParallelToParallelList nodes) as [|g gs] eqn:E; [contradiction |].
  cbn [List.length Nat.eqb]. apply in_or_app. left. now apply in_map.
Qed.

(** C3, as the code has it.  The members of a qualifying group are the
    nodes sharing its key, in the order of the input node list; the id of
    the group's spacer is ['parallel-'] followed by their ids joined by
    ['-'] in that order (no sorting of the ids), and its [runAfter] is the
    one of the first member.  The id is thus a function of the input list,
    and it depends on the order of the members: when the member ids have no
    ['-'], two groups, of this or of another node list, have the same spacer
    id only if they list the same member ids in the same order. *)
Theorem spacer_id_joins_members_in_input_order nodes p2p :
  In p2p (multiParallelToParallelList nodes) ->
  exists k first others,
    map node p2p = filter (hasKey k) nodes
    /\ filter (hasKey k) nodes = first :: others
    /\ others <> []
    /\ In (spacerNode p2p) (handleParallelToParallelNodes nodes)
    /\ type (spacerNode p2p) = SPACER_NODE
    /\ id (spacerNode p2p)
       = ("parallel-" ++ join "-" (map id (filter (hasKey k) nodes)))%string
    /\ nodeRunAfter (spacerNode p2p) = nodeRunAfter first
    /\ forall nodes' p2p',
        In p2p' (multiParallelToParallelList nodes') ->
        Forall hyphenFree (map id (map node p2p)) ->
        Forall hyphenFree (map id (map node p2p')) ->
        id (spacerNode p2p) = id (spacerNode p2p') ->
        map id (map node p2p) = map id (map node p2p').
Proof.
  intros Hin.
  pose proof (p2p_length _ _ Hin) as Hlen.
  destruct (multiParallelToParallelList_refsOf _ _ Hin) as [k [Hp2p _]].
  assert (Hmembers : map node p2p = filter (hasKey k) nodes).
  { rewrite Hp2p. apply refsOf_nodes. }
  destruct (filter (hasKey k) nodes) as [|first others] eqn:Ef in Hmembers |- *.
  { destruct p2p; [simpl in Hlen; lia | discriminate]. }
  exists k, first, others. rewrite Ef.
  split; [assumption |]. split; [reflexivity |]. split.
  { intros ->. destruct p2p as [|r [|r' p2p]]; simpl in *; try lia. discriminate. }
  split; [now apply In_spacerNode |]. split; [reflexivity |]. split.
  { rewrite <- Hmembers, map_map. reflexivity. }
  split.
  { destruct p2p as [|r p2p]; [discriminate |].
    injection Hmembers as Hr _.
    assert (Hr' : In r (refsOf k nodes 0)) by (rewrite <- Hp2p; now left).
    pose proof (refsOf_runAfter _ _ _ _ Hr') as Hra.
    destruct (refsOf_In _ _ _ _ Hr') as [_ Hkey].
    unfold spacerNode, p2pRunAfter, nodeRunAfter at 1. simpl.
    rewrite Hra, Hr. rewrite Hr in Hkey. unfold keyOf in Hkey.
    destruct (nodeRunAfter first); [reflexivity | discriminate]. }
  intros nodes' p2p' Hin' Hfree Hfree' E.
  pose proof (p2p_length _ _ Hin') as Hlen'.
  rewrite !map_map in *. fold (p2pNames p2p) in *. fold (p2pNames p2p') in *.
  unfold spacerNode, parallelSpacerName in E. simpl in E. injection E as E.
  apply join_hyphen_inj; try assumption.
  - destruct p2p; [simpl in Hlen; lia | discriminate].
  - destruct p2p'; [simpl in Hlen'; lia | discriminate].
Qed.

(** *** Members of a group *)

Lemma NoDup_map_inj {A} (f : A -> string) (l : list A) (a b : A) :
  NoDup (map f l) -> In a l -> In b l -> f a = f b -> a = b.
Proof.
  induction l as [|c l IH]; simpl; [contradiction |].
  intros Hnd Ha Hb Heq. inversion Hnd as [|? ? Hc Hnd']; subst.
  destruct Ha as [->|Ha], Hb as [->|Hb]; auto.
  - exfalso. apply Hc. rewrite Heq. now apply in_map.
  - exfalso. apply Hc. rewrite <- Heq. now apply in_map.
Qed.

Lemma filter_eqb_one (x : string) (l : list string) :
  NoDup l -> In x l -> filter (String.eqb x) l = [x].
Proof.
  induction l as [|y l IH]; simpl; [contradiction |].
  intros Hnd Hin. inversion Hnd as [|? ? Hy Hnd']; subst.
  destruct (String.eqb x y) eqn:E.
  - apply String.eqb_eq in E. subst y. f_equal.
    apply filter_none. intros z Hz. apply String.eqb_neq. intros ->. contradiction.
  - destruct Hin as [->|Hin]; [now rewrite String.eqb_refl in E | auto].
Qed.

Lemma filter_eqb_none (x : string) (l : list string) :
  ~ In x l -> filter (String.eqb x) l = [].
Proof.
  intros H. apply filter_none. intros z Hz. apply String.eqb_neq.
  intros ->. contradiction.
Qed.

Lemma NoDup_map_filter {A} (f : A -> string) (g : A -> bool) (l : list A) :
  NoDup (map f l) -> NoDup (map f (filter g l)).
Proof.
  induction l as [|a l IH]; simpl; intros H; [constructor |].
  inversion H as [|? ? Ha Hnd]; subst.
  destruct (g a); simpl; [| auto].
  constructor; [| auto].
  intros Hin. apply Ha. apply in_map_iff in Hin. destruct Hin as [b [Hb Hin]].
  apply filter_In in Hin. rewrite <- Hb. apply in_map. tauto.
Qed.

(** Two groups with a common member are the same group. *)
Lemma groups_disjoint nodes p2p p2p' r r' :
  NoDup (map id nodes) ->
  In p2p (multiParallelToParallelList nodes) ->
  In p2p' (multiParallelToParallelList nodes) ->
  In r p2p -> In r' p2p' -> id (node r) = id (node r') ->
  p2p = p2p'.
Proof.
  intros Hnd H1 H2 Hr Hr' Hid.
  destruct (multiParallelToParallelList_refsOf _ _ H1) as [k [E1 _]].
  destruct (multiParallelToParallelList_refsOf _ _ H2) as [k' [E2 _]].
  rewrite E1 in Hr. rewrite E2 in Hr'.
  apply refsOf_In in Hr, Hr'. destruct Hr as [Hn Hk], Hr' as [Hn' Hk'].
  assert (node r = node r') by (eapply NoDup_map_inj; eauto).
  assert (k = k') by congruence.
  congruence.
Qed.

Lemma multiParallelToParallelList_NoDup nodes :
  NoDup (multiParallelToParallelList nodes).
Proof.
  unfold multiParallelToParallelList, values.
  pose proof (multipleRunBeforeMap_keys_NoDup nodes) as Hnd.
  assert (Hent : forall k v, In (k, v) (multipleRunBeforeMap nodes) ->
                             v = refsOf k nodes 0).
  { intros k v. apply multipleRunBeforeMap_entry. }
  induction (multipleRunBeforeMap nodes) as [|[k v] d IH]; simpl; [constructor |].
  inversion Hnd as [|? ? Hk Hnd']; subst.
  assert (IH' : NoDup (filter (fun d0 => (1 <? List.length d0)%nat) (map snd d))).
  { apply IH; [assumption |]. intros k0 v0 H0. apply Hent. now right. }
  destruct (Nat.ltb_spec 1 (List.length v)) as [Hlen|Hlen]; [| assumption].
  constructor; [| assumption].
  intros Hin. apply filter_In in Hin. destruct Hin as [Hin _].
  apply in_map_iff in Hin. destruct Hin as [[k' v'] [Hv Hin]]. simpl in Hv. subst v'.
  apply Hk. replace k with k'.
  { change k' with (fst (k', v)). now apply in_map. }
  pose proof (Hent k v (or_introl eq_refl)) as E1.
  pose proof (Hent k' v (or_intror Hin)) as E2.
  destruct v as [|r v]; [simpl in Hlen; lia |].
  assert (H1 : In r (refsOf k nodes 0)) by (rewrite <- E1; now left).
  assert (H2 : In r (refsOf k' nodes 0)) by (rewrite <- E2; now left).
  apply refsOf_In in H1, H2. destruct H1 as [_ H1], H2 as [_ H2]. congruence.
Qed.

(** With distinct node ids, the new [runAfter] of a member of a group is
    the id of the group's spacer, alone. *)
Lemma lookup_member nodes p2p r :
  NoDup (map id nodes) ->
  In p2p (multiParallelToParallelList nodes) -> In r p2p ->
  lookup (newRunAfterNodeMap (multiParallelToParallelList nodes)) (id (node r))
  = [parallelSpacerName p2p].
Proof.
  intros Hnd Hin Hr. rewrite lookup_newRunAfterNodeMap.
  apply flat_map_single with (x := p2p).
  - apply multiParallelToParallelList_NoDup.
  - assumption.
  - destruct (multiParallelToParallelList_refsOf _ _ Hin) as [k [E _]].
    rewrite filter_eqb_one; [reflexivity | |].
    + unfold p2pNames. rewrite <- (map_map node id).
      rewrite E, refsOf_nodes. now apply NoDup_map_filter.
    + unfold p2pNames. now apply (in_map (fun p2pData => id (node p2pData))).
  - intros z Hz Hne. rewrite filter_eqb_none; [reflexivity |].
    unfold p2pNames. intros Hid. apply in_map_iff in Hid.
    destruct Hid as [r' [Hid Hr']]. apply Hne.
    eapply groups_disjoint; eauto.
Qed.

(** A node outside every group keeps its [runAfter]. *)
Lemma lookup_nonmember nodes n :
  NoDup (map id nodes) -> In n nodes ->
  (forall p2p r, In p2p (multiParallelToParallelList nodes) -> In r p2p ->
                 node r <> n) ->
  updateNode (newRunAfterNodeMap (multiParallelToParallelList nodes)) n = n.
Proof.
  intros Hnd Hn Hout. rewrite updateNode_lookup, lookup_newRunAfterNodeMap.
  rewrite flat_map_nil; [reflexivity |].
  intros z Hz. rewrite filter_eqb_none; [reflexivity |].
  unfold p2pNames. intros Hid. apply in_map_iff in Hid.
  destruct Hid as [r [Hid Hr]]. apply (Hout z r Hz Hr).
  destruct (multiParallelToParallelList_refsOf _ _ Hz) as [k [E _]].
  rewrite E in Hr. apply refsOf_In in Hr. destruct Hr as [Hr _].
  eapply NoDup_map_inj; eauto.
Qed.

Lemma In_updateNode nodes n :
  In n nodes -> multiParallelToParallelList nodes <> [] ->
  In (updateNode (newRunAfterNodeMap (multiParallelToParallelList nodes)) n)
     (handleParallelToParallelNodes nodes).
Proof.
  intros Hn Hne. rewrite handleParallelToParallelNodes_unfold.
  destruct (multiParallelToParallelList nodes) as [|g gs]; [now elim Hne |].
  cbn [List.length Nat.eqb]. apply in_or_app. right. now apply in_map.
Qed.

(** What [getNodeCreator] makes of a node kind. *)
Lemma type_recreate n ra :
  type (recreate n ra)
  = match type n with
    | TASK_LIST_NODE => TASK_LIST_NODE
    | BUILDER_NODE => BUILDER_NODE
    | SPACER_NODE => SPACER_NODE
    | _ => TASK_NODE
    end.
Proof. unfold recreate, getNodeCreator. now destruct (type n). Qed.

(** The frame of the rewriting.  With distinct node ids, a member of a
    qualifying group whose kind is one [getNodeCreator] has a case for (task,
    task-list, builder or spacer node) and which has the dimensions of its
    creator is replaced by a node that differs from it in [runAfter] alone,
    which becomes the id of the group's spacer. *)
Theorem group_member_only_runAfter_changes nodes p2p r :
  NoDup (map id nodes) ->
  In p2p (multiParallelToParallelList nodes) -> In r p2p ->
  recreatedAsIs (type (node r)) = true ->
  defaultSized (node r) ->
  In (node r) nodes
  /\ updateNode (newRunAfterNodeMap (multiParallelToParallelList nodes)) (node r)
     = {| id := id (node r);
          data := withRunAfter (data (node r)) [parallelSpacerName p2p];
          height := height (node r);
          width := width (node r);
          type := type (node r) |}
  /\ In {| id := id (node r);
           data := withRunAfter (data (node r)) [parallelSpacerName p2p];
           height := height (node r);
           width := width (node r);
           type := type (node r) |}
        (handleParallelToParallelNodes nodes).
Proof.
  intros Hnd Hin Hr Hty [Hh Hw].
  assert (Hn : In (node r) nodes).
  { destruct (multiParallelToParallelList_refsOf _ _ Hin) as [k [E _]].
    rewrite E in Hr. now apply refsOf_In in Hr. }
  assert (Hup : updateNode (newRunAfterNodeMap (multiParallelToParallelList nodes)) (node r)
                = {| id := id (node r);
                     data := withRunAfter (data (node r)) [parallelSpacerName p2p];
                     height := height (node r);
                     width := width (node r);
                     type := type (node r) |}).
  { rewrite updateNode_lookup, (lookup_member _ _ _ Hnd Hin Hr).
    cbn [List.length Nat.ltb Nat.leb]. rewrite Hh, Hw.
    unfold recreate, getNodeCreator.
    destruct (type (node r)); try discriminate; reflexivity. }
  split; [assumption |]. split; [assumption |].
  rewrite <- Hup. apply In_updateNode; [assumption |].
  intros E. rewrite E in Hin. contradiction.
Qed.

(** *** Node ids *)

Lemma id_handleParallelToParallelNodes nodes :
  map id (handleParallelToParallelNodes nodes)
  = map parallelSpacerName (multiParallelToParallelList nodes) ++ map id nodes.
Proof.
  rewrite handleParallelToParallelNodes_unfold.
  destruct (multiParallelToParallelList nodes) as [|g gs] eqn:E; [reflexivity |].
  cbn [List.length Nat.eqb]. rewrite map_app, !map_map. f_equal.
  apply map_ext. intros n. apply id_updateNode.
Qed.

Lemma isSpacer_updateNode m n :
  type n = TASK_NODE -> isSpacer (updateNode m n) = false.
Proof.
  intros Hty. rewrite updateNode_lookup. unfold isSpacer.
  destruct (0 <? List.length (lookup m (id n)))%nat;
    [rewrite type_recreate |]; now rewrite Hty.
Qed.

Lemma spacers_handleParallelToParallelNodes nodes :
  (forall n, In n nodes -> type n = TASK_NODE) ->
  filter isSpacer (handleParallelToParallelNodes nodes)
  = map spacerNode (multiParallelToParallelList nodes).
Proof.
  intros Hty. rewrite handleParallelToParallelNodes_unfold.
  destruct (multiParallelToParallelList nodes) as [|g gs] eqn:E.
  - apply filter_none. intros n Hn. unfold isSpacer. now rewrite (Hty n Hn).
  - cbn [List.length Nat.eqb]. rewrite filter_app.
    rewrite (filter_none isSpacer (map _ nodes)).
    + rewrite app_nil_r. clear E.
      induction (g :: gs) as [|h hs IH]; simpl; [reflexivity | now rewrite IH].
    + intros n Hn. apply in_map_iff in Hn. destruct Hn as [n0 [<- Hn0]].
      apply isSpacer_updateNode. auto.
Qed.

Lemma finally_node_is_no_spacer_id
      (groups : list (list (ParallelNodeReference Extra PipelineRunKind))) :
  ~ In "finally-node" (map parallelSpacerName groups).
Proof.
  intros Hin. apply in_map_iff in Hin. destruct Hin as [g [Hg _]].
  unfold parallelSpacerName in Hg. simpl in Hg. discriminate.
Qed.

Lemma tasksToNodes_taskNodeList taskList (pipeline : option PipelineKind) run :
  tasksToNodes taskList pipeline run
  = handleParallelToParallelNodes (taskNodeList taskList pipeline run).
Proof. reflexivity. Qed.

Lemma taskNodeList_ids taskList (pipeline : option PipelineKind) run :
  map id (taskNodeList taskList pipeline run) = map (@pt_name _) taskList.
Proof. unfold taskNodeList. rewrite map_map. reflexivity. Qed.

Lemma taskNodeList_type taskList (pipeline : option PipelineKind) run n :
  In n (taskNodeList taskList pipeline run) -> type n = TASK_NODE.
Proof.
  intros Hn. apply in_map_iff in Hn. destruct Hn as [t [<- _]]. reflexivity.
Qed.

(** The ids of a topology: the spacer ids, the task names, and
    ['finally-node'] when there are finally tasks. *)
Lemma topology_ids (p : PipelineKind) run nodes edges :
  getTopologyNodesEdges p run = Returned (nodes, edges) ->
  filter isSpacer nodes
  = map spacerNode
        (multiParallelToParallelList
           (taskNodeList (flatten (getPipelineTasks p run)) (Some p) run))
  /\ exists tail,
      map id nodes
      = map parallelSpacerName
            (multiParallelToParallelList
               (taskNodeList (flatten (getPipelineTasks p run)) (Some p) run))
        ++ map (@pt_name _) (flatten (getPipelineTasks p run)) ++ tail
      /\ (tail = [] \/ tail = ["finally-node"]).
Proof.
  intros Hres. unfold getTopologyNodesEdges in Hres.
  rewrite tasksToNodes_taskNodeList in Hres.
  set (nodeList := taskNodeList _ _ _) in *.
  pose proof (id_handleParallelToParallelNodes nodeList) as Hout.
  unfold nodeList in Hout at 3. rewrite taskNodeList_ids in Hout.
  pose proof (spacers_handleParallelToParallelNodes nodeList
                (taskNodeList_type _ _ _)) as Hfilter.
  unfold connectFinallyTasksToNodes in Hres.
  destruct (optChain (spec p) finally) as [fin|]; simpl in Hres;
    injection Hres as Hn _; subst nodes.
  - split.
    + rewrite filter_app, Hfilter. simpl. apply app_nil_r.
    + exists ["finally-node"]. split; [| now right].
      rewrite map_app, Hout, <- app_assoc. reflexivity.
  - split; [exact Hfilter |].
    exists []. split; [| now left]. rewrite Hout, app_nil_r. reflexivity.
Qed.

Lemma ids_NoDup (spacerIds names tail : list string) :
  NoDup spacerIds -> NoDup names ->
  (forall s, In s spacerIds -> ~ In s names) ->
  ~ In "finally-node" names -> ~ In "finally-node" spacerIds ->
  tail = [] \/ tail = ["finally-node"] ->
  NoDup (spacerIds ++ names ++ tail).
Proof.
  intros Hs Hn Hd Hf1 Hf2 Htail. apply NoDup_app; [assumption | |].
  - destruct Htail as [->| ->]; [now rewrite app_nil_r |].
    apply NoDup_app; [assumption | repeat constructor; auto |].
    intros a Ha [<-|[]]. contradiction.
  - intros a Ha Hin. apply in_app_or in Hin. destruct Hin as [Hin|Hin].
    + now apply (Hd a).
    + destruct Htail as [->| ->]; [contradiction |].
      destruct Hin as [<-|[]]. contradiction.
Qed.

(** *** Names without hyphens *)

Lemma parallelSpacerName_not_hyphenFree
      (g : list (ParallelNodeReference Extra PipelineRunKind)) :
  ~ hyphenFree (parallelSpacerName g).
Proof.
  unfold parallelSpacerName, hyphenFree. simpl. intros H. apply H.
  do 8 right. now left.
Qed.

Lemma p2pNames_members nodes p2p :
  In p2p (multiParallelToParallelList nodes) ->
  p2pNames p2p <> []
  /\ forall s, In s (p2pNames p2p) ->
               In s (map id nodes) /\ exists r, In r p2p /\ id (node r) = s.
Proof.
  intros Hin. pose proof (p2p_length _ _ Hin) as Hlen.
  destruct (multiParallelToParallelList_refsOf _ _ Hin) as [k [E _]].
  split.
  - destruct p2p; [simpl in Hlen; lia | discriminate].
  - intros s Hs. unfold p2pNames in Hs. apply in_map_iff in Hs.
    destruct Hs as [r [<- Hr]]. split; [| eauto].
    rewrite E in Hr. apply refsOf_In in Hr. apply in_map. tauto.
Qed.

(** With distinct hyphen-free node ids, two groups with the same spacer
    name are the same group. *)
Lemma parallelSpacerName_inj nodes g1 g2 :
  NoDup (map id nodes) -> Forall hyphenFree (map id nodes) ->
  In g1 (multiParallelToParallelList nodes) ->
  In g2 (multiParallelToParallelList nodes) ->
  parallelSpacerName g1 = parallelSpacerName g2 -> g1 = g2.
Proof.
  intros Hnd Hfree H1 H2 E.
  destruct (p2pNames_members _ _ H1) as [N1 M1].
  destruct (p2pNames_members _ _ H2) as [N2 M2].
  assert (Hnames : p2pNames g1 = p2pNames g2).
  { unfold parallelSpacerName in E. simpl in E. injection E as E.
    rewrite Forall_forall in Hfree.
    apply join_hyphen_inj; try assumption; apply Forall_forall; intros s Hs.
    - apply Hfree. now apply M1.
    - apply Hfree. now apply M2. }
  destruct g1 as [|r1 g1]; [now elim N1 |].
  destruct (M2 (id (node r1))) as [_ [r2 [Hr2 Hid]]].
  { rewrite <- Hnames. now left. }
  eapply groups_disjoint with (r := r1) (r' := r2);
    [exact Hnd | exact H1 | exact H2 | now left | exact Hr2 | now symmetry].
Qed.

(** When the task names are pairwise distinct and none contains ['-'],
    every node id of the topology is unique. *)
Theorem hyphen_free_names_give_unique_ids (p : PipelineKind) run nodes edges :
  getTopologyNodesEdges p run = Returned (nodes, edges) ->
  NoDup (map (@pt_name _) (flatten (getPipelineTasks p run))) ->
  Forall hyphenFree (map (@pt_name _) (flatten (getPipelineTasks p run))) ->
  NoDup (map id nodes).
Proof.
  intros Hres Hnames Hfree.
  destruct (topology_ids _ _ Hres) as [_ [tail [Hout Htail]]].
  rewrite Hout. rewrite Forall_forall in Hfree.
  apply ids_NoDup; try assumption.
  - apply NoDup_map_inj_on; [apply multiParallelToParallelList_NoDup |].
    intros g1 g2. apply parallelSpacerName_inj.
    + now rewrite taskNodeList_ids.
    + rewrite taskNodeList_ids. now apply Forall_forall.
  - intros s Hs Hin. apply in_map_iff in Hs. destruct Hs as [g [<- _]].
    apply Hfree in Hin. now apply parallelSpacerName_not_hyphenFree in Hin.
  - intros Hin. apply Hfree in Hin. apply Hin. simpl. do 7 right. now left.
  - apply finally_node_is_no_spacer_id.
Qed.

(** The output has one node more than the input for every qualifying
    group. *)
Theorem handleParallelToParallelNodes_cardinality nodes :
  List.length (handleParallelToParallelNodes nodes)
  = List.length (multiParallelToParallelList nodes) + List.length nodes.
Proof.
  rewrite handleParallelToParallelNodes_unfold.
  destruct (multiParallelToParallelList nodes) as [|g gs]; [reflexivity |].
  cbn [Nat.eqb List.length]. rewrite length_app, !length_map. reflexivity.
Qed.

End Properties.

(** ** Further properties of the normalization *)

Section Normalization.

Context {Extra PipelineRunKind : Type}.
Context {C : Const} {L : Locale}.

Local Abbreviation Node := (Node Extra PipelineRunKind).

Implicit Types (nodes : list Node) (n : Node).

Lemma nil_of_no_element {A} (l : list A) : (forall a, ~ In a l) -> l = [].
Proof. destruct l as [|a l]; [reflexivity |]. intros H. elim (H a). now left. Qed.

Lemma refsOf_length k (l : list Node) idx :
  List.length (refsOf k l idx) = List.length (filter (hasKey k) l).
Proof. rewrite <- (refsOf_nodes k l idx). now rewrite length_map. Qed.

(** The group of a key is in the list exactly when more than one node has
    the key. *)
Lemma group_of_key nodes k :
  1 < List.length (filter (hasKey k) nodes) ->
  In (refsOf k nodes 0) (multiParallelToParallelList nodes).
Proof.
  intros Hlen. apply multiParallelToParallelList_In. exists k.
  split; [| now rewrite refsOf_length].
  pose proof (collect_lookup nodes 0 [] k) as H.
  fold (reduce collect [] nodes) in H. fold (multipleRunBeforeMap nodes) in H.
  unfold lookup in H. simpl in H.
  destruct (get (multipleRunBeforeMap nodes) k) as [v|] eqn:E; simpl in H.
  - subst v. now apply get_In.
  - rewrite <- (refsOf_length k nodes 0), <- H in Hlen. simpl in Hlen. lia.
Qed.

Lemma no_group_iff nodes :
  multiParallelToParallelList nodes = []
  <-> forall k, List.length (filter (hasKey k) nodes) <= 1.
Proof.
  split.
  - intros E k. destruct (Nat.le_gt_cases (List.length (filter (hasKey k) nodes)) 1)
      as [H|H]; [assumption |].
    apply group_of_key in H. rewrite E in H. contradiction.
  - intros H. apply nil_of_no_element. intros p2p Hin.
    pose proof (p2p_length _ _ Hin) as Hlen.
    destruct (multiParallelToParallelList_refsOf _ _ Hin) as [k [E _]].
    rewrite E, refsOf_length in Hlen. specialize (H k). lia.
Qed.

Lemma handleParallelToParallelNodes_length nodes :
  List.length (handleParallelToParallelNodes nodes)
  = List.length (multiParallelToParallelList nodes) + List.length nodes.
Proof.
  rewrite handleParallelToParallelNodes_unfold.
  destruct (multiParallelToParallelList nodes) as [|g gs]; [reflexivity |].
  cbn [Nat.eqb List.length]. rewrite length_app, !length_map. reflexivity.
Qed.

(** The node list is returned as it is exactly when no grouping key (the
    sorted predecessors of a node with more than one predecessor) is shared
    by two nodes. *)
Theorem handleParallelToParallelNodes_identity_iff nodes :
  handleParallelToParallelNodes nodes = nodes
  <-> forall k, List.length (filter (hasKey k) nodes) <= 1.
Proof.
  rewrite <- no_group_iff. split.
  - intros H. apply (f_equal (@List.length _)) in H.
    rewrite handleParallelToParallelNodes_length in H.
    destruct (multiParallelToParallelList nodes); [reflexivity | simpl in H; lia].
  - intros E. rewrite handleParallelToParallelNodes_unfold, E. reflexivity.
Qed.

Lemma filter_length_le1 {A} (P : A -> bool) (l : list A) :
  NoDup l ->
  (forall a b, In a l -> In b l -> P a = true -> P b = true -> a = b) ->
  List.length (filter P l) <= 1.
Proof.
  induction l as [|x l IH]; simpl; intros Hnd Hone; [lia |].
  inversion Hnd as [|? ? Hx Hnd']; subst.
  destruct (P x) eqn:E.
  - rewrite filter_none; [simpl; lia |].
    intros a Ha. destruct (P a) eqn:Ea; [| reflexivity].
    elim Hx. rewrite (Hone x a); auto.
  - apply IH; auto.
Qed.

Lemma filter_map_length_le {A B} (P : B -> bool) (Q : A -> bool) (f : A -> B)
      (l : list A) :
  (forall a, In a l -> P (f a) = true -> Q a = true) ->
  List.length (filter P (map f l)) <= List.length (filter Q l).
Proof.
  induction l as [|x l IH]; simpl; intros H; [lia |].
  assert (IH' : List.length (filter P (map f l)) <= List.length (filter Q l))
    by (apply IH; auto).
  destruct (P (f x)) eqn:E.
  - rewrite (H x (or_introl eq_refl) E). simpl. lia.
  - destruct (Q x); simpl; lia.
Qed.

(** The spacer of a group has the key of the group. *)
Lemma keyOf_spacerNode nodes g :
  In g (multiParallelToParallelList nodes) ->
  exists k, g = refsOf k nodes 0 /\ keyOf (spacerNode g) = Some k.
Proof.
  intros Hin. pose proof (p2p_length _ _ Hin) as Hlen.
  destruct (multiParallelToParallelList_refsOf _ _ Hin) as [k [E _]].
  exists k. split; [assumption |].
  destruct g as [|r g]; [simpl in Hlen; lia |].
  assert (Hr : In r (refsOf k nodes 0)) by (rewrite <- E; now left).
  pose proof (refsOf_runAfter _ _ _ _ Hr) as Hra.
  destruct (refsOf_In _ _ _ _ Hr) as [_ Hkey].
  unfold keyOf, nodeRunAfter, spacerNode, p2pRunAfter. simpl. rewrite Hra.
  unfold keyOf in Hkey. destruct (nodeRunAfter (node r)); [exact Hkey | discriminate].
Qed.

Lemma keyOf_recreate_single n (sp : string) : keyOf (recreate n [sp]) = None.
Proof. unfold keyOf. now rewrite nodeRunAfter_recreate. Qed.

(** A node is a member of a group or of none. *)
Lemma member_or_not nodes n :
  In n nodes ->
  (exists g r, In g (multiParallelToParallelList nodes) /\ In r g /\ node r = n)
  \/ (forall g r, In g (multiParallelToParallelList nodes) -> In r g -> node r <> n).
Proof.
  intros Hn. destruct (keyOf n) as [k|] eqn:Hk.
  - destruct (Nat.le_gt_cases (List.length (filter (hasKey k) nodes)) 1) as [Hc|Hc].
    + right. intros g r Hg Hr Heq.
      pose proof (p2p_length _ _ Hg) as Hlen.
      destruct (multiParallelToParallelList_refsOf _ _ Hg) as [k' [E _]].
      rewrite E in Hr. apply refsOf_In in Hr. destruct Hr as [_ Hr].
      rewrite Heq, Hk in Hr. injection Hr as <-.
      rewrite E, refsOf_length in Hlen. lia.
    + left. exists (refsOf k nodes 0).
      assert (Hin : In n (map node (refsOf k nodes 0))).
      { rewrite refsOf_nodes. apply filter_In. split; [assumption |].
        now apply hasKey_keyOf. }
      apply in_map_iff in Hin. destruct Hin as [r [Hr Hin]].
      exists r. split; [now apply group_of_key | auto].
  - right. intros g r Hg Hr Heq.
    destruct (multiParallelToParallelList_refsOf _ _ Hg) as [k' [E _]].
    rewrite E in Hr. apply refsOf_In in Hr. destruct Hr as [_ Hr].
    rewrite Heq, Hk in Hr. discriminate.
Qed.

(** With distinct ids, a node of the output that still has a grouping key
    is an input node outside every group, alone with its key. *)
Lemma hasKey_updateNode nodes n k :
  NoDup (map id nodes) -> In n nodes ->
  hasKey k (updateNode (newRunAfterNodeMap (multiParallelToParallelList nodes)) n) = true ->
  hasKey k n = true /\ List.length (filter (hasKey k) nodes) <= 1.
Proof.
  intros Hnd Hn Hk. destruct (member_or_not nodes n Hn) as [[g [r [Hg [Hr Heq]]]]|Hout].
  - rewrite updateNode_lookup, <- Heq, (lookup_member _ _ _ Hnd Hg Hr) in Hk.
    cbn [List.length Nat.ltb Nat.leb] in Hk.
    apply hasKey_keyOf in Hk. rewrite keyOf_recreate_single in Hk. discriminate.
  - rewrite (@lookup_nonmember _ _ _ _ nodes n Hnd Hn Hout) in Hk. split; [assumption |].
    destruct (Nat.le_gt_cases (List.length (filter (hasKey k) nodes)) 1) as [Hc|Hc];
      [assumption |].
    exfalso. pose proof (group_of_key _ _ Hc) as Hg.
    assert (Hin : In n (map node (refsOf k nodes 0))).
    { rewrite refsOf_nodes. apply filter_In. auto. }
    apply in_map_iff in Hin. destruct Hin as [r [Hr Hin]].
    exact (Hout _ _ Hg Hin Hr).
Qed.

(** In the output no grouping key is shared. *)
Lemma output_keys_unshared nodes k :
  NoDup (map id nodes) ->
  List.length (filter (hasKey k) (handleParallelToParallelNodes nodes)) <= 1.
Proof.
  intros Hnd. rewrite handleParallelToParallelNodes_unfold.
  destruct (multiParallelToParallelList nodes) as [|g0 gs] eqn:E.
  - apply no_group_iff. exact E.
  - cbn [List.length Nat.eqb]. rewrite <- E. clear E g0 gs.
    rewrite filter_app, length_app.
    destruct (Nat.le_gt_cases (List.length (filter (hasKey k) nodes)) 1) as [Hc|Hc].
    + rewrite (filter_none (hasKey k) (map spacerNode _)).
      * simpl. etransitivity; [| exact Hc].
        apply filter_map_length_le. intros n Hn Hk.
        now apply (hasKey_updateNode _ _ _ Hnd Hn Hk).
      * intros sn Hsn. apply in_map_iff in Hsn. destruct Hsn as [g [<- Hg]].
        destruct (hasKey k (spacerNode g)) eqn:Hk; [| reflexivity].
        pose proof (p2p_length _ _ Hg) as Hlen.
        destruct (keyOf_spacerNode _ _ Hg) as [k' [Eg Hk']].
        apply hasKey_keyOf in Hk. rewrite Hk' in Hk. injection Hk as ->.
        rewrite Eg, refsOf_length in Hlen. lia.
    + rewrite (filter_none (hasKey k) (map (updateNode _) nodes)).
      * rewrite Nat.add_0_r.
        etransitivity;
          [apply (filter_map_length_le (hasKey k)
                    (fun g => hasKey k (spacerNode g)) spacerNode); auto |].
        apply filter_length_le1; [apply multiParallelToParallelList_NoDup |].
        intros a b Ha Hb Hka Hkb.
        destruct (keyOf_spacerNode _ _ Ha) as [ka [Ea Hka']].
        destruct (keyOf_spacerNode _ _ Hb) as [kb [Eb Hkb']].
        apply hasKey_keyOf in Hka, Hkb. congruence.
      * intros u Hu. apply in_map_iff in Hu. destruct Hu as [n [<- Hn]].
        destruct (hasKey k (updateNode _ n)) eqn:Hk; [| reflexivity].
        destruct (hasKey_updateNode _ _ _ Hnd Hn Hk) as [_ Hle]. lia.
Qed.


(** *** The grouping key *)

Lemma pipeFree_cons (c : ascii) (s : string) :
  pipeFree (String c s) <-> c <> "|"%char /\ pipeFree s.
Proof. unfold pipeFree. simpl. tauto. Qed.

Lemma pipe_append_not_free (b r : string) : ~ pipeFree (b ++ String "|" r).
Proof.
  induction b as [|c b IH]; simpl.
  - intros H. apply H. now left.
  - rewrite pipeFree_cons. tauto.
Qed.

Lemma append_pipe_inj (a b r1 r2 : string) :
  pipeFree a -> pipeFree b ->
  (a ++ String "|" r1 = b ++ String "|" r2)%string ->
  a = b /\ r1 = r2.
Proof.
  revert b. induction a as [|c a IH]; intros [|d b] Ha Hb H; simpl in H.
  - injection H as ->. auto.
  - injection H as <- _. apply pipeFree_cons in Hb. now destruct Hb.
  - injection H as -> _. apply pipeFree_cons in Ha. now destruct Ha.
  - injection H as -> H. apply pipeFree_cons in Ha, Hb.
    destruct (IH b) as [-> ->]; tauto.
Qed.

Lemma append_empty_r (a : string) : (a ++ "")%string = a.
Proof. induction a as [|c a IH]; simpl; [reflexivity | now rewrite IH]. Qed.

Lemma append_assoc3 (a b c : string) : ((a ++ b) ++ c)%string = (a ++ b ++ c)%string.
Proof. induction a as [|x a IH]; simpl; [reflexivity | now rewrite IH]. Qed.

(** The reduce of the key: the first name followed by ['|'] and a name for
    every further element. *)
Lemma key_fold (l : list string) (x : string) :
  fold_left (fun str ref => (str ++ "|" ++ ref)%string) l x
  = (x ++ fold_right (fun ref acc => String "|" (ref ++ acc)) "" l)%string.
Proof.
  revert x. induction l as [|r l IH]; intros x; simpl.
  - now rewrite append_empty_r.
  - rewrite IH, append_assoc3. reflexivity.
Qed.

Lemma key_fold_inj (l l' : list string) (x x' : string) :
  Forall pipeFree (x :: l) -> Forall pipeFree (x' :: l') ->
  fold_left (fun str ref => (str ++ "|" ++ ref)%string) l x
  = fold_left (fun str ref => (str ++ "|" ++ ref)%string) l' x' ->
  x :: l = x' :: l'.
Proof.
  rewrite !key_fold. revert x x' l'.
  induction l as [|r l IH]; intros x x' [|r' l'] H H' E; simpl in E;
    inversion H as [|? ? Hx Hl]; inversion H' as [|? ? Hx' Hl']; subst.
  - rewrite !append_empty_r in E. now subst.
  - rewrite append_empty_r in E. subst x. now apply pipe_append_not_free in Hx.
  - rewrite append_empty_r in E. subst x'. now apply pipe_append_not_free in Hx'.
  - apply append_pipe_inj in E; [| assumption | assumption].
    destruct E as [-> E]. f_equal. now apply IH.
Qed.

Lemma insert_In {A} (cmp : A -> A -> Z) (x y : A) (l : list A) :
  In x (insert cmp y l) <-> x = y \/ In x l.
Proof.
  induction l as [|z l IH]; simpl; [intuition |].
  destruct (cmp y z <=? 0)%Z; simpl; [intuition |].
  rewrite IH. intuition.
Qed.

(** Sorting keeps the elements. *)
Lemma sort_In {A} (cmp : A -> A -> Z) (x : A) (l : list A) :
  In x (sort cmp l) <-> In x l.
Proof.
  induction l as [|y l IH]; simpl; [tauto |].
  rewrite insert_In, IH. intuition.
Qed.

(** Lists of names without ['|'] that have the same key have the same
    elements. *)
Lemma runAfterKey_elements (ra ra' : list string) (s : string) :
  Forall pipeFree ra -> Forall pipeFree ra' ->
  1 < List.length ra -> 1 < List.length ra' ->
  runAfterKey ra = runAfterKey ra' ->
  In s ra -> In s ra'.
Proof.
  intros H H' Hlen Hlen' E Hs.
  destruct (runAfterKey_defined ra Hlen) as [x [l [Hsort Hkey]]].
  destruct (runAfterKey_defined ra' Hlen') as [x' [l' [Hsort' Hkey']]].
  rewrite Hkey, Hkey' in E. apply key_fold_inj in E.
  - apply (sort_In localeCompare). rewrite Hsort', <- E, <- Hsort.
    now apply sort_In.
  - rewrite <- Hsort. apply Forall_forall. intros y Hy.
    rewrite Forall_forall in H. apply H. now apply sort_In in Hy.
  - rewrite <- Hsort'. apply Forall_forall. intros y Hy.
    rewrite Forall_forall in H'. apply H'. now apply sort_In in Hy.
Qed.

Lemma keyOf_Some n k :
  keyOf n = Some k ->
  exists ra, nodeRunAfter n = Some ra /\ 1 < List.length ra /\ k = runAfterKey ra.
Proof.
  unfold keyOf. destruct (nodeRunAfter n) as [ra|]; [| discriminate].
  destruct (Nat.ltb_spec 1 (List.length ra)); [| discriminate].
  intros [= <-]. eauto.
Qed.

(** Nodes with the same key and predecessors without ['|'] have the same
    predecessors. *)
Lemma same_key_same_predecessors n n' k (s : string) :
  (forall p, In p (nullish (nodeRunAfter n) []) -> pipeFree p) ->
  (forall p, In p (nullish (nodeRunAfter n') []) -> pipeFree p) ->
  keyOf n = Some k -> keyOf n' = Some k ->
  In s (nullish (nodeRunAfter n) []) -> In s (nullish (nodeRunAfter n') []).
Proof.
  intros H H' Hk Hk'.
  destruct (keyOf_Some _ Hk) as [ra [Hra [Hlen ->]]].
  destruct (keyOf_Some _ Hk') as [ra' [Hra' [Hlen' E]]].
  rewrite Hra in *. rewrite Hra' in *. simpl in *.
  apply runAfterKey_elements; try assumption; apply Forall_forall; assumption.
Qed.

Lemma In_dec_groups nodes :
  multiParallelToParallelList nodes = [] \/ multiParallelToParallelList nodes <> [].
Proof. destruct (multiParallelToParallelList nodes); [now left | now right]. Qed.

(** *** Edges of the normalized graph *)

Lemma getEdgesFromNodes_In nodes (e : Edge) :
  In e (getEdgesFromNodes nodes) <->
  exists n s,
    In n nodes /\ In s (nullish (nodeRunAfter n) [])
    /\ e = {| e_id := (s ++ "~to~" ++ name (task (data n)))%string;
              e_type := "edge"; source := s;
              target := name (task (data n)) |}.
Proof.
  induction nodes as [|m nodes IH].
  - split; [intros [] | intros [n [s [[] _]]]].
  - rewrite getEdgesFromNodes_cons, in_app_iff, IH, in_map_iff. split.
    + intros [[s [<- Hs]]|[n [s [Hn [Hs He]]]]].
      * exists m, s. split; [now left | auto].
      * exists n, s. split; [now right | auto].
    + intros [n [s [[<-|Hn] [Hs He]]]].
      * left. exists s. auto.
      * right. exists n, s. auto.
Qed.

Lemma name_recreate n ra : name (task (data (recreate n ra))) = name (task (data n)).
Proof. unfold recreate, getNodeCreator. now destruct (type n). Qed.

Lemma name_updateNode m n :
  name (task (data (updateNode m n))) = name (task (data n)).
Proof.
  rewrite updateNode_lookup.
  destruct (0 <? List.length (lookup m (id n)))%nat; [apply name_recreate | reflexivity].
Qed.

Lemma In_handleParallelToParallelNodes nodes n' :
  In n' (handleParallelToParallelNodes nodes) ->
  (exists g, In g (multiParallelToParallelList nodes) /\ n' = spacerNode g)
  \/ (exists n, In n nodes
                /\ n' = updateNode (newRunAfterNodeMap (multiParallelToParallelList nodes)) n).
Proof.
  rewrite handleParallelToParallelNodes_unfold.
  destruct (multiParallelToParallelList nodes) as [|g0 gs] eqn:E.
  - intros H. right. exists n'. split; [assumption |].
    rewrite updateNode_lookup, lookup_newRunAfterNodeMap. reflexivity.
  - cbn [List.length Nat.eqb]. intros H. apply in_app_or in H.
    destruct H as [H|H]; apply in_map_iff in H; destruct H as [a [<- Ha]].
    + left. eauto.
    + right. eauto.
Qed.

Lemma lookup_newRunAfterNodeMap_In
      (groups : list (list (ParallelNodeReference Extra PipelineRunKind)))
      (nid s : string) :
  In s (lookup (newRunAfterNodeMap groups) nid) ->
  exists g r, In g groups /\ In r g /\ id (node r) = nid /\ s = parallelSpacerName g.
Proof.
  rewrite lookup_newRunAfterNodeMap, in_flat_map. intros [g [Hg Hs]].
  apply in_map_iff in Hs. destruct Hs as [x [<- Hx]].
  apply filter_In in Hx. destruct Hx as [Hx Heq]. apply String.eqb_eq in Heq. subst x.
  unfold p2pNames in Hx. apply in_map_iff in Hx. destruct Hx as [r [Hr Hin]].
  exists g, r. auto.
Qed.

(** The predecessors of the spacer of a group are those of its first
    member, a node of the input. *)
Lemma spacerNode_runAfter nodes g :
  In g (multiParallelToParallelList nodes) ->
  exists k r, g = refsOf k nodes 0 /\ In r g /\ In (node r) nodes
              /\ keyOf (node r) = Some k
              /\ nodeRunAfter (spacerNode g) = Some (nullish (nodeRunAfter (node r)) []).
Proof.
  intros Hin. pose proof (p2p_length _ _ Hin) as Hlen.
  destruct (multiParallelToParallelList_refsOf _ _ Hin) as [k [E _]].
  destruct g as [|r g]; [simpl in Hlen; lia |].
  assert (Hr : In r (refsOf k nodes 0)) by (rewrite <- E; now left).
  exists k, r. split; [assumption |]. split; [now left |].
  destruct (refsOf_In _ _ _ _ Hr) as [Hn Hk]. split; [assumption |].
  split; [assumption |].
  unfold nodeRunAfter at 1, spacerNode, p2pRunAfter. simpl.
  now rewrite (refsOf_runAfter _ _ _ _ Hr).
Qed.

(** Every predecessor named in the output is the id of a spacer or a
    predecessor named in the input. *)
Lemma handleParallelToParallelNodes_sources nodes n' (s : string) :
  In n' (handleParallelToParallelNodes nodes) ->
  In s (nullish (nodeRunAfter n') []) ->
  In s (map parallelSpacerName (multiParallelToParallelList nodes))
  \/ exists n, In n nodes /\ In s (nullish (nodeRunAfter n) []).
Proof.
  intros Hn' Hs.
  destruct (In_handleParallelToParallelNodes _ _ Hn') as [[g [Hg ->]]|[n [Hn ->]]].
  - right. destruct (spacerNode_runAfter _ _ Hg) as [k [r [_ [_ [Hr [_ Hra]]]]]].
    rewrite Hra in Hs. eauto.
  - rewrite updateNode_lookup in Hs.
    destruct (0 <? List.length (lookup _ (id n)))%nat.
    + left. rewrite nodeRunAfter_recreate in Hs. simpl in Hs.
      apply lookup_newRunAfterNodeMap_In in Hs.
      destruct Hs as [g [r [Hg [_ [_ ->]]]]]. now apply in_map.
    + right. eauto.
Qed.

(** Dependencies are kept.  With distinct node ids, none of which names a
    member of [Object.prototype], and predecessor names without ['|'], every
    dependency of the input (a node [n] running after [s]) is in the
    normalized graph either the edge from [s] to [n], or the edge from [s]
    to a spacer followed by the edge from that spacer to [n]. *)
Theorem dependencies_preserved nodes n (s : string) :
  NoDup (map id nodes) ->
  (forall m, In m nodes -> inherited (id m) = false) ->
  (forall m p, In m nodes -> In p (nullish (nodeRunAfter m) []) -> pipeFree p) ->
  In n nodes -> In s (nullish (nodeRunAfter n) []) ->
  In {| e_id := (s ++ "~to~" ++ name (task (data n)))%string; e_type := "edge";
        source := s; target := name (task (data n)) |}
     (getEdgesFromNodes (handleParallelToParallelNodes nodes))
  \/ exists g,
      In g (multiParallelToParallelList nodes)
      /\ In {| e_id := (s ++ "~to~" ++ parallelSpacerName g)%string; e_type := "edge";
               source := s; target := parallelSpacerName g |}
            (getEdgesFromNodes (handleParallelToParallelNodes nodes))
      /\ In {| e_id := (parallelSpacerName g ++ "~to~" ++ name (task (data n)))%string;
               e_type := "edge";
               source := parallelSpacerName g; target := name (task (data n)) |}
            (getEdgesFromNodes (handleParallelToParallelNodes nodes)).
Proof.
  intros Hnd _ Hfree Hn Hs.
  destruct (member_or_not nodes n Hn) as [[g [r [Hg [Hr Heq]]]]|Hout].
  - right. exists g. split; [assumption |].
    assert (Hne : multiParallelToParallelList nodes <> []).
    { intros E. rewrite E in Hg. contradiction. }
    split.
    + apply getEdgesFromNodes_In. exists (spacerNode g), s.
      split; [now apply In_spacerNode |]. split; [| reflexivity].
      destruct (spacerNode_runAfter _ _ Hg) as [k [r0 [Eg [Hr0 [Hn0 [Hk0 Hra]]]]]].
      rewrite Hra. simpl.
      assert (Hk : keyOf n = Some k).
      { rewrite Eg in Hr. apply refsOf_In in Hr. rewrite <- Heq. tauto. }
      apply (same_key_same_predecessors n (node r0) (k:=k)); auto.
      * intros p. now apply Hfree.
      * intros p. now apply Hfree.
    + apply getEdgesFromNodes_In.
      exists (updateNode (newRunAfterNodeMap (multiParallelToParallelList nodes)) n),
             (parallelSpacerName g).
      split; [now apply In_updateNode |]. split.
      * rewrite updateNode_lookup, <- Heq, (lookup_member _ _ _ Hnd Hg Hr).
        cbn [List.length Nat.ltb Nat.leb]. rewrite nodeRunAfter_recreate. now left.
      * now rewrite name_updateNode.
  - left. apply getEdgesFromNodes_In. exists n, s.
    split; [| auto].
    destruct (In_dec_groups nodes) as [E|Hne].
    + rewrite handleParallelToParallelNodes_unfold, E. assumption.
    + rewrite <- (@lookup_nonmember _ _ _ _ nodes n Hnd Hn Hout) at 1.
      now apply In_updateNode.
Qed.

(** No dependency is invented.  With distinct node ids and predecessor
    names without ['|'], every edge of the normalized graph is a dependency
    of the input, or leads from a predecessor common to all members of a
    group to the group's spacer, or from the spacer of a group to one of its
    members. *)
Theorem no_dependency_invented nodes (e : Edge) :
  NoDup (map id nodes) ->
  (forall m p, In m nodes -> In p (nullish (nodeRunAfter m) []) -> pipeFree p) ->
  In e (getEdgesFromNodes (handleParallelToParallelNodes nodes)) ->
  (exists n, In n nodes /\ In (source e) (nullish (nodeRunAfter n) [])
             /\ target e = name (task (data n)))
  \/ (exists g, In g (multiParallelToParallelList nodes)
                /\ target e = parallelSpacerName g
                /\ forall r, In r g -> In (source e) (nullish (nodeRunAfter (node r)) []))
  \/ (exists g r, In g (multiParallelToParallelList nodes) /\ In r g
                  /\ source e = parallelSpacerName g
                  /\ target e = name (task (data (node r)))).
Proof.
  intros Hnd Hfree He. apply getEdgesFromNodes_In in He.
  destruct He as [n' [s [Hn' [Hs ->]]]]. simpl.
  destruct (In_handleParallelToParallelNodes _ _ Hn') as [[g [Hg ->]]|[n [Hn ->]]].
  - right. left. exists g. split; [assumption |]. split; [reflexivity |].
    destruct (spacerNode_runAfter _ _ Hg) as [k [r0 [Eg [Hr0 [Hn0 [Hk0 Hra]]]]]].
    rewrite Hra in Hs. simpl in Hs. intros r Hr.
    assert (Hr' : In r (refsOf k nodes 0)) by now rewrite <- Eg.
    apply refsOf_In in Hr'. destruct Hr' as [Hnr Hkr].
    apply (same_key_same_predecessors (node r0) (node r) (k:=k)); auto.
    + intros p. now apply Hfree.
    + intros p. now apply Hfree.
  - rewrite name_updateNode.
    destruct (member_or_not nodes n Hn) as [[g [r [Hg [Hr Heq]]]]|Hout].
    + right. right. exists g, r. split; [assumption |]. split; [assumption |].
      rewrite updateNode_lookup, <- Heq, (lookup_member _ _ _ Hnd Hg Hr) in Hs.
      cbn [List.length Nat.ltb Nat.leb] in Hs. rewrite nodeRunAfter_recreate in Hs.
      destruct Hs as [<-|[]]. now rewrite Heq.
    + left. rewrite (@lookup_nonmember _ _ _ _ nodes n Hnd Hn Hout) in Hs. eauto.
Qed.

End Normalization.

(** ** The sinks of the normalized graph *)

Section Sinks.

Context {Extra PipelineRunKind : Type}.
Context {C : Const} {L : Locale}.

Local Abbreviation Node := (Node Extra PipelineRunKind).

Implicit Types (nodes : list Node) (n : Node).

Lemma not_predecessor_false nodes (i : string) :
  negb (includes i (uniq (flat_map (fun n => nullish (nodeRunAfter n) []) nodes)))
  = false
  <-> exists n, In n nodes /\ In i (nullish (nodeRunAfter n) []).
Proof.
  rewrite negb_false_iff, includes_In, uniq_In, in_flat_map. tauto.
Qed.

Lemma bool_eq_of_false_iff (a b : bool) : (a = false <-> b = false) -> a = b.
Proof. destruct a, b; intuition congruence. Qed.

(** A name that is no spacer id is a predecessor in the output exactly when
    it is one in the input. *)
Lemma predecessors_kept nodes (i : string) :
  NoDup (map id nodes) ->
  (forall m p, In m nodes -> In p (nullish (nodeRunAfter m) []) -> pipeFree p) ->
  ~ In i (map parallelSpacerName (multiParallelToParallelList nodes)) ->
  (exists n', In n' (handleParallelToParallelNodes nodes)
              /\ In i (nullish (nodeRunAfter n') []))
  <-> exists n, In n nodes /\ In i (nullish (nodeRunAfter n) []).
Proof.
  intros Hnd Hfree Hi. split.
  - intros [n' [Hn' Hin]].
    destruct (handleParallelToParallelNodes_sources _ _ _ Hn' Hin) as [H|H];
      [contradiction | assumption].
  - intros [n [Hn Hin]].
    destruct (member_or_not nodes n Hn) as [[g [r [Hg [Hr Heq]]]]|Hout].
    + exists (spacerNode g). split; [now apply In_spacerNode |].
      destruct (spacerNode_runAfter _ _ Hg) as [k [r0 [Eg [Hr0 [Hn0 [Hk0 Hra]]]]]].
      rewrite Hra. simpl.
      assert (Hk : keyOf n = Some k).
      { rewrite Eg in Hr. apply refsOf_In in Hr. rewrite <- Heq. tauto. }
      apply (same_key_same_predecessors n (node r0) (k:=k)); auto.
      * intros p. now apply Hfree.
      * intros p. now apply Hfree.
    + exists n. split; [| assumption].
      destruct (In_dec_groups nodes) as [E|Hne].
      * rewrite handleParallelToParallelNodes_unfold, E. assumption.
      * rewrite <- (@lookup_nonmember _ _ _ _ nodes n Hnd Hn Hout) at 1.
        now apply In_updateNode.
Qed.

(** The id of a spacer is a predecessor in the output. *)
Lemma spacer_is_predecessor nodes g :
  NoDup (map id nodes) ->
  In g (multiParallelToParallelList nodes) ->
  exists n', In n' (handleParallelToParallelNodes nodes)
             /\ In (parallelSpacerName g) (nullish (nodeRunAfter n') []).
Proof.
  intros Hnd Hg.
  destruct (spacerNode_runAfter _ _ Hg) as [k [r [_ [Hr [Hn _]]]]].
  exists (updateNode (newRunAfterNodeMap (multiParallelToParallelList nodes)) (node r)).
  split.
  - apply In_updateNode; [assumption |]. intros E. rewrite E in Hg. contradiction.
  - rewrite updateNode_lookup, (lookup_member _ _ _ Hnd Hg Hr).
    cbn [List.length Nat.ltb Nat.leb]. rewrite nodeRunAfter_recreate. now left.
Qed.

(** The normalization keeps the sinks.  For a node list with distinct
    ids, none of which names a member of [Object.prototype], predecessor
    names without ['|'] and no node bearing the id of a spacer, the last
    regular tasks of the normalized list are those of the list itself: no
    spacer is among them and no sink is lost. *)
Theorem getLastRegularTasks_normalized nodes :
  NoDup (map id nodes) ->
  (forall m, In m nodes -> inherited (id m) = false) ->
  (forall m p, In m nodes -> In p (nullish (nodeRunAfter m) []) -> pipeFree p) ->
  (forall n, In n nodes ->
             ~ In (id n) (map parallelSpacerName (multiParallelToParallelList nodes))) ->
  getLastRegularTasks (handleParallelToParallelNodes nodes)
  = getLastRegularTasks nodes.
Proof.
  intros Hnd _ Hfree Hids.
  rewrite !getLastRegularTasks_filter, id_handleParallelToParallelNodes, filter_app.
  rewrite filter_none.
  - simpl. apply filter_ext_in. intros i Hi.
    apply bool_eq_of_false_iff. rewrite !not_predecessor_false.
    apply predecessors_kept; try assumption.
    apply in_map_iff in Hi. destruct Hi as [n [<- Hn]]. now apply Hids.
  - intros sp Hsp. apply not_predecessor_false.
    apply in_map_iff in Hsp. destruct Hsp as [g [<- Hg]].
    now apply spacer_is_predecessor.
Qed.

End Sinks.

(** ** What the graph depends on *)

Section Shapes.

Context {Extra PipelineRunKind : Type}.
Context {C : Const} {L : Locale}.

Local Abbreviation Node := (Node Extra PipelineRunKind).
Local Abbreviation Ref := (ParallelNodeReference Extra PipelineRunKind).

Implicit Types (nodes : list Node) (n : Node).

Local Abbreviation stripDict :=
  (map (fun kv : string * list Ref => (fst kv, map stripRef (snd kv)))).

Lemma nodeShape_strip n : nodeShape (strip n) = nodeShape n.
Proof. reflexivity. Qed.

Lemma strip_strip n : strip (strip n) = strip n.
Proof. reflexivity. Qed.

Lemma strip_of_shape n n' : nodeShape n = nodeShape n' -> strip n = strip n'.
Proof.
  unfold nodeShape, strip. intros [= Hid Hty Hname Hra].
  now rewrite Hid, Hty, Hname, Hra.
Qed.

Lemma map_strip_of_shapes nodes nodes' :
  map nodeShape nodes = map nodeShape nodes' -> map strip nodes = map strip nodes'.
Proof.
  revert nodes'. induction nodes as [|n l IH]; intros [|n' l'] H;
    try discriminate; [reflexivity |].
  simpl in H. inversion H as [[Hid Hty Hname Hra Hl]]. simpl.
  rewrite (IH _ Hl). f_equal. apply strip_of_shape. unfold nodeShape.
  now rewrite Hid, Hty, Hname, Hra.
Qed.

Lemma map_shapes_of_strip nodes nodes' :
  map strip nodes = map strip nodes' -> map nodeShape nodes = map nodeShape nodes'.
Proof.
  intros H. apply (f_equal (map nodeShape)) in H. rewrite !map_map in H.
  exact H.
Qed.

Lemma filter_map_comm {A B} (f : A -> B) (P : B -> bool) (Q : A -> bool)
      (l : list A) :
  (forall a, P (f a) = Q a) -> filter P (map f l) = map f (filter Q l).
Proof.
  intros H. induction l as [|a l IH]; simpl; [reflexivity |].
  rewrite H. destruct (Q a); simpl; now rewrite IH.
Qed.

Lemma push_stripRef (m : dict Ref) (k : string) (r : Ref) :
  push (stripDict m) k (stripRef r) = stripDict (push m k r).
Proof.
  induction m as [|[k' v] m IH]; simpl; [reflexivity |].
  destruct (String.eqb k k'); simpl.
  - now rewrite map_app.
  - now rewrite IH.
Qed.

Lemma collect_strip (m : dict Ref) n idx :
  collect (stripDict m) (strip n) idx = stripDict (collect m n idx).
Proof.
  unfold collect. change (nodeRunAfter (strip n)) with (nodeRunAfter n).
  destruct (nodeRunAfter n) as [ra|]; [| reflexivity].
  destruct (1 <? List.length ra)%nat; [| reflexivity].
  apply (push_stripRef m (runAfterKey ra)
                       {| node := n; ref_runAfter := ra; atIndex := idx |}).
Qed.

Lemma reduceFrom_strip (l : list Node) idx (m : dict Ref) :
  reduceFrom collect (map strip l) idx (stripDict m)
  = stripDict (reduceFrom collect l idx m).
Proof.
  revert idx m. induction l as [|n l IH]; intros idx m; simpl; [reflexivity |].
  rewrite collect_strip. apply IH.
Qed.

(** The groups of the stripped list are the stripped groups of the list. *)
Lemma multiParallelToParallelList_strip nodes :
  multiParallelToParallelList (map strip nodes)
  = map (map stripRef) (multiParallelToParallelList nodes).
Proof.
  unfold multiParallelToParallelList, multipleRunBeforeMap, reduce, values.
  change (@nil (string * list Ref)) with (stripDict (@nil (string * list Ref))) at 1.
  rewrite reduceFrom_strip, map_map. simpl.
  rewrite <- (map_map snd (map stripRef)).
  apply filter_map_comm. intros v. now rewrite length_map.
Qed.

Lemma p2pNames_stripRef (g : list Ref) : p2pNames (map stripRef g) = p2pNames g.
Proof. unfold p2pNames. rewrite map_map. reflexivity. Qed.

Lemma parallelSpacerName_stripRef (g : list Ref) :
  parallelSpacerName (map stripRef g) = parallelSpacerName g.
Proof. unfold parallelSpacerName. now rewrite p2pNames_stripRef. Qed.

Lemma spacerNode_stripRef (g : list Ref) : spacerNode (map stripRef g) = spacerNode g.
Proof.
  unfold spacerNode. rewrite parallelSpacerName_stripRef.
  destruct g; reflexivity.
Qed.

Lemma newRunAfterNodeMap_strip (groups : list (list Ref)) :
  newRunAfterNodeMap (map (map stripRef) groups) = newRunAfterNodeMap groups.
Proof.
  unfold newRunAfterNodeMap. rewrite !forEach_insertSpacer. simpl.
  generalize (@nil (string * list string)) as m.
  induction groups as [|g groups IH]; intros m; simpl; [reflexivity |].
  rewrite p2pNames_stripRef, parallelSpacerName_stripRef. apply IH.
Qed.

Lemma strip_updateNode (m : dict string) n :
  strip (updateNode m (strip n)) = strip (updateNode m n).
Proof.
  rewrite !updateNode_lookup. change (id (strip n)) with (id n).
  destruct (0 <? List.length (lookup m (id n)))%nat; [| reflexivity].
  unfold strip, recreate, getNodeCreator. simpl. now destruct (type n).
Qed.

(** The shapes of the normalized list depend on the shapes of the list
    alone. *)
Lemma strip_handleParallelToParallelNodes nodes :
  map strip (handleParallelToParallelNodes (map strip nodes))
  = map strip (handleParallelToParallelNodes nodes).
Proof.
  rewrite !handleParallelToParallelNodes_unfold, multiParallelToParallelList_strip,
    length_map.
  destruct (List.length (multiParallelToParallelList nodes) =? 0)%nat.
  - rewrite map_map. reflexivity.
  - rewrite newRunAfterNodeMap_strip, !map_app, !map_map. f_equal.
    + apply map_ext. intros g. now rewrite spacerNode_stripRef.
    + apply map_ext. intros n. apply strip_updateNode.
Qed.

Lemma handleParallelToParallelNodes_shapes nodes nodes' :
  map nodeShape nodes = map nodeShape nodes' ->
  map strip (handleParallelToParallelNodes nodes)
  = map strip (handleParallelToParallelNodes nodes').
Proof.
  intros H. apply map_strip_of_shapes in H.
  rewrite <- (strip_handleParallelToParallelNodes nodes),
    <- (strip_handleParallelToParallelNodes nodes'), H.
  reflexivity.
Qed.

Lemma getEdgesFromNodes_strip nodes :
  getEdgesFromNodes (map strip nodes) = getEdgesFromNodes nodes.
Proof.
  induction nodes as [|n l IH]; [reflexivity |].
  simpl map. rewrite !getEdgesFromNodes_cons, IH. reflexivity.
Qed.

Lemma getLastRegularTasks_strip nodes :
  getLastRegularTasks (map strip nodes) = getLastRegularTasks nodes.
Proof.
  rewrite !getLastRegularTasks_filter, map_map.
  replace (flat_map (fun n => nullish (nodeRunAfter n) []) (map strip nodes))
    with (flat_map (fun n => nullish (nodeRunAfter n) []) nodes);
    [reflexivity |].
  induction nodes as [|n l IH]; simpl; [reflexivity | now rewrite IH].
Qed.

End Shapes.

(** ** Edges of the topology *)

Section TopologyEdges.

Context {Extra PipelineRunKind : Type}.
Context {C : Const} {L : Locale} {U : @PipelineUtils Extra PipelineRunKind}.

Local Abbreviation Node := (Node Extra PipelineRunKind).
Local Abbreviation PipelineKind := (PipelineKind Extra).

Implicit Types (nodes : list Node) (n : Node) (run : option PipelineRunKind).

(** The normalization keeps "the task of a node bears the id of the
    node". *)
Lemma handleParallelToParallelNodes_names nodes :
  (forall n, In n nodes -> name (task (data n)) = id n) ->
  forall n', In n' (handleParallelToParallelNodes nodes) ->
             name (task (data n')) = id n'.
Proof.
  intros H n' Hn'.
  destruct (In_handleParallelToParallelNodes _ _ Hn') as [[g [Hg ->]]|[n [Hn ->]]].
  - reflexivity.
  - rewrite name_updateNode, id_updateNode. auto.
Qed.

Lemma taskNodeList_In taskList (pipeline : option PipelineKind) run n :
  In n (taskNodeList taskList pipeline run) ->
  exists t, In t taskList /\ id n = pt_name t /\ name (task (data n)) = pt_name t
            /\ nodeRunAfter n = pt_runAfter t.
Proof.
  intros Hn. apply in_map_iff in Hn. destruct Hn as [t [<- Ht]]. eauto.
Qed.

(** The nodes of a topology: the normalized task nodes, followed by the
    finally node when the pipeline has a [finally] list. *)
Lemma topology_nodes (p : PipelineKind) run nodes edges :
  getTopologyNodesEdges p run = Returned (nodes, edges) ->
  edges = getEdgesFromNodes nodes
  /\ exists tail,
      nodes = handleParallelToParallelNodes
                (taskNodeList (flatten (getPipelineTasks p run)) (Some p) run)
              ++ tail
      /\ forall f, In f tail ->
                   id f = "finally-node"
                   /\ name (task (data f)) = "finally-node"
                   /\ nodeRunAfter f
                      = Some (getLastRegularTasks
                                (handleParallelToParallelNodes
                                   (taskNodeList (flatten (getPipelineTasks p run))
                                                 (Some p) run))).
Proof.
  intros Hres. unfold getTopologyNodesEdges in Hres.
  rewrite tasksToNodes_taskNodeList in Hres.
  set (taskNodes := handleParallelToParallelNodes _) in *.
  unfold connectFinallyTasksToNodes in Hres.
  destruct (optChain (spec p) finally) as [fin|]; simpl in Hres;
    injection Hres as <- <-; (split; [reflexivity |]).
  - eexists. split; [reflexivity |].
    intros f [<-|[]]. repeat split; reflexivity.
  - exists []. split; [now rewrite app_nil_r | intros f []].
Qed.

(** Every edge of a topology ends at a node of the topology; when every
    [runAfter] name of the task list is the name of a task of the list, every
    edge also starts at a node of the topology. *)
Theorem topology_edges_connect_nodes (p : PipelineKind) run nodes edges :
  getTopologyNodesEdges p run = Returned (nodes, edges) ->
  (forall e, In e edges -> In (target e) (map id nodes))
  /\ ((forall t s, In t (flatten (getPipelineTasks p run)) ->
                   In s (nullish (pt_runAfter t) []) ->
                   In s (map (@pt_name _) (flatten (getPipelineTasks p run)))) ->
      forall e, In e edges -> In (source e) (map id nodes)).
Proof.
  intros Hres. destruct (topology_nodes _ _ Hres) as [-> [tail [-> Htail]]].
  set (nodeList := taskNodeList _ _ _) in *.
  assert (Hnames : forall n, In n (handleParallelToParallelNodes nodeList) ->
                             name (task (data n)) = id n).
  { apply handleParallelToParallelNodes_names. intros n Hn.
    apply taskNodeList_In in Hn. destruct Hn as [t [_ [-> [-> _]]]]. reflexivity. }
  split.
  - intros e He. apply getEdgesFromNodes_In in He.
    destruct He as [n [s [Hn [_ ->]]]]. simpl.
    apply in_app_or in Hn. destruct Hn as [Hn|Hn].
    + rewrite (Hnames n Hn). apply in_map. apply in_or_app. now left.
    + destruct (Htail n Hn) as [Hid [-> _]]. rewrite <- Hid.
      apply in_map. apply in_or_app. now right.
  - intros Hrefs e He. apply getEdgesFromNodes_In in He.
    destruct He as [n [s [Hn [Hs ->]]]]. simpl.
    rewrite map_app. apply in_or_app. left.
    apply in_app_or in Hn. destruct Hn as [Hn|Hn].
    + rewrite id_handleParallelToParallelNodes. apply in_or_app.
      destruct (handleParallelToParallelNodes_sources _ _ _ Hn Hs)
        as [Hsp|[n0 [Hn0 Hs0]]]; [now left | right].
      unfold nodeList. rewrite taskNodeList_ids.
      apply taskNodeList_In in Hn0. destruct Hn0 as [t [Ht [_ [_ Hra]]]].
      rewrite Hra in Hs0. eauto.
    + destruct (Htail n Hn) as [_ [_ Hra]]. rewrite Hra in Hs. simpl in Hs.
      apply getLastRegularTasks_In in Hs. tauto.
Qed.

(** *** What the ids and the edges depend on *)

Lemma taskNodeList_shapes taskList taskList' (pipeline pipeline' : option PipelineKind)
      run run' :
  map taskShape taskList = map taskShape taskList' ->
  map nodeShape (taskNodeList taskList pipeline run)
  = map nodeShape (taskNodeList taskList' pipeline' run').
Proof.
  unfold taskNodeList. rewrite !map_map.
  revert taskList'. induction taskList as [|t l IH]; intros [|t' l'] H;
    try discriminate; [reflexivity |].
  simpl in H. inversion H as [[Hname Hra Hl]]. simpl.
  rewrite (IH _ Hl). f_equal. unfold nodeShape, nodeRunAfter. simpl.
  now rewrite Hname, Hra.
Qed.


(** *** Unique node ids *)

Lemma prefix_parallelSpacerName
      (g : list (ParallelNodeReference Extra PipelineRunKind)) :
  String.prefix "parallel-" (parallelSpacerName g) = true.
Proof.
  unfold parallelSpacerName. simpl. now destruct (join "-" (p2pNames g)).
Qed.

(** With distinct node ids and no ['-'] in the ids of the nodes that have
    more than one predecessor, two groups with the same spacer name are the
    same group. *)
Lemma parallelSpacerName_members_inj nodes g1 g2 :
  NoDup (map id nodes) ->
  (forall n, In n nodes -> 1 < List.length (nullish (nodeRunAfter n) []) ->
             hyphenFree (id n)) ->
  In g1 (multiParallelToParallelList nodes) ->
  In g2 (multiParallelToParallelList nodes) ->
  parallelSpacerName g1 = parallelSpacerName g2 -> g1 = g2.
Proof.
  intros Hnd Hfree H1 H2 E.
  assert (Hmem : forall g s, In g (multiParallelToParallelList nodes) ->
                             In s (p2pNames g) -> hyphenFree s).
  { intros g s Hg Hs. unfold p2pNames in Hs. apply in_map_iff in Hs.
    destruct Hs as [r [<- Hr]].
    destruct (multiParallelToParallelList_refsOf _ _ Hg) as [k [Eg _]].
    rewrite Eg in Hr. apply refsOf_In in Hr. destruct Hr as [Hn Hk].
    apply Hfree; [assumption |].
    destruct (keyOf_Some _ Hk) as [ra [Hra [Hlen _]]]. now rewrite Hra. }
  destruct (p2pNames_members _ _ H1) as [N1 M1].
  destruct (p2pNames_members _ _ H2) as [N2 M2].
  assert (Hnames : p2pNames g1 = p2pNames g2).
  { unfold parallelSpacerName in E. simpl in E. injection E as E.
    apply join_hyphen_inj; try assumption; apply Forall_forall; intros s Hs.
    - now apply (Hmem g1).
    - now apply (Hmem g2). }
  destruct g1 as [|r1 g1]; [now elim N1 |].
  destruct (M2 (id (node r1))) as [_ [r2 [Hr2 Hid]]].
  { rewrite <- Hnames. now left. }
  eapply groups_disjoint with (r := r1) (r' := r2);
    [exact Hnd | exact H1 | exact H2 | now left | exact Hr2 | now symmetry].
Qed.

(** C8, as the code has it.  The node ids of a returned topology are
    pairwise distinct when the task names are pairwise distinct, no task is
    named ['finally-node'], no task name starts with ['parallel-'], and the
    name of every task with more than one predecessor (the tasks that can be
    members of a group) has no ['-']. *)
Theorem node_ids_unique (p : PipelineKind) run nodes edges :
  getTopologyNodesEdges p run = Returned (nodes, edges) ->
  NoDup (map (@pt_name _) (flatten (getPipelineTasks p run))) ->
  (forall t, In t (flatten (getPipelineTasks p run)) ->
             pt_name t <> "finally-node"
             /\ String.prefix "parallel-" (pt_name t) = false) ->
  (forall t, In t (flatten (getPipelineTasks p run)) ->
             1 < List.length (nullish (pt_runAfter t) []) ->
             hyphenFree (pt_name t)) ->
  NoDup (map id nodes).
Proof.
  intros Hres Hnames Hsyn Hfree.
  destruct (topology_ids _ _ Hres) as [_ [tail [Hout Htail]]].
  rewrite Hout. apply ids_NoDup; try assumption.
  - apply NoDup_map_inj_on; [apply multiParallelToParallelList_NoDup |].
    intros g1 g2. apply parallelSpacerName_members_inj.
    + now rewrite taskNodeList_ids.
    + intros n Hn Hlen. apply taskNodeList_In in Hn.
      destruct Hn as [t [Ht [-> [_ Hra]]]]. rewrite Hra in Hlen. auto.
  - intros s Hs Hin. apply in_map_iff in Hs. destruct Hs as [g [<- _]].
    apply in_map_iff in Hin. destruct Hin as [t [Hname Ht]].
    destruct (Hsyn t Ht) as [_ Hpre].
    rewrite Hname, prefix_parallelSpacerName in Hpre. discriminate.
  - intros Hin. apply in_map_iff in Hin. destruct Hin as [t [Hname Ht]].
    destruct (Hsyn t Ht) as [Hne _]. contradiction.
  - apply finally_node_is_no_spacer_id.
Qed.

End TopologyEdges.

(** ** Properties of the builder hooks *)

Section BuilderProperties.

Context {C : Const} {L : Locale} {B : BuilderConst}.

Local Abbreviation Node := (Node BuilderExtra unit).
Local Abbreviation PipelineTask := (PipelineTask BuilderExtra).

Implicit Types (nodes : list Node) (n : Node) (taskGroup : TaskGroup).

(** *** The nodes of the builder *)

Lemma keyOf_newListNode ns cl (nm : string) :
  keyOf (newListNode ns cl nm None true) = None.
Proof. reflexivity. Qed.

Lemma handleParallelToParallelNodes_single n :
  keyOf n = None -> handleParallelToParallelNodes [n] = [n].
Proof.
  intros Hk. rewrite handleParallelToParallelNodes_unfold.
  rewrite (proj2 (no_group_iff [n])); [reflexivity |].
  intros k. simpl. unfold hasKey. rewrite Hk. simpl. lia.
Qed.

(** The placeholder of an empty builder.  When the group has no task and
    at most one list task, the graph is one task-list node and the finally
    node.  The task-list node bears the name of the list task, or
    ['initial-node'] when there is none; it has no predecessor, whatever the
    list task declares, and cannot be removed; the finally node runs after
    it. *)
Theorem useNodes_single_placeholder t watchedTasks watchedClusterTasks
        (namespace : string) getError taskGroup :
  tg_tasks taskGroup = [] ->
  List.length (tg_listTasks taskGroup) <= 1 ->
  let loaded := useTasks t watchedTasks watchedClusterTasks in
  let placeholder :=
    newListNode (namespacedTasks loaded) (clusterTasks loaded)
                (nullish (option_map lt_name (List.hd_error (tg_listTasks taskGroup)))
                         "initial-node")
                None true in
  let finallyNode :=
    useConnectFinally
      (FinallyNodeProps namespace (namespacedTasks loaded) (clusterTasks loaded))
      [placeholder] (tg_finally taskGroup) in
  un_nodes (useNodes t watchedTasks watchedClusterTasks namespace getError taskGroup)
  = [placeholder; finallyNode]
  /\ type placeholder = TASK_LIST_NODE
  /\ nodeRunAfter placeholder = Some []
  /\ builder (data placeholder)
     = Some (TaskListNodeProps (namespacedTasks loaded) (clusterTasks loaded) false)
  /\ nodeRunAfter finallyNode = Some [id placeholder].
Proof.
  intros Htasks Hlist loaded placeholder finallyNode.
  assert (Hlist' : (List.length (tg_listTasks taskGroup) <=? 1)%nat = true)
    by now apply Nat.leb_le.
  split; [| repeat split; try reflexivity].
  - unfold useNodes, builderNodeList. fold loaded.
    rewrite Htasks, Hlist'. cbn [filter List.length Nat.ltb Nat.leb Nat.eqb andb map app].
    unfold soloTask. fold placeholder.
    rewrite (handleParallelToParallelNodes_single placeholder eq_refl).
    reflexivity.
Qed.

Lemma type_updateNode_builder m n :
  NodeType_eqb (type (updateNode m n)) BUILDER_NODE
  = NodeType_eqb (type n) BUILDER_NODE.
Proof.
  rewrite updateNode_lookup.
  destruct (0 <? List.length (lookup m (id n)))%nat; [| reflexivity].
  rewrite type_recreate. now destruct (type n).
Qed.

Lemma builder_ids_handleParallelToParallelNodes nodes :
  map id (filter (fun n => NodeType_eqb (type n) BUILDER_NODE)
                 (handleParallelToParallelNodes nodes))
  = map id (filter (fun n => NodeType_eqb (type n) BUILDER_NODE) nodes).
Proof.
  rewrite handleParallelToParallelNodes_unfold.
  destruct (multiParallelToParallelList nodes) as [|g gs]; [reflexivity |].
  cbn [List.length Nat.eqb]. rewrite filter_app.
  rewrite (filter_none _ (map spacerNode _)).
  - simpl. generalize (newRunAfterNodeMap (g :: gs)) as m. intros m.
    induction nodes as [|n nodes IH]; [reflexivity |].
    simpl. rewrite type_updateNode_builder.
    destruct (NodeType_eqb (type n) BUILDER_NODE); simpl;
      [rewrite id_updateNode |]; now rewrite IH.
  - intros sn Hsn. apply in_map_iff in Hsn. destruct Hsn as [g' [<- _]]. reflexivity.
Qed.

Lemma tasksToBuilderNodes_ids (taskList : list PipelineTask) getError selectedIds :
  map id (tasksToBuilderNodes taskList getError selectedIds)
  = map (@pt_name _) taskList.
Proof. unfold tasksToBuilderNodes. rewrite map_map. reflexivity. Qed.

Lemma filter_all {A} (f : A -> bool) (l : list A) :
  (forall a, In a l -> f a = true) -> filter f l = l.
Proof.
  induction l as [|a l IH]; simpl; intros H; [reflexivity |].
  rewrite H by now left. f_equal. apply IH. auto.
Qed.

Lemma builderNodeList_builder_nodes ns cl getError taskGroup :
  map id (filter (fun n => NodeType_eqb (type n) BUILDER_NODE)
                 (builderNodeList ns cl getError taskGroup))
  = map (@pt_name _) (filter (resolves ns cl) (tg_tasks taskGroup)).
Proof.
  unfold builderNodeList. rewrite !filter_app.
  rewrite (filter_none _ (map _ (filter (fun task => negb _) _))).
  - rewrite app_nil_r.
    match goal with
    | |- context [filter _ (if ?c then [?x] else ?y)] =>
        rewrite (filter_none _ (if c then [x] else y))
    end.
    + rewrite app_nil_r.
      destruct (filter (resolves ns cl) (tg_tasks taskGroup)) as [|v vs] eqn:E;
        [reflexivity |].
      cbn [List.length Nat.ltb Nat.leb].
      rewrite filter_all; [apply tasksToBuilderNodes_ids |].
      intros n Hn. apply in_map_iff in Hn. destruct Hn as [task [<- _]]. reflexivity.
    + intros n Hn.
      destruct ((List.length (tg_tasks taskGroup) =? 0)%nat
                && (List.length (tg_listTasks taskGroup) <=? 1)%nat).
      * destruct Hn as [<-|[]]. reflexivity.
      * apply in_map_iff in Hn. destruct Hn as [lt [<- _]]. reflexivity.
  - intros n Hn. apply in_map_iff in Hn. destruct Hn as [task [<- _]]. reflexivity.
Qed.

(** The task nodes of the builder.  The nodes of kind builder node are, in
    the order of the group, the tasks whose reference resolves in the loaded
    catalog (cluster tasks for a reference of the cluster kind, namespaced
    tasks otherwise); while neither catalog is available there is none. *)
Theorem useNodes_builder_nodes t watchedTasks watchedClusterTasks
        (namespace : string) getError taskGroup :
  map id (filter (fun n => NodeType_eqb (type n) BUILDER_NODE)
                 (un_nodes (useNodes t watchedTasks watchedClusterTasks namespace
                                     getError taskGroup)))
  = map (@pt_name _)
        (filter (resolves (namespacedTasks (useTasks t watchedTasks watchedClusterTasks))
                          (clusterTasks (useTasks t watchedTasks watchedClusterTasks)))
                (tg_tasks taskGroup))
  /\ (namespacedTasks (useTasks t watchedTasks watchedClusterTasks) = None ->
      clusterTasks (useTasks t watchedTasks watchedClusterTasks) = None ->
      filter (fun n => NodeType_eqb (type n) BUILDER_NODE)
             (un_nodes (useNodes t watchedTasks watchedClusterTasks namespace
                                 getError taskGroup))
      = []).
Proof.
  assert (H : map id (filter (fun n => NodeType_eqb (type n) BUILDER_NODE)
                 (un_nodes (useNodes t watchedTasks watchedClusterTasks namespace
                                     getError taskGroup)))
  = map (@pt_name _)
        (filter (resolves (namespacedTasks (useTasks t watchedTasks watchedClusterTasks))
                          (clusterTasks (useTasks t watchedTasks watchedClusterTasks)))
                (tg_tasks taskGroup))).
  { unfold useNodes. cbn [un_nodes]. rewrite filter_app.
    cbn [filter type useConnectFinally createBuilderFinallyNode createGenericNode
         NodeType_eqb].
    rewrite app_nil_r, builder_ids_handleParallelToParallelNodes.
    apply builderNodeList_builder_nodes. }
  split; [exact H |].
  intros Hns Hcl. rewrite Hns, Hcl in H.
  rewrite (filter_none (resolves None None)) in H.
  - destruct (filter _ (un_nodes _)); [reflexivity | discriminate].
  - intros task _. unfold resolves, getTask.
    now destruct (match optChain (taskRef task) ref_kind with
                  | Some k => String.eqb k ClusterTaskModel_kind
                  | None => false
                  end).
Qed.

Lemma builderNodeList_covers ns cl getError taskGroup :
  (forall task, In task (tg_tasks taskGroup) ->
                In (pt_name task) (map id (builderNodeList ns cl getError taskGroup)))
  /\ (forall listTask, In listTask (tg_listTasks taskGroup) ->
                       In (lt_name listTask)
                          (map id (builderNodeList ns cl getError taskGroup))).
Proof.
  unfold builderNodeList. split.
  - intros task Htask. rewrite !map_app, !in_app_iff.
    destruct (resolves ns cl task) eqn:E.
    + left.
      assert (Hv : In task (filter (resolves ns cl) (tg_tasks taskGroup)))
        by (apply filter_In; auto).
      destruct (filter (resolves ns cl) (tg_tasks taskGroup)) as [|v vs];
        [contradiction |].
      cbn [List.length Nat.ltb Nat.leb]. rewrite tasksToBuilderNodes_ids.
      now apply in_map.
    + right. right. rewrite map_map. cbn [id newInvalidListNode
        createInvalidTaskListNode createGenericNode].
      apply in_map. apply filter_In. split; [assumption | now rewrite E].
  - intros listTask Hlt. rewrite !map_app, !in_app_iff. right. left.
    destruct ((List.length (tg_tasks taskGroup) =? 0)%nat
              && (List.length (tg_listTasks taskGroup) <=? 1)%nat) eqn:E.
    + apply andb_true_iff in E. destruct E as [_ E]. apply Nat.leb_le in E.
      destruct (tg_listTasks taskGroup) as [|lt0 [|lt1 lts]];
        [contradiction | | simpl in E; lia].
      destruct Hlt as [<-|[]]. left. reflexivity.
    + rewrite map_map. cbn [id newListNode createTaskListNode createGenericNode].
      now apply in_map.
Qed.

(** Nothing of the group is dropped.  Every task and every list task of
    the group is the id of a node of the graph, and the last node of the graph
    is the finally node, named after the numbers of finally tasks and finally
    list tasks. *)
Theorem useNodes_covers_group t watchedTasks watchedClusterTasks
        (namespace : string) getError taskGroup :
  (forall task, In task (tg_tasks taskGroup) ->
                In (pt_name task)
                   (map id (un_nodes (useNodes t watchedTasks watchedClusterTasks
                                               namespace getError taskGroup))))
  /\ (forall listTask, In listTask (tg_listTasks taskGroup) ->
                       In (lt_name listTask)
                          (map id (un_nodes (useNodes t watchedTasks watchedClusterTasks
                                                      namespace getError taskGroup))))
  /\ exists nodes finallyNode,
      un_nodes (useNodes t watchedTasks watchedClusterTasks namespace getError taskGroup)
      = nodes ++ [finallyNode]
      /\ type finallyNode = BUILDER_FINALLY_NODE
      /\ id finallyNode
         = ("finally-node-"
              ++ numberToString (List.length (tg_finallyTasks (tg_finally taskGroup)))
              ++ "-"
              ++ numberToString (List.length (tg_finallyListTasks (tg_finally taskGroup))))%string
      /\ nodeRunAfter finallyNode = Some (getLastRegularTasks nodes).
Proof.
  destruct (builderNodeList_covers
              (namespacedTasks (useTasks t watchedTasks watchedClusterTasks))
              (clusterTasks (useTasks t watchedTasks watchedClusterTasks))
              getError taskGroup) as [Ht Hl].
  unfold useNodes. cbn [un_nodes].
  split; [| split].
  - intros task Htask. rewrite map_app, id_handleParallelToParallelNodes.
    apply in_or_app. left. apply in_or_app. right. now apply Ht.
  - intros lt Hlt. rewrite map_app, id_handleParallelToParallelNodes.
    apply in_or_app. left. apply in_or_app. right. now apply Hl.
  - eexists. eexists. split; [reflexivity |]. repeat split; reflexivity.
Qed.

End BuilderProperties.

(** ** Properties of the resource validation *)

Module JsObjectFacts.

Lemma prop_set_eq {V} (o : object V) (k : string) (v : V) :
  prop (set o k v) k = Some v.
Proof.
  induction o as [|[k' v'] o IH]; simpl.
  - now rewrite String.eqb_refl.
  - destruct (String.eqb k k') eqn:E; simpl; now rewrite E.
Qed.

Lemma prop_set_neq {V} (o : object V) (k k' : string) (v : V) :
  k' <> k -> prop (set o k v) k' = prop o k'.
Proof.
  intros Hne. induction o as [|[k0 v0] o IH]; simpl.
  - apply String.eqb_neq in Hne. now rewrite Hne.
  - destruct (String.eqb k k0) eqn:E; simpl.
    + apply String.eqb_eq in E. subst k0.
      apply String.eqb_neq in Hne. now rewrite Hne.
    + now rewrite IH.
Qed.

Lemma prop_app {V} (o1 o2 : object V) (k : string) :
  prop (o1 ++ o2) k
  = match prop o1 k with
    | Some v => Some v
    | None => prop o2 k
    end.
Proof.
  induction o1 as [|[k' v'] o1 IH]; simpl; [reflexivity |].
  now destruct (String.eqb k k').
Qed.

Lemma prop_In {V} (o : object V) (k : string) (v : V) :
  prop o k = Some v -> In (k, v) o.
Proof.
  induction o as [|[k' v'] o IH]; simpl; [discriminate |].
  destruct (String.eqb k k') eqn:E.
  - apply String.eqb_eq in E. intros [= ->]. subst. now left.
  - intros H. right. auto.
Qed.

(** Sorting with a transitive and total comparison. *)
Section SortFacts.

Variable A : Type.
Variable cmp : A -> A -> Z.
Hypothesis cmp_trans : forall a b c, (cmp a b <= 0 -> cmp b c <= 0 -> cmp a c <= 0)%Z.
Hypothesis cmp_total : forall a b, (0 < cmp a b -> cmp b a <= 0)%Z.

Lemma insert_least (x : A) (l : list A) :
  Forall (fun y => (cmp x y <= 0)%Z) l -> insert cmp x l = x :: l.
Proof.
  intros H. destruct l as [|y l]; [reflexivity |]. simpl.
  inversion H as [|? ? Hy _]; subst. apply Z.leb_le in Hy. now rewrite Hy.
Qed.

Lemma insert_sorted (x : A) (l : list A) :
  StronglySorted (fun a b => (cmp a b <= 0)%Z) l ->
  StronglySorted (fun a b => (cmp a b <= 0)%Z) (insert cmp x l).
Proof.
  induction l as [|y l IH]; intros Hs; simpl.
  - constructor; constructor.
  - inversion Hs as [|? ? Hl Hy]; subst.
    destruct (Z.leb_spec (cmp x y) 0) as [Hxy|Hxy].
    + constructor; [assumption |]. constructor; [assumption |].
      eapply Forall_impl; [| exact Hy]. intros z Hz. simpl in Hz. eauto.
    + constructor; [auto |]. apply Forall_forall. intros z Hz.
      apply insert_In in Hz. destruct Hz as [->|Hz]; [auto |].
      rewrite Forall_forall in Hy. auto.
Qed.

Lemma sort_sorted (l : list A) :
  StronglySorted (fun a b => (cmp a b <= 0)%Z) (sort cmp l).
Proof.
  induction l as [|x l IH]; simpl; [constructor | now apply insert_sorted].
Qed.

Lemma filter_insert (P : A -> bool) (x : A) (l : list A) :
  StronglySorted (fun a b => (cmp a b <= 0)%Z) l ->
  filter P (insert cmp x l)
  = if P x then insert cmp x (filter P l) else filter P l.
Proof.
  induction l as [|y l IH]; intros Hs; simpl.
  - now destruct (P x).
  - inversion Hs as [|? ? Hl Hy]; subst.
    destruct (Z.leb_spec (cmp x y) 0) as [Hxy|Hxy]; simpl.
    + destruct (P x); [| reflexivity].
      symmetry. apply insert_least. apply Forall_forall. intros z Hz.
      assert (Hin : In z (y :: l)).
      { change (if P y then y :: filter P l else filter P l)
          with (filter P (y :: l)) in Hz.
        apply filter_In in Hz. tauto. }
      destruct Hin as [<-|Hin]; [assumption |].
      rewrite Forall_forall in Hy. eauto.
    + rewrite (IH Hl). destruct (P y) eqn:Ey; [| reflexivity].
      destruct (P x); [| reflexivity]. simpl.
      destruct (Z.leb_spec (cmp x y) 0); [lia | reflexivity].
Qed.

(** Filtering commutes with sorting. *)
Lemma filter_sort (P : A -> bool) (l : list A) :
  filter P (sort cmp l) = sort cmp (filter P l).
Proof.
  induction l as [|x l IH]; simpl; [reflexivity |].
  rewrite filter_insert by apply sort_sorted. rewrite IH.
  now destruct (P x).
Qed.

End SortFacts.

Lemma filter_filter_comm {A} (f g : A -> bool) (l : list A) :
  filter f (filter g l) = filter g (filter f l).
Proof.
  induction l as [|a l IH]; simpl; [reflexivity |].
  destruct (g a) eqn:Eg, (f a) eqn:Ef; simpl; rewrite ?Eg, ?Ef, IH; reflexivity.
Qed.

(** The keys are the own keys, in the order of [Object.keys]. *)
Lemma keys_In {V} (o : object V) (k : string) :
  In k (keys o) <-> In k (map fst o).
Proof.
  unfold keys. rewrite in_app_iff, sort_In, !filter_In.
  destruct (isArrayIndex k); simpl; intuition discriminate.
Qed.

Lemma filter_keys {V} (P : string -> bool) (o : object V) :
  filter P (keys o)
  = sort compareIndex (filter isArrayIndex (filter P (map fst o)))
    ++ filter (fun k => negb (isArrayIndex k)) (filter P (map fst o)).
Proof.
  unfold keys. rewrite filter_app. f_equal.
  - rewrite filter_sort; [now rewrite filter_filter_comm | |];
      unfold compareIndex; intros; lia.
  - apply filter_filter_comm.
Qed.

Lemma prop_None {V} (o : object V) (k : string) :
  prop o k = None <-> ~ In k (keys o).
Proof.
  rewrite keys_In.
  induction o as [|[k' v'] o IH]; simpl; [tauto |].
  destruct (String.eqb k k') eqn:E.
  - apply String.eqb_eq in E. subst. split; [discriminate | intros H; elim H; now left].
  - apply String.eqb_neq in E. rewrite IH. split.
    + intros H [Heq|Hin]; [now elim E | contradiction].
    + intros H Hin. apply H. now right.
Qed.

Lemma In_keys {V} (o : object V) (k : string) (v : V) :
  In (k, v) o -> In k (keys o).
Proof.
  intros H. apply keys_In. change k with (fst (k, v)). now apply in_map.
Qed.

Lemma set_app_r {V} (o1 o2 : object V) (k : string) (v : V) :
  ~ In k (keys o1) -> set (o1 ++ o2) k v = o1 ++ set o2 k v.
Proof.
  rewrite keys_In.
  induction o1 as [|[k' v'] o1 IH]; simpl; intros H; [reflexivity |].
  destruct (String.eqb k k') eqn:E.
  - apply String.eqb_eq in E. subst. elim H. now left.
  - rewrite IH; [reflexivity |]. intros Hin. apply H. now right.
Qed.

Lemma In_set {V} (o : object V) (k k0 : string) (v v0 : V) :
  In (k, v) (set o k0 v0) -> (k = k0 /\ v = v0) \/ In (k, v) o.
Proof.
  induction o as [|[k' v'] o IH]; simpl.
  - intros [[= <- <-]|[]]. now left.
  - destruct (String.eqb k0 k') eqn:E; simpl.
    + apply String.eqb_eq in E. subst k'. intros [[= <- <-]|H]; auto.
    + intros [H|H]; [auto |]. apply IH in H. tauto.
Qed.

Lemma keys_set_In {V} (o : object V) (k k0 : string) (v0 : V) :
  In k (keys (set o k0 v0)) <-> k = k0 \/ In k (keys o).
Proof.
  rewrite !keys_In. induction o as [|[k' v'] o IH]; simpl.
  - intuition.
  - destruct (String.eqb k0 k') eqn:E; simpl.
    + apply String.eqb_eq in E. subst k'. intuition.
    + rewrite IH. intuition.
Qed.

End JsObjectFacts.

Import JsObjectFacts.

Unset Implicit Arguments.

Section ValidationProperties.

Context {C : Const} {L : Locale} {B : BuilderConst}.

Local Abbreviation PipelineTask := (PipelineTask BuilderExtra).

Implicit Types (tasks finallyTasks : list PipelineTask) (task : PipelineTask)
         (resourceValues : list TektonResource)
         (workspaceValues : list PipelineWorkspace)
         (errors acc : TaskErrorMap).

Lemma hasErrors_tagged errors (k : string) :
  tagged errors -> hasErrors errors k = true <-> In k (keys errors).
Proof.
  intros Ht. unfold hasErrors. destruct (prop errors k) as [v|] eqn:E.
  - pose proof (prop_In _ _ E) as Hin. destruct (Ht _ _ Hin) as [te ->].
    split; [| reflexivity]. intros _. exact (In_keys _ _ _ Hin).
  - apply prop_None in E. split; [discriminate | contradiction].
Qed.

Lemma hasErrors_set acc (k0 k : string) (te : list TaskErrorType) :
  hasErrors (set acc k0 (Some te)) k
  = if String.eqb k k0 then true else hasErrors acc k.
Proof.
  unfold hasErrors. destruct (String.eqb k k0) eqn:E.
  - apply String.eqb_eq in E. subst. now rewrite prop_set_eq.
  - apply String.eqb_neq in E. now rewrite prop_set_neq.
Qed.

Lemma filter_nonempty {A} (f : A -> bool) (l : list A) :
  (List.length (filter f l) =? 0)%nat = false <-> exists a, In a l /\ f a = true.
Proof.
  rewrite Nat.eqb_neq. split.
  - intros H. destruct (filter f l) as [|a l'] eqn:E; [now elim H |].
    exists a. apply filter_In. rewrite E. now left.
  - intros [a Ha] E. apply filter_In in Ha.
    destruct (filter f l); [contradiction | discriminate].
Qed.

Lemma collectErrors_reports resourceValues workspaceValues task :
  (List.length (missingResources (map tr_name resourceValues) task) =? 0)%nat
  && (List.length (missingWorkspaces (map pw_name workspaceValues) task) =? 0)%nat
  = false
  <-> refersToMissing resourceValues workspaceValues task.
Proof.
  rewrite andb_false_iff. unfold missingResources, missingWorkspaces, refersToMissing.
  rewrite filter_nonempty. split.
  - intros [[r [Hr Hin]]|H].
    + left. exists r. split; [assumption |].
      apply negb_true_iff in Hin. now apply includes_false.
    + right. destruct (taskWorkspaces task) as [ws|]; [| discriminate].
      apply filter_nonempty in H. destruct H as [w [Hw Hin]].
      exists ws, w. split; [reflexivity |]. split; [assumption |].
      apply negb_true_iff in Hin. now apply includes_false.
  - intros [[r [Hr Hin]]|[ws [w [-> [Hw Hin]]]]].
    + left. exists r. split; [assumption |].
      apply negb_true_iff. now apply includes_false.
    + right. apply filter_nonempty. exists w. split; [assumption |].
      apply negb_true_iff. now apply includes_false.
Qed.

Lemma collectErrors_hasErrors resourceValues workspaceValues
      (l : list PipelineTask) acc (nm : string) :
  hasErrors (fold_left (fun a task => collectErrors resourceValues workspaceValues a task 0)
                       l acc) nm = true
  <-> hasErrors acc nm = true
      \/ exists task, In task l /\ pt_name task = nm
                      /\ refersToMissing resourceValues workspaceValues task.
Proof.
  revert acc. induction l as [|task l IH]; intros acc; simpl.
  - split; [auto | intros [H|[task [[] _]]]; assumption].
  - rewrite IH. unfold collectErrors at 1.
    destruct ((List.length (missingResources _ task) =? 0)%nat
              && (List.length (missingWorkspaces _ task) =? 0)%nat) eqn:E.
    + assert (Hno : ~ refersToMissing resourceValues workspaceValues task).
      { intros H. apply (collectErrors_reports resourceValues workspaceValues task) in H. congruence. }
      split.
      * intros [H|[t0 [Ht0 H]]]; [auto | right; exists t0; tauto].
      * intros [H|[t0 [[<-|Ht0] [Hn H]]]]; [auto | tauto | right; eauto].
    + apply (collectErrors_reports resourceValues workspaceValues task) in E.
      rewrite hasErrors_set. destruct (String.eqb nm (pt_name task)) eqn:En.
      * apply String.eqb_eq in En. split; [| auto].
        intros _. right. exists task. auto.
      * apply String.eqb_neq in En. split.
        -- intros [H|[t0 [Ht0 H]]]; [auto | right; exists t0; tauto].
        -- intros [H|[t0 [[<-|Ht0] [Hn H]]]]; [auto | now elim En | right; eauto].
Qed.

Lemma validationErrors_fold finallyTasks tasks resourceValues workspaceValues :
  validationErrors finallyTasks tasks resourceValues workspaceValues
  = fold_left (fun a task => collectErrors resourceValues workspaceValues a task 0)
              (tasks ++ finallyTasks) [].
Proof.
  unfold validationErrors, reduce.
  apply (reduceFrom_ignore_index
           (fun a task => collectErrors resourceValues workspaceValues a task 0)).
Qed.

(** The errors of the validation.  A task name has errors exactly when a
    task or finally task of that name names, among its input and output
    resources, one that is not an available resource, or binds a workspace
    that is not an available workspace. *)
Theorem validationErrors_spec finallyTasks tasks resourceValues workspaceValues
        (nm : string) :
  hasErrors (validationErrors finallyTasks tasks resourceValues workspaceValues) nm = true
  <-> exists task,
      In task (tasks ++ finallyTasks) /\ pt_name task = nm
      /\ refersToMissing resourceValues workspaceValues task.
Proof.
  rewrite validationErrors_fold, collectErrors_hasErrors. split.
  - intros [H|H]; [discriminate | assumption].
  - auto.
Qed.

Lemma validationErrors_tagged finallyTasks tasks resourceValues workspaceValues :
  tagged (validationErrors finallyTasks tasks resourceValues workspaceValues).
Proof.
  rewrite validationErrors_fold.
  assert (H : forall (l : list PipelineTask) acc,
             tagged acc ->
             tagged (fold_left (fun a task =>
                                  collectErrors resourceValues workspaceValues a task 0)
                               l acc)).
  { induction l as [|task l IH]; intros acc Hacc; simpl; [assumption |].
    apply IH. unfold collectErrors.
    destruct ((List.length (missingResources _ task) =? 0)%nat
              && (List.length (missingWorkspaces _ task) =? 0)%nat); [assumption |].
    intros k v Hin. apply In_set in Hin. destruct Hin as [[_ ->]|Hin]; eauto. }
  apply H. intros k v [].
Qed.

Lemma truthy_own acc (k : string) :
  In k (keys acc) -> truthy acc k = hasErrors acc k.
Proof.
  intros Hin. unfold truthy, hasErrors.
  destruct (prop acc k) as [[te|]|] eqn:E; try reflexivity.
  apply prop_None in E. contradiction.
Qed.

Lemma truthy_tagged errors (k : string) :
  tagged errors -> In k (keys errors) -> truthy errors k = true.
Proof.
  intros Ht Hin. rewrite truthy_own by assumption.
  now apply (hasErrors_tagged errors k Ht).
Qed.

(** The object passed to [onError]: the errors, followed by a [null] for
    every previous id that has no errors and does not name a member of
    [Object.prototype]. *)
Lemma outputErrors_shape errors (previousErrorIds : list string) :
  tagged errors ->
  exists nulls,
    fold_left (fun acc id => if truthy acc id then acc else set acc id None)
              previousErrorIds errors
    = errors ++ nulls
    /\ (forall k v, In (k, v) nulls -> v = None)
    /\ (forall k, In k (keys nulls)
                  <-> In k previousErrorIds /\ ~ In k (keys errors)
                      /\ inherited k = false).
Proof.
  intros Ht.
  assert (H : forall prev nulls,
             (forall k v, In (k, v) nulls -> v = None) ->
             (forall k, In k (keys nulls) ->
                        ~ In k (keys errors) /\ inherited k = false) ->
             exists nulls',
               fold_left (fun acc id => if truthy acc id then acc else set acc id None)
                         prev (errors ++ nulls)
               = errors ++ nulls'
               /\ (forall k v, In (k, v) nulls' -> v = None)
               /\ (forall k, In k (keys nulls')
                             <-> In k (keys nulls)
                                 \/ (In k prev /\ ~ In k (keys errors)
                                     /\ inherited k = false))).
  { induction prev as [|x prev IH]; intros nulls Hn Hd; simpl.
    - exists nulls. split; [reflexivity |]. split; [assumption | tauto].
    - assert (Hx : truthy (errors ++ nulls) x = false <->
                   ~ In x (keys errors)
                   /\ (In x (keys nulls) \/ inherited x = false)).
      { unfold truthy. rewrite prop_app.
        destruct (prop errors x) as [v|] eqn:E.
        - pose proof (prop_In _ _ E) as Hin. destruct (Ht _ _ Hin) as [te ->].
          split; [discriminate |]. intros [Hno _]. elim Hno.
          exact (In_keys _ _ _ Hin).
        - apply prop_None in E.
          destruct (prop nulls x) as [v|] eqn:E'.
          + pose proof (prop_In _ _ E') as Hin. rewrite (Hn _ _ Hin).
            split; [| reflexivity]. intros _. split; [assumption |]. left.
            exact (In_keys _ _ _ Hin).
          + apply prop_None in E'. split.
            * intros Hi. split; [assumption |]. now right.
            * intros [_ [Hin|Hi]]; [contradiction | assumption]. }
      destruct (truthy (errors ++ nulls) x) eqn:Ex.
      + destruct (IH nulls Hn Hd) as [nulls' [H1 [H2 H3]]].
        exists nulls'. split; [assumption |]. split; [assumption |].
        intros k. rewrite H3. split; [tauto |].
        intros [H|[[<-|H] [Hk Hi]]]; [tauto | | tauto].
        assert (Hf : true = false) by (apply Hx; tauto).
        discriminate.
      + destruct (proj1 Hx eq_refl) as [Hnx Hor].
        assert (Hix : inherited x = false).
        { destruct Hor as [Hin|Hi]; [now apply Hd | assumption]. }
        rewrite set_app_r by assumption.
        destruct (IH (set nulls x None)) as [nulls' [H1 [H2 H3]]].
        * intros k v Hin. apply In_set in Hin. destruct Hin as [[_ ->]|Hin]; eauto.
        * intros k Hin. apply keys_set_In in Hin. destruct Hin as [->|Hin]; auto.
        * exists nulls'. split; [assumption |]. split; [assumption |].
          intros k. rewrite H3, keys_set_In. split.
          -- intros [[->|H]|[H Hk]]; [right; split; [now left | auto] | tauto |].
             right. split; [now right | assumption].
          -- intros [H|[[<-|H] Hk]]; tauto. }
  destruct (H previousErrorIds []) as [nulls' [H1 [H2 H3]]].
  - intros k v [].
  - intros k [].
  - rewrite app_nil_r in H1. exists nulls'. split; [assumption |].
    split; [assumption |]. intros k. rewrite H3. simpl. tauto.
Qed.

Lemma currentErrorIds_keys errors (nulls : TaskErrorMap) :
  tagged errors ->
  (forall k v, In (k, v) nulls -> v = None) ->
  (forall k, In k (keys nulls) -> ~ In k (keys errors)) ->
  filter (fun id => truthy (errors ++ nulls) id) (keys (errors ++ nulls))
  = keys errors.
Proof.
  intros Ht Hn Hd. rewrite filter_keys.
  replace (filter (fun id => truthy (errors ++ nulls) id) (map fst (errors ++ nulls)))
    with (map fst errors); [reflexivity |].
  rewrite map_app, filter_app.
  rewrite filter_all, filter_none; [now rewrite app_nil_r | |].
  - intros k Hk. apply keys_In in Hk. unfold truthy. rewrite prop_app.
    assert (E : prop errors k = None) by (apply prop_None; now apply Hd).
    rewrite E. destruct (prop nulls k) as [v|] eqn:E'.
    + apply prop_In in E'. now rewrite (Hn _ _ E').
    + apply prop_None in E'. contradiction.
  - intros k Hk. apply keys_In in Hk. unfold truthy. rewrite prop_app.
    destruct (prop errors k) as [v|] eqn:E.
    + apply prop_In in E. now destruct (Ht _ _ E) as [te ->].
    + apply prop_None in E. contradiction.
Qed.

Lemma outputErrors_fold errors (previousErrorIds : list string) :
  reduce (fun acc id (_ : nat) => if truthy acc id then acc else set acc id None)
         errors previousErrorIds
  = fold_left (fun acc id => if truthy acc id then acc else set acc id None)
              previousErrorIds errors.
Proof.
  unfold reduce.
  apply (reduceFrom_ignore_index
           (fun acc id => if truthy acc id then acc else set acc id None)).
Qed.

(** What the validation reports.  [onError] is called unless there are
    neither errors nor previous error ids.  Its argument gives every task
    name with errors its errors, gives [null] to every previous id that has no
    errors any more, unless the id names a member of [Object.prototype], and
    has no other property.  A previous id without errors that names such a
    member (['constructor'], say) is read as having errors and gets no
    [null]. *)
Theorem resourceValidationEffect_report finallyTasks tasks resourceValues
        workspaceValues (previousErrorIds : list string) :
  let errors := validationErrors finallyTasks tasks resourceValues workspaceValues in
  let effect := resourceValidationEffect finallyTasks tasks resourceValues
                                         workspaceValues previousErrorIds in
  (onErrorCall effect = None <-> errors = [] /\ previousErrorIds = [])
  /\ forall outputErrors,
      onErrorCall effect = Some outputErrors ->
      forall nm,
        prop outputErrors nm
        = if hasErrors errors nm then prop errors nm
          else if includes nm previousErrorIds && negb (inherited nm)
               then Some None
               else None.
Proof.
  intros errors effect. unfold effect, resourceValidationEffect. fold errors.
  pose proof (validationErrors_tagged finallyTasks tasks resourceValues workspaceValues)
    as Ht. fold errors in Ht.
  destruct (negb (isEmpty errors) || (0 <? List.length previousErrorIds)%nat) eqn:Ec.
  - cbn [onErrorCall]. split.
    + split; [discriminate |]. intros [He Hp]. rewrite He, Hp in Ec. discriminate.
    + intros out [= <-] nm. rewrite outputErrors_fold.
      destruct (outputErrors_shape errors previousErrorIds Ht) as [nulls [-> [Hn Hk]]].
      rewrite prop_app.
      destruct (hasErrors errors nm) eqn:Eh.
      * apply (hasErrors_tagged errors nm Ht) in Eh.
        destruct (prop errors nm) eqn:E; [reflexivity |].
        apply prop_None in E. contradiction.
      * assert (Hnk : ~ In nm (keys errors)).
        { intros H. apply (hasErrors_tagged errors nm Ht) in H. congruence. }
        assert (E : prop errors nm = None) by now apply prop_None.
        rewrite E.
        destruct (includes nm previousErrorIds && negb (inherited nm)) eqn:Ei.
        -- apply andb_true_iff in Ei. destruct Ei as [Ei Hi].
           apply includes_In in Ei. apply negb_true_iff in Hi.
           assert (Hin : In nm (keys nulls)) by (apply Hk; auto).
           destruct (prop nulls nm) as [v|] eqn:E'.
           ++ apply prop_In in E'. now rewrite (Hn _ _ E').
           ++ apply prop_None in E'. contradiction.
        -- apply prop_None. intros Hin. apply Hk in Hin.
           destruct Hin as [Hp [_ Hi]].
           apply includes_In in Hp. rewrite Hp, Hi in Ei. discriminate.
  - cbn [onErrorCall]. apply orb_false_iff in Ec. destruct Ec as [He Hp].
    split; [| discriminate]. split; [| reflexivity]. intros _.
    destruct errors; [| discriminate]. destruct previousErrorIds; [auto | discriminate].
Qed.

Lemma resourceValidationEffect_state finallyTasks tasks resourceValues
      workspaceValues (previousErrorIds : list string) :
  newPreviousErrorIds
    (resourceValidationEffect finallyTasks tasks resourceValues workspaceValues
                              previousErrorIds)
  = keys (validationErrors finallyTasks tasks resourceValues workspaceValues).
Proof.
  unfold resourceValidationEffect.
  set (errors := validationErrors finallyTasks tasks resourceValues workspaceValues).
  pose proof (validationErrors_tagged finallyTasks tasks resourceValues workspaceValues)
    as Ht. fold errors in Ht.
  destruct (negb (isEmpty errors) || (0 <? List.length previousErrorIds)%nat) eqn:Ec.
  - cbn [newPreviousErrorIds]. rewrite outputErrors_fold.
    destruct (outputErrors_shape errors previousErrorIds Ht) as [nulls [-> [Hn Hk]]].
    rewrite (currentErrorIds_keys errors nulls Ht Hn).
    + destruct (list_eq_dec string_dec (keys errors) previousErrorIds); congruence.
    + intros k Hin. apply Hk in Hin. tauto.
  - cbn [newPreviousErrorIds]. apply orb_false_iff in Ec. destruct Ec as [He Hp].
    destruct errors; [| discriminate]. destruct previousErrorIds; [auto | discriminate].
Qed.

(** The validation settles.  Whatever the previous error ids, after one
    run of the effect [previousErrorIds] is the list of the task names with
    errors; the run that this change triggers leaves it as it is, reports the
    errors alone when there are some, and reports nothing when there are
    none. *)
Theorem resourceValidationEffect_settles finallyTasks tasks resourceValues
        workspaceValues (previousErrorIds : list string) :
  let errors := validationErrors finallyTasks tasks resourceValues workspaceValues in
  let settled :=
    newPreviousErrorIds
      (resourceValidationEffect finallyTasks tasks resourceValues workspaceValues
                                previousErrorIds) in
  settled = keys errors
  /\ resourceValidationEffect finallyTasks tasks resourceValues workspaceValues settled
     = {| onErrorCall := if isEmpty errors then None else Some errors;
          newPreviousErrorIds := settled |}.
Proof.
  intros errors settled.
  assert (Hs : settled = keys errors) by apply resourceValidationEffect_state.
  split; [exact Hs |]. rewrite Hs.
  pose proof (validationErrors_tagged finallyTasks tasks resourceValues workspaceValues)
    as Ht. fold errors in Ht.
  unfold resourceValidationEffect. fold errors.
  clear Hs settled. clearbody errors.
  destruct (isEmpty errors) eqn:Hne.
  { destruct errors; [reflexivity | discriminate]. }
  cbn [negb orb]. rewrite outputErrors_fold.
  assert (Hfold : forall l : list string,
             (forall x, In x l -> truthy errors x = true) ->
             fold_left (fun acc id => if truthy acc id then acc else set acc id None)
                       l errors = errors).
  { induction l as [|x l IH]; intros H; simpl; [reflexivity |].
    rewrite (H x (or_introl eq_refl)). apply IH.
    intros y Hy. apply H. now right. }
  rewrite Hfold.
  - rewrite filter_all.
    + destruct (list_eq_dec string_dec (keys errors) (keys errors)) as [_|Hn];
        [reflexivity | now elim Hn].
    + intros x Hx. now apply truthy_tagged.
  - intros x Hx. now apply truthy_tagged.
Qed.

End ValidationProperties.

Set Implicit Arguments.

(** ** The transformation on the sample inputs *)

#[local] Existing Instance sampleConst.
#[local] Existing Instance codePointLocale.
#[local] Existing Instance sampleUtils.

(** The pair of parallel nodes on [x, y, a, c, b], where [a] runs after
    [[x, y]], [b] after [[y, x]] and [c] after [[x]]. *)
Lemma parallel_pair_gets_one_spacer_witness :
  map (fun n => (id n, nodeRunAfter n))
      (handleParallelToParallelNodes [taskX; taskY; taskA; taskC; taskBSwapped])
  = [ ("parallel-a-b", Some ["x"; "y"]); ("x", None); ("y", None);
      ("a", Some ["parallel-a-b"]); ("c", Some ["x"]);
      ("b", Some ["parallel-a-b"]) ].
Proof.
  assert (H : NoDup (map id ([taskX; taskY] ++ taskA :: [taskC] ++ taskBSwapped :: [])))
    by distinct_strings.
  assert (Hi : forall n, In n ([taskX; taskY] ++ taskA :: [taskC] ++ taskBSwapped :: []) ->
                         inherited (id n) = false).
  { intros n Hn. simpl in Hn.
    repeat (destruct Hn as [<-|Hn]; [reflexivity |]). contradiction. }
  destruct (parallel_pair_gets_one_spacer
              [taskX; taskY] [taskC] [] taskA taskBSwapped (x:="x") (y:="y")
              (rb:=["y"; "x"]) H Hi eq_refl eq_refl)
    as [Hout _].
  - simpl. lia.
  - reflexivity.
  - intros n ra Hn Hra. simpl in Hn.
    destruct Hn as [<-|[<-|[<-|[]]]]; vm_compute in Hra;
      first [discriminate Hra | injection Hra as <-; simpl; lia].
  - simpl in Hout. rewrite Hout. reflexivity.
Defined.

(** C2 on the nodes [x, y, a, b, c] and a pipeline with one finally task:
    the sinks are [a], [b] and [c]. *)
Lemma finally_node_runs_after_sinks_witness :
  exists finallyGroupNode,
    connectFinallyTasksToNodes [taskX; taskY; taskA; taskB; taskC]
                               (Some pipelineWithFinally) None
    = Returned ([taskX; taskY; taskA; taskB; taskC] ++ [finallyGroupNode])
    /\ nodeRunAfter finallyGroupNode = Some ["a"; "b"; "c"].
Proof.
  destruct (finally_node_runs_after_sinks
              [taskX; taskY; taskA; taskB; taskC] pipelineWithFinally None
              (fin:=[cleanup]) eq_refl)
    as [[f [H1 [_ H2]]] _].
  - discriminate.
  - exists f. split; [exact H1 | exact H2].
Defined.

(** C3: the group of [a] and [b] in the list [a, b]. *)
Lemma spacer_id_joins_members_in_input_order_witness :
  In (spacerNode [refOf taskA 0; refOf taskB 1])
     (handleParallelToParallelNodes [taskA; taskB])
  /\ id (spacerNode [refOf taskA 0; refOf taskB 1]) = "parallel-a-b".
Proof.
  destruct (spacer_id_joins_members_in_input_order
              [taskA; taskB] [refOf taskA 0; refOf taskB 1])
    as [k [first [others [_ [_ [_ [H [_ _]]]]]]]].
  - left. reflexivity.
  - split; [exact H | reflexivity].
Defined.

(** C3 fails as stated: the same two members in the other order give
    another spacer id, and that id is not the sorted concatenation. *)
Lemma spacer_id_depends_on_member_order :
  map id (handleParallelToParallelNodes [taskA; taskB]) = ["parallel-a-b"; "a"; "b"]
  /\ map id (handleParallelToParallelNodes [taskB; taskA]) = ["parallel-b-a"; "b"; "a"]
  /\ sort localeCompare ["b"; "a"] = ["a"; "b"]
  /\ "parallel-b-a" <> "parallel-a-b".
Proof. repeat split; try reflexivity. discriminate. Qed.

(** C4 on a pipeline without a [finally] property. *)
Lemma connectFinallyTasksToNodes_absent_finally_witness :
  connectFinallyTasksToNodes [taskX; taskC] (Some pipelineWithoutFinally) None
  = Returned [taskX; taskC].
Proof.
  exact (proj1 (connectFinallyTasksToNodes_absent_finally
                  [taskX; taskC] pipelineWithoutFinally None eq_refl)).
Defined.

(** C4 fails as stated: with [finally: []] the list is empty, yet an
    aggregate node (of height 40, for no task) is appended and an edge leads to
    it. *)
Lemma empty_finally_list_appends_node :
  finally_is_empty pipelineEmptyFinally = true
  /\ (exists finallyGroupNode,
         connectFinallyTasksToNodes [taskX; taskC] (Some pipelineEmptyFinally) None
         = Returned [taskX; taskC; finallyGroupNode]
         /\ id finallyGroupNode = "finally-node"
         /\ finallyTasks (task (data finallyGroupNode)) = []
         /\ height finallyGroupNode = 40%Z
         /\ map (@e_id) (getEdgesFromNodes [taskX; taskC; finallyGroupNode])
            = ["x~to~c"; "c~to~finally-node"])
  /\ connectFinallyTasksToNodes [taskX; taskC] (Some pipelineEmptyFinally) None
     <> Returned [taskX; taskC].
Proof.
  split; [reflexivity |]. split.
  - eexists. split; [reflexivity |]. repeat split; reflexivity.
  - discriminate.
Qed.

(** C5 fails on the code: two invalid-task-list placeholders that share
    their [runAfter] come out as plain task nodes. *)
Lemma invalid_task_list_member_becomes_task_node :
  map (@type _ _) [invalidA; invalidB]
  = [INVALID_TASK_LIST_NODE; INVALID_TASK_LIST_NODE]
  /\ map (fun n => (id n, type n, nodeRunAfter n))
         (handleParallelToParallelNodes [invalidA; invalidB])
     = [ ("parallel-a-b", SPACER_NODE, Some ["x"; "y"]);
         ("a", TASK_NODE, Some ["parallel-a-b"]);
         ("b", TASK_NODE, Some ["parallel-a-b"]) ].
Proof. split; reflexivity. Qed.

(** The frame of the rewriting on the member [a] of the list
    [x, y, a, c, b]. *)
Lemma group_member_only_runAfter_changes_witness :
  In {| id := "a";
        data := withRunAfter (data taskA) ["parallel-a-b"];
        height := height taskA; width := width taskA; type := TASK_NODE |}
     (handleParallelToParallelNodes [taskX; taskY; taskA; taskC; taskB]).
Proof.
  assert (H : NoDup (map id [taskX; taskY; taskA; taskC; taskB]))
    by distinct_strings.
  destruct (group_member_only_runAfter_changes
              [taskX; taskY; taskA; taskC; taskB]
              [refOf taskA 2; refOf taskB 4] (refOf taskA 2) H)
    as [_ [_ Hin]].
  - left. reflexivity.
  - left. reflexivity.
  - reflexivity.
  - split; reflexivity.
  - exact Hin.
Defined.


(** C8 on the sample pipeline. *)
Lemma node_ids_unique_witness :
  exists nodes edges,
    getTopologyNodesEdges pipelineWithFinally None = Returned (nodes, edges)
    /\ NoDup (map id nodes).
Proof.
  destruct (getTopologyNodesEdges pipelineWithFinally None) as [[nodes edges]|e] eqn:E;
    [| discriminate E].
  exists nodes, edges. split; [reflexivity |].
  apply (node_ids_unique pipelineWithFinally None E).
  - distinct_strings.
  - intros t Ht. simpl in Ht.
    repeat (destruct Ht as [<-|Ht]; [split; [discriminate | reflexivity] |]).
    contradiction.
  - intros t Ht _. simpl in Ht.
    repeat (destruct Ht as [<-|Ht];
            [unfold hyphenFree; simpl; intuition discriminate |]).
    contradiction.
Defined.

(** C8 fails as stated: a task named ['finally-node'] in a pipeline with
    finally tasks shares its id with the aggregate node, two groups whose
    member names join alike share their spacer id, and a task named like the
    spacer of a group shares its id with that spacer; the task names are
    pairwise distinct in the three pipelines. *)
Lemma synthetic_ids_collide :
  (exists nodes edges,
      getTopologyNodesEdges pipelineClash None = Returned (nodes, edges)
      /\ map (@pt_name _) (flatten (getPipelineTasks pipelineClash None))
         = ["finally-node"]
      /\ map id nodes = ["finally-node"; "finally-node"]
      /\ ~ NoDup (map id nodes))
  /\ (exists nodes edges,
         getTopologyNodesEdges pipelineSpacerClash None = Returned (nodes, edges)
         /\ NoDup (map (@pt_name _) (flatten (getPipelineTasks pipelineSpacerClash None)))
         /\ map id nodes
            = ["parallel-a-b-c"; "parallel-a-b-c"; "x"; "y"; "z"; "a"; "b-c"; "a-b"; "c"]
         /\ ~ NoDup (map id nodes))
  /\ (exists nodes edges,
         getTopologyNodesEdges pipelineTaskSpacerClash None = Returned (nodes, edges)
         /\ NoDup (map (@pt_name _)
                       (flatten (getPipelineTasks pipelineTaskSpacerClash None)))
         /\ map id nodes = ["parallel-a-b"; "x"; "y"; "a"; "b"; "parallel-a-b"]
         /\ ~ NoDup (map id nodes)).
Proof.
  split; [| split].
  - eexists. eexists. split; [reflexivity |]. split; [reflexivity |].
    split; [reflexivity |].
    intros H. inversion H as [|? ? Hin _]. apply Hin. now left.
  - eexists. eexists. split; [reflexivity |]. split; [distinct_strings |].
    split; [reflexivity |].
    intros H. inversion H as [|? ? Hin _]. apply Hin. now left.
  - eexists. eexists. split; [reflexivity |]. split; [distinct_strings |].
    split; [reflexivity |].
    intros H. inversion H as [|? ? Hin _]. apply Hin. do 4 right. now left.
Qed.

(** Unique ids on the sample pipeline, whose task names have no hyphen. *)
Lemma hyphen_free_names_give_unique_ids_witness :
  exists nodes edges,
    getTopologyNodesEdges pipelineWithFinally None = Returned (nodes, edges)
    /\ NoDup (map id nodes).
Proof.
  destruct (getTopologyNodesEdges pipelineWithFinally None) as [[nodes edges]|e] eqn:E;
    [| discriminate E].
  exists nodes, edges. split; [reflexivity |].
  apply (hyphen_free_names_give_unique_ids pipelineWithFinally None E).
  - distinct_strings.
  - repeat constructor; unfold hyphenFree; simpl; intuition discriminate.
Defined.

(** C9 with the sample constants: one finally task in the viewer, one
    finally task and one finally list task in the builder. *)
Lemma finally_node_height_witness :
  (exists finallyGroupNode,
      connectFinallyTasksToNodes [taskX; taskC] (Some pipelineWithFinally) None
      = Returned ([taskX; taskC] ++ [finallyGroupNode])
      /\ height finallyGroupNode = 90%Z)
  /\ height (useConnectFinally tt [taskX; taskC]
                {| tg_finallyTasks := [cleanup];
                   tg_finallyListTasks := [sampleTask "finally-list-1" None] |})
     = 170%Z.
Proof.
  split.
  - destruct (finally_node_height 1) as [_ [H _]].
    exact (H [taskX; taskC] pipelineWithFinally None [cleanup] eq_refl eq_refl).
  - destruct (finally_node_height (Extra:=unit) (PipelineRunKind:=unit) 2)
      as [_ [_ H]].
    exact (H tt [taskX; taskC]
             {| tg_finallyTasks := [cleanup];
                tg_finallyListTasks := [sampleTask "finally-list-1" None] |}
             eq_refl).
Defined.

(** ** The further properties on the sample inputs *)

#[local] Existing Instance sampleBuilderConst.


(** The dependency of [a] on [x] in [x, y, a, c, b]. *)
Lemma dependencies_preserved_witness :
  In {| e_id := "x~to~a"; e_type := "edge"; source := "x"; target := "a" |}
     (getEdgesFromNodes
        (handleParallelToParallelNodes [taskX; taskY; taskA; taskC; taskB]))
  \/ exists g,
      In g (multiParallelToParallelList [taskX; taskY; taskA; taskC; taskB])
      /\ In {| e_id := ("x" ++ "~to~" ++ parallelSpacerName g)%string;
               e_type := "edge"; source := "x"; target := parallelSpacerName g |}
            (getEdgesFromNodes
               (handleParallelToParallelNodes [taskX; taskY; taskA; taskC; taskB]))
      /\ In {| e_id := (parallelSpacerName g ++ "~to~" ++ "a")%string;
               e_type := "edge"; source := parallelSpacerName g; target := "a" |}
            (getEdgesFromNodes
               (handleParallelToParallelNodes [taskX; taskY; taskA; taskC; taskB])).
Proof.
  apply (dependencies_preserved [taskX; taskY; taskA; taskC; taskB] taskA "x").
  - distinct_strings.
  - intros m Hm. simpl in Hm.
    repeat (destruct Hm as [<-|Hm]; [reflexivity |]). contradiction.
  - names_without_pipe.
  - simpl. tauto.
  - simpl. tauto.
Defined.

(** The edge from the spacer to [a] in the normalized [x, y, a, c, b]. *)
Lemma no_dependency_invented_witness :
  exists g r,
    In g (multiParallelToParallelList [taskX; taskY; taskA; taskC; taskB])
    /\ In r g /\ parallelSpacerName g = "parallel-a-b"
    /\ name (task (data (node r))) = "a".
Proof.
  destruct (no_dependency_invented
              [taskX; taskY; taskA; taskC; taskB]
              {| e_id := "parallel-a-b~to~a"; e_type := "edge";
                 source := "parallel-a-b"; target := "a" |})
    as [[n [Hn [Hs _]]]|[[g [Hg [Ht _]]]|[g [r [Hg [Hr [Hs Ht]]]]]]].
  - distinct_strings.
  - names_without_pipe.
  - vm_compute. tauto.
  - exfalso. simpl in Hn, Hs.
    repeat (destruct Hn as [<-|Hn]; [simpl in Hs; intuition discriminate |]).
    contradiction.
  - exfalso. simpl in Hg. destruct Hg as [<-|[]]. discriminate Ht.
  - exists g, r. simpl in Hs, Ht. auto.
Defined.

(** The edges of the sample pipeline connect its nodes. *)
Lemma topology_edges_connect_nodes_witness :
  exists nodes edges,
    getTopologyNodesEdges pipelineWithFinally None = Returned (nodes, edges)
    /\ List.length edges = 8
    /\ forall e, In e edges ->
                 In (source e) (map id nodes) /\ In (target e) (map id nodes).
Proof.
  destruct (getTopologyNodesEdges pipelineWithFinally None) as [[nodes edges]|e] eqn:E;
    [| discriminate E].
  exists nodes, edges. split; [reflexivity |].
  destruct (topology_edges_connect_nodes pipelineWithFinally None E) as [Ht Hs].
  split.
  - vm_compute in E. injection E as <- <-. reflexivity.
  - intros e He. split; [| now apply Ht]. apply Hs; [| assumption].
    intros t s Hin Hra. simpl in Hin.
    repeat (destruct Hin as [<-|Hin]; [simpl in Hra; simpl; tauto |]).
    contradiction.
Defined.

(** The builder of a group without task, whose list task [list-1] declares
    the predecessor [x]: the placeholder has none. *)
Lemma useNodes_single_placeholder_witness :
  map (fun n => (id n, type n, nodeRunAfter n))
      (un_nodes (useNodes sampleTranslate sampleWatchedTasks sampleWatchedClusterTasks
                          "ns" (fun _ => None) sampleEmptyGroup))
  = [ ("list-1", TASK_LIST_NODE, Some []);
      ("finally-node-0-0", BUILDER_FINALLY_NODE, Some ["list-1"]) ].
Proof.
  destruct (useNodes_single_placeholder
              sampleTranslate sampleWatchedTasks sampleWatchedClusterTasks
              "ns" (fun _ => None) sampleEmptyGroup eq_refl)
    as [H _].
  - simpl. lia.
  - rewrite H. reflexivity.
Defined.

(** The validation after the errors of the tasks [build] and [constructor]
    have been repaired: [build] is cleared, [constructor] is not, since the
    read of the errors object finds [Object.prototype.constructor]. *)
Lemma inherited_previous_id_is_not_cleared :
  resourceValidationEffect [] [] [] [] ["build"; "constructor"]
  = {| onErrorCall := Some [("build", None)]; newPreviousErrorIds := [] |}.
Proof. reflexivity. Qed.

(** Two tasks named [2] and [1], in this order, that bind a missing
    workspace: the error ids are kept in the order of [Object.keys], the
    array indices first and ascending. *)
Lemma index_names_are_reported_in_ascending_order :
  let binds nm :=
    {| pt_name := nm; pt_runAfter := None;
       pt_rest := TaskProps None None
                    (Some [ {| ws_name := "source"; ws_workspace := "missing" |} ]) |} in
  resourceValidationEffect [] [binds "2"; binds "1"] [] [] []
  = {| onErrorCall := Some [ ("2", Some [MISSING_WORKSPACES]);
                             ("1", Some [MISSING_WORKSPACES]) ];
       newPreviousErrorIds := ["1"; "2"] |}.
Proof. reflexivity. Qed.

(** The sinks of [x, y, a, c, b] before and after the normalization. *)
Lemma getLastRegularTasks_normalized_witness :
  getLastRegularTasks
    (handleParallelToParallelNodes [taskX; taskY; taskA; taskC; taskB])
  = ["a"; "c"; "b"].
Proof.
  rewrite (getLastRegularTasks_normalized [taskX; taskY; taskA; taskC; taskB]).
  - reflexivity.
  - distinct_strings.
  - intros m Hm. simpl in Hm.
    repeat (destruct Hm as [<-|Hm]; [reflexivity |]). contradiction.
  - names_without_pipe.
  - intros n Hn Hin. simpl in Hn.
    repeat (destruct Hn as [<-|Hn]; [vm_compute in Hin; intuition discriminate |]).
    contradiction.
Defined.
